(** * save_summary_compact: archival of a session transcript

    A shallow embedding of [scripts/save_summary_compact.py]: the digest
    builder ([build_session_material]), the schema normaliser
    ([normalize_index]), the merge policies ([unique_list_merge],
    [merge_resolution_index_items], the index merge of
    [parse_model_output_to_context]) and the resolution allocator
    ([allocate_next_res_id]), with the properties the specification states
    about them, and the transcript reader ([tail_lines],
    [parse_jsonl_lines]).  The program comes first, then the notions of the
    specification, the sample data of the examples, and the properties:
    those of the specification, then further ones the code shows. *)

From Stdlib Require Import ZArith NArith List Ascii String Lia Bool.
From Stdlib Require DecimalN.
From stdpp Require Import base decidable option list gmap sets.

Open Scope list_scope.

Local Set Warnings "-register-all,-clear-no-such-hyp".

(** * The program *)

(** ** Text

    A Python [str] is a sequence of Unicode code points; a character is the
    number of its code point. *)

Abbreviation pystr := (list N) (only parsing).

(** An ASCII literal of the source, as a [str]. *)
Definition lit (s : string) : pystr := map N_of_ascii (list_ascii_of_string s).

(** ** Values

    The values the program handles are the ones [json.loads] builds:
    [None], booleans, integers, floats, strings, lists and dicts with string
    keys.  A float is identified by the text [json.dumps] writes for it.  A
    dict keeps its insertion order and is an association list; [PObject] is
    any other Python value (a set, bytes, an instance of a class), which
    [json.dumps] rejects with [TypeError]. *)

Inductive pyval : Type :=
| PNone
| PBool (b : bool)
| PInt (z : Z)
| PFloat (text : pystr)
| PStr (s : pystr)
| PList (l : list pyval)
| PDict (d : list (pystr * pyval))
| PObject (tag : N).

Abbreviation pydict := (list (pystr * pyval)) (only parsing).

(** [d.get(k)] as an option: the first (only) binding of [k]. *)
Fixpoint dict_get (d : pydict) (k : pystr) : option pyval :=
  match d with
  | [] => None
  | (k', v) :: d' => if decide (k' = k) then Some v else dict_get d' k
  end.

(** [d.get(k, dflt)]. *)
Definition dict_get_default (d : pydict) (k : pystr) (dflt : pyval) : pyval :=
  default dflt (dict_get d k).

(** [d.get(k)]: [None] when the key is missing. *)
Definition dict_get_none (d : pydict) (k : pystr) : pyval :=
  dict_get_default d k PNone.

(** [d[k] = v]: an existing key keeps its place, a new key goes last. *)
Fixpoint dict_set (d : pydict) (k : pystr) (v : pyval) : pydict :=
  match d with
  | [] => [(k, v)]
  | (k', v') :: d' =>
      if decide (k' = k) then (k', v) :: d' else (k', v') :: dict_set d' k v
  end.

(** [d.setdefault(k, v)], for its effect on [d]. *)
Definition dict_setdefault (d : pydict) (k : pystr) (v : pyval) : pydict :=
  match dict_get d k with
  | Some _ => d
  | None => dict_set d k v
  end.

Definition is_dict (v : pyval) : bool :=
  match v with PDict _ => true | _ => false end.

Definition is_list (v : pyval) : bool :=
  match v with PList _ => true | _ => false end.

(** Python truthiness of a value ([if v:], [v or dflt]). *)
Definition truthy (v : pyval) : bool :=
  match v with
  | PNone => false
  | PBool b => b
  | PInt z => negb (z =? 0)%Z
  | PFloat t =>
      negb (bool_decide (t = lit "0.0") || bool_decide (t = lit "-0.0"))
  | PStr s => negb (bool_decide (s = []))
  | PList l => negb (bool_decide (l = []))
  | PDict d => negb (bool_decide (d = []))
  | PObject _ => true
  end.

(** ** normalize_index *)

Definition empty_environment : pyval :=
  PDict [(lit "os", PNone); (lit "runtime", PNone);
         (lit "tools", PList []); (lit "paths", PList [])].

Definition empty_detail_index : pyval :=
  PDict [(lit "resolutions", PList [])].

(** The nine [setdefault] calls, in the order of the source. *)
Definition index_defaults : list (pystr * pyval) :=
  [ (lit "context_version", PStr (lit "v2"));
    (lit "project", PStr (lit "unknown"));
    (lit "current_state", PStr []);
    (lit "goals", PList []);
    (lit "constraints", PList []);
    (lit "environment", empty_environment);
    (lit "verified_facts", PList []);
    (lit "next_actions", PList []);
    (lit "detail_index", empty_detail_index) ].

Definition apply_defaults (d : pydict) (dflts : list (pystr * pyval)) : pydict :=
  fold_left (fun o kv => dict_setdefault o kv.1 kv.2) dflts d.

Definition normalize_index (obj : pyval) : pydict :=
  let obj0 := match obj with PDict d => d | _ => [] end in
  let obj1 := apply_defaults obj0 index_defaults in
  let obj2 :=
    if is_dict (dict_get_none obj1 (lit "detail_index")) then obj1
    else dict_set obj1 (lit "detail_index") empty_detail_index in
  let di :=
    match dict_get obj2 (lit "detail_index") with
    | Some (PDict di) => di
    | _ => []
    end in
  let di1 := dict_setdefault di (lit "resolutions") (PList []) in
  let di2 :=
    if is_list (dict_get_none di1 (lit "resolutions")) then di1
    else dict_set di1 (lit "resolutions") (PList []) in
  dict_set obj2 (lit "detail_index") (PDict di2).


(** ** Canonical serialisation

    [json.dumps(item, ensure_ascii=False, sort_keys=True)], the
    deduplication key of [unique_list_merge]. *)

Definition digit_char (d : N) : N := 48 + d.

Fixpoint digits_of_uint (d : Decimal.uint) : pystr :=
  match d with
  | Decimal.Nil => []
  | Decimal.D0 r => digit_char 0 :: digits_of_uint r
  | Decimal.D1 r => digit_char 1 :: digits_of_uint r
  | Decimal.D2 r => digit_char 2 :: digits_of_uint r
  | Decimal.D3 r => digit_char 3 :: digits_of_uint r
  | Decimal.D4 r => digit_char 4 :: digits_of_uint r
  | Decimal.D5 r => digit_char 5 :: digits_of_uint r
  | Decimal.D6 r => digit_char 6 :: digits_of_uint r
  | Decimal.D7 r => digit_char 7 :: digits_of_uint r
  | Decimal.D8 r => digit_char 8 :: digits_of_uint r
  | Decimal.D9 r => digit_char 9 :: digits_of_uint r
  end.

(** [str(n)] for a natural number. *)
Definition decimal (n : N) : pystr := digits_of_uint (N.to_uint n).

(** [repr] of an [int]. *)
Definition int_repr (z : Z) : pystr :=
  match z with
  | Zneg p => lit "-" ++ decimal (Npos p)
  | _ => decimal (Z.to_N z)
  end.

Definition hex_digit (d : N) : N := if (d <? 10)%N then 48 + d else 87 + d.

(** One character of a string, as [json.dumps] writes it when
    [ensure_ascii] is off: the quote, the backslash and the control
    characters below U+0020 are escaped. *)
Definition escape_char (c : N) : pystr :=
  if (c =? 34)%N then lit "\" ++ [34%N]
  else if (c =? 92)%N then lit "\\"
  else if (c =? 10)%N then lit "\n"
  else if (c =? 13)%N then lit "\r"
  else if (c =? 9)%N then lit "\t"
  else if (c =? 8)%N then lit "\b"
  else if (c =? 12)%N then lit "\f"
  else if (c <? 32)%N then lit "\u00" ++ [hex_digit (c / 16); hex_digit (c mod 16)]
  else [c].

Definition encode_str (s : pystr) : pystr :=
  [34%N] ++ concat (map escape_char s) ++ [34%N].

(** Code-point order on strings, the order [sort_keys] sorts by. *)
Fixpoint str_leb (s t : pystr) : bool :=
  match s, t with
  | [], _ => true
  | _ :: _, [] => false
  | a :: s', b :: t' =>
      if (a <? b)%N then true
      else if (b <? a)%N then false
      else str_leb s' t'
  end.

Fixpoint insert_by_key {A} (kv : pystr * A) (l : list (pystr * A)) : list (pystr * A) :=
  match l with
  | [] => [kv]
  | kv' :: l' =>
      if str_leb kv.1 kv'.1 then kv :: l else kv' :: insert_by_key kv l'
  end.

Definition sort_by_key {A} (l : list (pystr * A)) : list (pystr * A) :=
  foldr insert_by_key [] l.

(** [sep.join(parts)]. *)
Fixpoint join (sep : pystr) (parts : list pystr) : pystr :=
  match parts with
  | [] => []
  | [p] => p
  | p :: rest => p ++ sep ++ join sep rest
  end.

Fixpoint json_dumps (v : pyval) : option pystr :=
  match v with
  | PNone => Some (lit "null")
  | PBool true => Some (lit "true")
  | PBool false => Some (lit "false")
  | PInt z => Some (int_repr z)
  | PFloat t => Some t
  | PStr s => Some (encode_str s)
  | PList l =>
      let fix dumps_all (l : list pyval) : option (list pystr) :=
        match l with
        | [] => Some []
        | x :: r =>
            match json_dumps x, dumps_all r with
            | Some sx, Some sr => Some (sx :: sr)
            | _, _ => None
            end
        end in
      match dumps_all l with
      | Some parts => Some (lit "[" ++ join (lit ", ") parts ++ lit "]")
      | None => None
      end
  | PDict d =>
      let fix dumps_items (d : list (pystr * pyval)) : option (list (pystr * pystr)) :=
        match d with
        | [] => Some []
        | (k, x) :: r =>
            match json_dumps x, dumps_items r with
            | Some sx, Some sr => Some ((k, sx) :: sr)
            | _, _ => None
            end
        end in
      match dumps_items d with
      | Some items =>
          Some (lit "{" ++
                join (lit ", ")
                  (map (fun kv => encode_str kv.1 ++ lit ": " ++ kv.2)
                     (sort_by_key items)) ++
                lit "}")
      | None => None
      end
  | PObject _ => None
  end.

(** ** The interpreter's built-ins

    Three functions of the Python runtime the source calls and the
    repository does not define: [str()], which [unique_list_merge] falls back
    on when [json.dumps] raises and which formats the fields of an f-string;
    [json.loads], the decoder ([None] when it raises); and [open(path, "w")]
    on a path of the resolution directory, as far as the source depends on
    it: [opens name] tells whether the platform creates the file [name]
    there, which it does not for a name with a path separator or a NUL
    character, nor for a name that is too long. *)

Class Builtins := {
  py_str : pyval -> pystr;
  json_loads : pystr -> option pyval;
  opens : pystr -> bool
}.

(** ** Exceptions *)

(** The two [ValueError]s the source raises itself: the reply has no pair
    of file blocks, or a resolution line has no valid id (the message quotes
    the offending value). *)
Inductive message : Type :=
| MissingFileBlocks
| InvalidResolutionId (rid : pyval).

(** [OpenError] is what [open] raises on a name it does not take (an
    [OSError] such as [FileNotFoundError], or the [ValueError] of a NUL
    character).  [OutOfFuel] is no exception of the program: it is the
    bounded search of [next_free_id] giving up, which [allocate_next_res_id]
    never does. *)
Inductive exn : Type :=
| ValueError (why : message)
| JSONDecodeError
| AttributeError
| KeyError
| TypeError
| OpenError
| UnicodeEncodeError
| OutOfFuel.

Inductive result (A : Type) : Type :=
| Ok (a : A)
| Raise (e : exn).

Arguments Ok {A} a.
Arguments Raise {A} e.

(** Sequencing: the first exception raised ends the computation. *)
Global Instance result_bind : MBind result := fun A B k r =>
  match r with
  | Ok a => k a
  | Raise e => Raise e
  end.

(** ** json.dump to a file

    [json.dump(obj, f, ensure_ascii=False, indent=2)] writes the text of
    [obj] to the file piece by piece, the items of a dict and of a list in
    their order, and raises at the first piece it cannot write: [TypeError]
    at a value of another Python type, [UnicodeEncodeError] at a string or a
    key with a surrogate code point, which [utf-8] does not encode and
    [json.loads] builds from an escape such as [\ud800].  What was written
    before stays in the file. *)

Definition is_surrogate (c : N) : bool := ((55296 <=? c) && (c <=? 57343))%N.

(** [s.encode("utf-8")] does not raise. *)
Definition encodable (s : pystr) : bool := forallb (fun c => negb (is_surrogate c)) s.

(** The exception [json.dump] raises on [v], if any. *)
Fixpoint dump_error (v : pyval) : option exn :=
  match v with
  | PStr s => if encodable s then None else Some UnicodeEncodeError
  | PList l =>
      (fix items (l : list pyval) : option exn :=
         match l with
         | [] => None
         | x :: rest =>
             match dump_error x with
             | Some e => Some e
             | None => items rest
             end
         end) l
  | PDict d =>
      (fix items (d : list (pystr * pyval)) : option exn :=
         match d with
         | [] => None
         | (k, x) :: rest =>
             if encodable k then
               match dump_error x with
               | Some e => Some e
               | None => items rest
               end
             else Some UnicodeEncodeError
         end) d
  | PObject _ => Some TypeError
  | _ => None
  end.

(** ** unique_list_merge *)

(** The [try]/[except] around the computation of the key. *)
Definition item_key `{Builtins} (item : pyval) : pystr :=
  match json_dumps item with
  | Some k => k
  | None => py_str item
  end.

(** One pass of the inner loop, on the accumulators [out] and [seen]. *)
Definition merge_item `{Builtins} (acc : list pyval * gset pystr) (item : pyval)
  : list pyval * gset pystr :=
  let k := item_key item in
  if decide (k ∈ acc.2) then acc else (acc.1 ++ [item], {[k]} ∪ acc.2).

(** One pass of the outer loop: an argument that is not a list is skipped. *)
Definition merge_arr `{Builtins} (acc : list pyval * gset pystr) (arr : pyval)
  : list pyval * gset pystr :=
  match arr with
  | PList l => fold_left merge_item l acc
  | _ => acc
  end.

Definition unique_list_merge `{Builtins} (a b : pyval) : list pyval :=
  (merge_arr (merge_arr ([], ∅) a) b).1.

(** ** merge_resolution_index_items *)

(** [for it in (v or [])]: a falsy value gives no item, a list its items, a
    string its characters, a dict its keys; iterating over [True] or a
    non-zero number raises [TypeError] (and so does [PObject], taken as not
    iterable). *)
Definition iter_or_empty (v : pyval) : result (list pyval) :=
  if truthy v then
    match v with
    | PList l => Ok l
    | PStr s => Ok (map (fun c => PStr [c]) s)
    | PDict d => Ok (map (fun kv => PStr kv.1) d)
    | _ => Raise TypeError
    end
  else Ok [].

(** The id of a directory entry: [it["id"]] when [it] is a dict whose
    ["id"] is a string. *)
Definition entry_id (it : pyval) : option pystr :=
  match it with
  | PDict d =>
      match dict_get d (lit "id") with
      | Some (PStr rid) => Some rid
      | _ => None
      end
  | _ => None
  end.

Definition merge_entry (acc : list pyval * gset pystr) (it : pyval)
  : list pyval * gset pystr :=
  match entry_id it with
  | Some rid =>
      if decide (rid ∈ acc.2) then acc else (acc.1 ++ [it], {[rid]} ∪ acc.2)
  | None => acc
  end.

Definition merge_resolution_index_items (existing_items incoming_items : pyval)
  : result (list pyval) :=
  ex ← iter_or_empty existing_items;
  inc ← iter_or_empty incoming_items;
  Ok (fold_left merge_entry inc (fold_left merge_entry ex ([], ∅))).1.

(** ** The index merge of parse_model_output_to_context (step 4) *)

(** [v.get(k, dflt)] on any value: only a dict has [get]. *)
Definition py_get (v : pyval) (k : pystr) (dflt : pyval) : result pyval :=
  match v with
  | PDict d => Ok (dict_get_default d k dflt)
  | _ => Raise AttributeError
  end.

(** [x if isinstance(x, dict) else {}]. *)
Definition dict_or_empty (v : pyval) : pydict :=
  match v with PDict d => d | _ => [] end.

(** [d["detail_index"]["resolutions"] = v]. *)
Definition set_resolutions (d : pydict) (v : pyval) : result pydict :=
  match dict_get d (lit "detail_index") with
  | None => Raise KeyError
  | Some (PDict di) =>
      Ok (dict_set d (lit "detail_index") (PDict (dict_set di (lit "resolutions") v)))
  | Some _ => Raise TypeError
  end.

(** [d.get("detail_index", {}).get("resolutions", [])]. *)
Definition get_resolutions (d : pydict) : result pyval :=
  py_get (dict_get_default d (lit "detail_index") (PDict [])) (lit "resolutions") (PList []).

(** The latest-wins assignment [merged[k] = incoming.get(k, merged.get(k))]. *)
Definition latest_wins (incoming : pydict) (k : pystr) (merged : pydict) : pydict :=
  dict_set merged k (dict_get_default incoming k (dict_get_none merged k)).

(** The union assignment
    [merged[k] = unique_list_merge(merged.get(k, []), incoming.get(k, []))]. *)
Definition union_wins `{Builtins} (incoming : pydict) (k : pystr) (merged : pydict) : pydict :=
  dict_set merged k
    (PList (unique_list_merge (dict_get_default merged k (PList []))
                              (dict_get_default incoming k (PList [])))).

Definition merge_environment `{Builtins} (env_old env_new : pydict) : pydict :=
  [ (lit "os", dict_get_default env_new (lit "os") (dict_get_none env_old (lit "os")));
    (lit "runtime",
      dict_get_default env_new (lit "runtime") (dict_get_none env_old (lit "runtime")));
    (lit "tools",
      PList (unique_list_merge (dict_get_default env_old (lit "tools") (PList []))
                               (dict_get_default env_new (lit "tools") (PList []))));
    (lit "paths",
      PList (unique_list_merge (dict_get_default env_old (lit "paths") (PList []))
                               (dict_get_default env_new (lit "paths") (PList [])))) ].

(** The branch [if existing_index:] of step 4, on the persisted index
    [existing_index] and the incoming one. *)
Definition merge_index `{Builtins} (existing_index incoming_index : pydict) : result pydict :=
  let merged := existing_index in
  let merged := latest_wins incoming_index (lit "project") merged in
  let merged := latest_wins incoming_index (lit "current_state") merged in
  let merged := latest_wins incoming_index (lit "next_actions") merged in
  let merged := union_wins incoming_index (lit "goals") merged in
  let merged := union_wins incoming_index (lit "constraints") merged in
  let merged := union_wins incoming_index (lit "verified_facts") merged in
  let env_old := dict_or_empty (dict_get_none merged (lit "environment")) in
  let env_new := dict_or_empty (dict_get_none incoming_index (lit "environment")) in
  let merged := dict_set merged (lit "environment") (PDict (merge_environment env_old env_new)) in
  old_items ← get_resolutions merged;
  new_items ← get_resolutions incoming_index;
  items ← merge_resolution_index_items old_items new_items;
  set_resolutions merged (PList items).

(** ** Text operations *)

(** [str.isspace] on one character, the set that [str.strip] removes and
    that [\s] matches in a [str] pattern. *)
Definition is_space (c : N) : bool :=
  ((9 <=? c) && (c <=? 13) || (28 <=? c) && (c <=? 32) ||
   (c =? 133) || (c =? 160) || (c =? 5760) ||
   (8192 <=? c) && (c <=? 8202) || (c =? 8232) || (c =? 8233) ||
   (c =? 8239) || (c =? 8287) || (c =? 12288))%N.

(** The characters at which [str.splitlines] ends a line. *)
Definition is_linebreak (c : N) : bool :=
  ((10 <=? c) && (c <=? 13) || (28 <=? c) && (c <=? 30) ||
   (c =? 133) || (c =? 8232) || (c =? 8233))%N.

Fixpoint skip_ws (t : pystr) : pystr :=
  match t with
  | c :: t' => if is_space c then skip_ws t' else t
  | [] => []
  end.

(** [s.strip()]. *)
Definition strip (t : pystr) : pystr := rev (skip_ws (rev (skip_ws t))).

(** [t] without its prefix [p], when [t.startswith(p)]. *)
Fixpoint strip_prefix (p t : pystr) : option pystr :=
  match p, t with
  | [], _ => Some t
  | a :: p', b :: t' => if decide (a = b) then strip_prefix p' t' else None
  | _ :: _, [] => None
  end.

Definition starts_with (p t : pystr) : bool := bool_decide (is_Some (strip_prefix p t)).

Definition ends_with (p t : pystr) : bool := starts_with (rev p) (rev t).

(** [s.splitlines()]: [cur] is the line being read, most recent character
    first; a carriage return followed by a line feed ends one line. *)
Fixpoint splitlines_from (cur : pystr) (t : pystr) : list pystr :=
  match t with
  | [] => match cur with [] => [] | _ => [rev cur] end
  | c :: t' =>
      if is_linebreak c then
        match c, t' with
        | 13%N, 10%N :: t'' => rev cur :: splitlines_from [] t''
        | _, _ => rev cur :: splitlines_from [] t'
        end
      else splitlines_from (c :: cur) t'
  end.

Definition splitlines (t : pystr) : list pystr := splitlines_from [] t.

(** ** FILE_BLOCK_RE

    The pattern, with [re.DOTALL]:
    [===FILE:index\.json===\s*(?P<index>.*?)\s*===END_FILE===\s*]
    [===FILE:resolutions\.ndjson===\s*(?P<ndjson>.*?)\s*===END_FILE===]. *)

Definition INDEX_MARKER : pystr := Eval cbv in lit "===FILE:index.json===".
Definition NDJSON_MARKER : pystr := Eval cbv in lit "===FILE:resolutions.ndjson===".
Definition END_MARKER : pystr := Eval cbv in lit "===END_FILE===".

(** A lazy group [.*?] followed by the rest of the pattern: the group is
    the shortest text after which the rest matches. [acc] is the group read
    so far, most recent character first.  The greedy [\s*] before a lazy
    group takes every blank: what follows the group starts with [\s*] too, so
    giving blanks back to the group opens no match that was not there. *)
Fixpoint lazy_group {A} (rest : pystr -> option A) (acc t : pystr) : option (pystr * A) :=
  match rest t with
  | Some r => Some (rev acc, r)
  | None =>
      match t with
      | [] => None
      | c :: t' => lazy_group rest (c :: acc) t'
      end
  end.

(** [\s*===END_FILE===]: the marker starts with a character that is not a
    space, so the greedy [\s*] takes every space before it. *)
Definition match_end (t : pystr) : option pystr :=
  strip_prefix END_MARKER (skip_ws t).

(** [\s*===END_FILE===\s*===FILE:resolutions\.ndjson===\s*(?P<ndjson>.*?)\s*===END_FILE===],
    giving the group [ndjson]. *)
Definition match_ndjson_block (t : pystr) : option pystr :=
  t1 ← match_end t;
  t2 ← strip_prefix NDJSON_MARKER (skip_ws t1);
  fst <$> lazy_group match_end [] (skip_ws t2).

(** The whole pattern at the start of [t], giving the groups [index] and
    [ndjson]. *)
Definition match_here (t : pystr) : option (pystr * pystr) :=
  t0 ← strip_prefix INDEX_MARKER t;
  lazy_group match_ndjson_block [] (skip_ws t0).

(** [FILE_BLOCK_RE.search(t)]: the match at the leftmost position. *)
Fixpoint FILE_BLOCK_RE_search (t : pystr) : option (pystr * pystr) :=
  match match_here t with
  | Some g => Some g
  | None =>
      match t with
      | [] => None
      | _ :: t' => FILE_BLOCK_RE_search t'
      end
  end.

(** ** The persisted store

    The directory [context/resolutions] holds plain files: it maps the names
    of its files to what they hold, a JSON document or the start of one,
    which a [json.dump] that raised has left.  [context/index.json] is
    missing, unreadable (what [json.load] rejects, the start of a document
    included) or holds a document.  A file is identified with the document
    written to it: [json.load] gives back what [json.dump] wrote.  File
    names are compared as they are, as a case-sensitive file system does. *)

Inductive content : Type :=
| Document (doc : pyval)
| Partial.

Inductive file_state : Type :=
| Missing
| Unreadable
| Holds (doc : pyval).

Record store : Type := mkStore {
  res_files : gmap pystr content;
  index_file : file_state
}.

(** The name of the file of resolution [rid] in the directory. *)
Definition res_file_name (rid : pystr) : pystr := rid ++ lit ".json".

(** ** allocate_next_res_id *)

(** [f"{n:03d}"]. *)
Definition format_03d (n : N) : pystr :=
  let d := decimal n in
  replicate (3 - length d) (digit_char 0) ++ d.

(** [f"res-{n:03d}"]. *)
Definition res_id (n : N) : pystr := lit "res-" ++ format_03d n.

(** The set [existing]: the names of the directory that start with [res-]
    and end with [.json], without their last five characters. *)
Definition existing_ids (files : gmap pystr content) : gset pystr :=
  list_to_set
    (map (fun name => take (length name - 5) name)
       (filter (fun name => (starts_with (lit "res-") name && ends_with (lit ".json") name) = true)
          (elements (dom files)))).

(** The loop [while True] from [n]: [fuel] bounds the number of ids tried
    ([None] when it runs out). *)
Fixpoint next_free_id (fuel : nat) (n : N) (existing reserved : gset pystr) : option pystr :=
  match fuel with
  | O => None
  | S fuel' =>
      let rid := res_id n in
      if decide ((rid ∉ existing) ∧ (rid ∉ reserved)) then Some rid
      else next_free_id fuel' (n + 1) existing reserved
  end.

(** The id returned and the set [reserved] as the call leaves it.  There are
    no more ids in use than [size existing + size reserved], so this many
    tries and one more reach a free id. *)
Definition allocate_next_res_id (files : gmap pystr content) (reserved : gset pystr)
  : option (pystr * gset pystr) :=
  let existing := existing_ids files in
  rid ← next_free_id (S (size existing + size reserved)) 1 existing reserved;
  Some (rid, {[rid]} ∪ reserved).

(** ** parse_model_output_to_context *)

(** The variables of step 2: the directory, [id_remap], [written_ids] and
    [reserved_ids]. *)
Record run_state : Type := mkRun {
  files : gmap pystr content;
  id_remap : gmap pystr pystr;
  written_ids : list pystr;
  reserved_ids : gset pystr
}.

(** The end of the body of the loop: [open(out_file, "w")], [json.dump]
    and [written_ids.append(rid)].  The state the statement leaves and the
    exception it raises, if any: [open] raises before it creates the file;
    [json.dump] raises with the file created, and leaves the start of the
    record in it. *)
Definition write_file `{Builtins} (st : run_state) (rid : pystr) (obj : pyval)
  : run_state * option exn :=
  let out_file := res_file_name rid in
  if opens out_file then
    match dump_error obj with
    | None =>
        ({| files := <[out_file := Document obj]> (files st);
            id_remap := id_remap st;
            written_ids := written_ids st ++ [rid];
            reserved_ids := reserved_ids st |}, None)
    | Some e =>
        ({| files := <[out_file := Partial]> (files st);
            id_remap := id_remap st;
            written_ids := written_ids st;
            reserved_ids := reserved_ids st |}, Some e)
    end
  else (st, Some OpenError).

(** The body of the loop over the lines for a decoded line [obj]. *)
Definition write_record `{Builtins} (st : run_state) (obj : pyval) : run_state * option exn :=
  match py_get obj (lit "id") PNone with
  | Ok (PStr r) =>
      if starts_with (lit "res-") r then
        if decide (res_file_name r ∈ dom (files st) ∨ r ∈ reserved_ids st) then
          match allocate_next_res_id (files st) (reserved_ids st) with
          | Some (new_rid, reserved) =>
              let obj := PDict (dict_set (dict_or_empty obj) (lit "id") (PStr new_rid)) in
              write_file {| files := files st;
                            id_remap := <[r := new_rid]> (id_remap st);
                            written_ids := written_ids st;
                            reserved_ids := reserved |} new_rid obj
          | None => (st, Some OutOfFuel)
          end
        else
          write_file {| files := files st;
                        id_remap := id_remap st;
                        written_ids := written_ids st;
                        reserved_ids := {[r]} ∪ reserved_ids st |} r obj
      else (st, Some (ValueError (InvalidResolutionId (PStr r))))
  | Ok rid => (st, Some (ValueError (InvalidResolutionId rid)))
  | Raise e => (st, Some e)
  end.

(** One line: [obj = json.loads(ln)] and the body. *)
Definition write_line `{Builtins} (st : run_state) (ln : pystr) : run_state * option exn :=
  match json_loads ln with
  | Some obj => write_record st obj
  | None => (st, Some JSONDecodeError)
  end.

(** The loop over the lines.  An exception leaves the files written so far
    in place: the state comes back with it. *)
Fixpoint write_lines `{Builtins} (st : run_state) (lines : list pystr)
  : run_state * option exn :=
  match lines with
  | [] => (st, None)
  | ln :: rest =>
      match write_line st ln with
      | (st', None) => write_lines st' rest
      | (st', Some e) => (st', Some e)
      end
  end.

(** [[ln.strip() for ln in ndjson_text.splitlines() if ln.strip()]]. *)
Definition nonblank_lines (ndjson_text : pystr) : list pystr :=
  filter (fun ln => ln ≠ []) (map strip (splitlines ndjson_text)).

(** Step 3, first part: the id of every directory entry that [id_remap]
    knows is replaced. *)
Definition remap_entry (remap : gmap pystr pystr) (it : pyval) : pyval :=
  match it with
  | PDict d =>
      match dict_get d (lit "id") with
      | Some (PStr old) =>
          match remap !! old with
          | Some new => PDict (dict_set d (lit "id") (PStr new))
          | None => it
          end
      | _ => it
      end
  | _ => it
  end.

(** The entries are changed in place, in the list the index holds. *)
Definition remap_resolutions (remap : gmap pystr pystr) (index : pydict) : pydict :=
  match dict_get index (lit "detail_index") with
  | Some (PDict di) =>
      match dict_get di (lit "resolutions") with
      | Some (PList items) =>
          dict_set index (lit "detail_index")
            (PDict (dict_set di (lit "resolutions") (PList (map (remap_entry remap) items))))
      | _ => index
      end
  | _ => index
  end.

(** The minimal directory entry of step 3. *)
Definition minimal_entry (rid : pystr) : pyval :=
  PDict [ (lit "id", PStr rid);
          (lit "problem_signature", PStr []);
          (lit "summary", PStr []);
          (lit "tags", PList []);
          (lit "artifacts_touched", PList []) ].

(** Step 3 as a whole. *)
Definition fix_directory (remap : gmap pystr pystr) (written : list pystr) (incoming_index : pydict)
  : result pydict :=
  incoming_items ← get_resolutions incoming_index;
  let incoming_index := remap_resolutions remap incoming_index in
  if (negb (is_list incoming_items) || negb (truthy incoming_items))
     && negb (bool_decide (written = []))
  then set_resolutions incoming_index (PList (map minimal_entry written))
  else Ok incoming_index.

(** Step 1: the persisted index, read and normalised, or [None]. *)
Definition read_existing_index (f : file_state) : option pydict :=
  match f with
  | Holds doc => Some (normalize_index doc)
  | _ => None
  end.

(** Step 4. *)
Definition final_index `{Builtins} (existing_index : option pydict) (incoming_index : pydict)
  : result pydict :=
  match existing_index with
  | Some existing =>
      if truthy (PDict existing) then merge_index existing incoming_index
      else Ok incoming_index
  | None => Ok incoming_index
  end.

(** Step 5: [open(index_path, "w")] empties [index.json] and [json.dump]
    writes the index to it; when it raises, the file is left with the start
    of the index. *)
Definition write_index (final_index : pydict) : option exn * file_state :=
  match dump_error (PDict final_index) with
  | None => (None, Holds (PDict final_index))
  | Some e => (Some e, Unreadable)
  end.

(** The function: the value returned or the exception raised, and the store
    as the call leaves it. *)
Definition parse_model_output_to_context `{Builtins} (out_text : pystr) (st : store)
  : result pydict * store :=
  match FILE_BLOCK_RE_search out_text with
  | None => (Raise (ValueError MissingFileBlocks), st)
  | Some (index_text, ndjson_text) =>
      match json_loads (strip index_text) with
      | None => (Raise JSONDecodeError, st)
      | Some doc =>
          let incoming_index := normalize_index doc in
          let ndjson_text := strip ndjson_text in
          let existing_index := read_existing_index (index_file st) in
          let run0 := mkRun (res_files st) ∅ [] ∅ in
          match write_lines run0 (nonblank_lines ndjson_text) with
          | (run, Some e) => (Raise e, mkStore (files run) (index_file st))
          | (run, None) =>
              let st1 := mkStore (files run) (index_file st) in
              match
                incoming_index ← fix_directory (id_remap run) (written_ids run) incoming_index;
                final_index existing_index incoming_index
              with
              | Raise e => (Raise e, st1)
              | Ok final =>
                  match write_index final with
                  | (None, index_file) => (Ok final, mkStore (files run) index_file)
                  | (Some e, index_file) => (Raise e, mkStore (files run) index_file)
                  end
              end
          end
      end
  end.

(** ** Slices *)

(** [l[start:]]: a negative [start] counts from the end, and an index out
    of range is clamped. *)
Definition slice_from {A} (start : Z) (l : list A) : list A :=
  let len := Z.of_nat (length l) in
  let start := if (start <? 0)%Z then Z.max (start + len) 0 else Z.min start len in
  drop (Z.to_nat start) l.

(** [l[:stop]]. *)
Definition slice_to {A} (stop : Z) (l : list A) : list A :=
  let len := Z.of_nat (length l) in
  let stop := if (stop <? 0)%Z then Z.max (stop + len) 0 else Z.min stop len in
  take (Z.to_nat stop) l.

(** ** collect_text_from_any *)

(** [d.get("type") == name]. *)
Definition has_type (d : pydict) (name : pystr) : bool :=
  match dict_get d (lit "type") with
  | Some (PStr t) => bool_decide (t = name)
  | _ => false
  end.

(** The strings the call appends to [out], in order. *)
Fixpoint collect_text_from_any (node : pyval) : list pystr :=
  match node with
  | PStr s => let s := strip s in if decide (s = []) then [] else [s]
  | PList l =>
      (fix collect_all (l : list pyval) : list pystr :=
         match l with
         | [] => []
         | item :: rest => collect_text_from_any item ++ collect_all rest
         end) l
  | PDict d =>
      let under (k : pystr) :=
        (fix find (d : list (pystr * pyval)) : list pystr :=
           match d with
           | [] => []
           | (k', v) :: d' => if decide (k' = k) then collect_text_from_any v else find d'
           end) d in
      (if has_type d (lit "text") then
         match dict_get d (lit "text") with
         | Some (PStr s) => let s := strip s in if decide (s = []) then [] else [s]
         | _ => []
         end
       else []) ++
      under (lit "content") ++ under (lit "message") ++ under (lit "input")
  | _ => []
  end.

Definition NEWLINE : pystr := [10%N].

(** ["\n".join([x for x in buf if x]).strip()] for the text collected
    under [node]. *)
Definition collected_block (node : pyval) : pystr :=
  strip (join NEWLINE (filter (fun x => x ≠ []) (collect_text_from_any node))).

Definition extract_text_from_message_obj (msg_obj : pyval) : pystr :=
  match msg_obj with
  | PDict d => collected_block (dict_get_none d (lit "content"))
  | _ => []
  end.

(** ** build_session_material *)

Record channels : Type := mkChannels {
  summaries : list pystr;
  dialogue : list pystr;
  tool_uses : list pystr;
  tool_results : list pystr;
  tool_stats : list pystr
}.

(** [e.get("message") if isinstance(e.get("message"), dict) else {}], then
    [.get("content")], when that is a list. *)
Definition message_content_items (e : pydict) : list pyval :=
  match dict_get_none (dict_or_empty (dict_get_none e (lit "message"))) (lit "content") with
  | PList items => items
  | _ => []
  end.

(** The descriptor of a [tool_use] item of an assistant message. *)
Definition tool_use_line `{Builtins} (item : pyval) : option pystr :=
  match item with
  | PDict d =>
      if has_type d (lit "tool_use") then
        let name := dict_get_none d (lit "name") in
        let tid := dict_get_none d (lit "id") in
        let desc :=
          match dict_get_none d (lit "input") with
          | PDict inp =>
              match dict_get_none inp (lit "description") with
              | PStr s => s
              | _ =>
                  match dict_get_none inp (lit "prompt") with
                  | PStr s => s
                  | _ => []
                  end
              end
          | _ => []
          end in
        let desc := filter (fun c => c ≠ 13%N) (strip desc) in
        Some (lit "- tool_use: " ++ py_str name ++ lit " (" ++ py_str tid ++ lit ") " ++
              slice_to 600 desc)
      else None
  | _ => None
  end.

(** The text of a [tool_result] item of a user message, when not empty. *)
Definition tool_result_block (item : pyval) : option pystr :=
  match item with
  | PDict d =>
      if has_type d (lit "tool_result") then
        let block := collected_block (dict_get_none d (lit "content")) in
        if decide (block = []) then None else Some block
      else None
  | _ => None
  end.

(** The line of the dialogue channel for an event of type [t]. *)
Definition dialogue_line (e : pydict) (t : pystr) : option pystr :=
  match dict_get_none e (lit "message") with
  | PDict msg =>
      let role := dict_get_none msg (lit "role") in
      let role :=
        match (if truthy role then role else PStr t) with
        | PStr r => strip r
        | _ => t
        end in
      let text := extract_text_from_message_obj (PDict msg) in
      if decide (text = []) then None else Some (role ++ lit ": " ++ text)
  | _ => None
  end.

(** The statistics line of a top-level [toolUseResult]. *)
Definition tool_stats_line `{Builtins} (tur : pydict) : pystr :=
  lit "- toolUseResult: status=" ++ py_str (dict_get_none tur (lit "status")) ++
  lit ", agentId=" ++ py_str (dict_get_none tur (lit "agentId")) ++
  lit ", totalTokens=" ++ py_str (dict_get_none tur (lit "totalTokens")) ++
  lit ", durationMs=" ++ py_str (dict_get_none tur (lit "totalDurationMs")).

(** The body of the loop over the events. *)
Definition classify_event `{Builtins} (ch : channels) (e : pyval) : channels :=
  match e with
  | PDict d =>
      match has_type d (lit "summary"), dict_get_none d (lit "summary") with
      | true, PStr s =>
          mkChannels (summaries ch ++ [strip s]) (dialogue ch) (tool_uses ch)
            (tool_results ch) (tool_stats ch)
      | _, _ =>
          let uses :=
            if has_type d (lit "assistant")
            then omap tool_use_line (message_content_items d) else [] in
          let results :=
            if has_type d (lit "user")
            then omap tool_result_block (message_content_items d) else [] in
          let lines :=
            if has_type d (lit "user") then option_list (dialogue_line d (lit "user"))
            else if has_type d (lit "assistant")
            then option_list (dialogue_line d (lit "assistant"))
            else [] in
          match dict_get_none d (lit "toolUseResult") with
          | PDict tur =>
              let block := collected_block (dict_get_none tur (lit "content")) in
              mkChannels (summaries ch) (dialogue ch ++ lines) (tool_uses ch ++ uses)
                (tool_results ch ++ results ++ (if decide (block = []) then [] else [block]))
                (tool_stats ch ++ [tool_stats_line tur])
          | _ =>
              mkChannels (summaries ch) (dialogue ch ++ lines) (tool_uses ch ++ uses)
                (tool_results ch ++ results) (tool_stats ch)
          end
      end
  | _ => ch
  end.

Definition collect_channels `{Builtins} (events : list pyval) : channels :=
  fold_left classify_event events (mkChannels [] [] [] [] []).

(** The section headers:
    【summary 事件】, 【tool_use 事件（截取）】, 【toolUseResult 统计】,
    【tool_result / toolUseResult 输出（重点，截取）】 and 【最近对话（截取）】. *)
Definition HEADER_SUMMARY : pystr :=
  [12304%N] ++ lit "summary " ++ [20107; 20214; 12305]%N.
Definition HEADER_TOOL_USE : pystr :=
  [12304%N] ++ lit "tool_use " ++ [20107; 20214; 65288; 25130; 21462; 65289; 12305]%N.
Definition HEADER_TOOL_STATS : pystr :=
  [12304%N] ++ lit "toolUseResult " ++ [32479; 35745; 12305]%N.
Definition HEADER_TOOL_RESULT : pystr :=
  [12304%N] ++ lit "tool_result / toolUseResult " ++
  [36755; 20986; 65288; 37325; 28857; 65292; 25130; 21462; 65289; 12305]%N.
Definition HEADER_DIALOGUE : pystr :=
  [12304; 26368; 36817; 23545; 35805; 65288; 25130; 21462; 65289; 12305]%N.

Definition SEPARATOR : pystr := NEWLINE ++ lit "---" ++ NEWLINE.

(** The list [material]. *)
Definition material_of (ch : channels) : list pystr :=
  (if decide (summaries ch = []) then []
   else HEADER_SUMMARY :: map (fun s => lit "- " ++ s) (slice_from (-80) (summaries ch)) ++ [[]]) ++
  (if decide (tool_uses ch = []) then []
   else HEADER_TOOL_USE :: slice_from (-120) (tool_uses ch) ++ [[]]) ++
  (if decide (tool_stats ch = []) then []
   else HEADER_TOOL_STATS :: slice_from (-120) (tool_stats ch) ++ [[]]) ++
  (if decide (tool_results ch = []) then []
   else HEADER_TOOL_RESULT ::
        concat (map (fun block => [slice_to 20000 block; SEPARATOR])
                  (slice_from (-120) (tool_results ch)))) ++
  (if decide (dialogue ch = []) then []
   else HEADER_DIALOGUE :: slice_from (-120) (dialogue ch)).

Definition build_session_material `{Builtins} (events : list pyval) (max_chars : Z) : pystr :=
  let blob := strip (join NEWLINE (material_of (collect_channels events))) in
  slice_from (- max_chars) blob.

(** ** tail_lines *)

(** A text file as [open] finds it: not there ([FileNotFoundError]), not to
    be opened (another [OSError]), or there with the characters its bytes
    decode to under [errors="replace"]. *)
Inductive text_file : Type :=
| NoFile
| NoAccess
| Chars (content : pystr).

(** Universal newlines, the default of a file opened for reading in text
    mode: a carriage return, alone or followed by a line feed, is read as a
    line feed. *)
Fixpoint universal_newlines (t : pystr) : pystr :=
  match t with
  | [] => []
  | c :: t' =>
      if (c =? 13)%N then
        10%N :: match t' with
                | 10%N :: t'' => universal_newlines t''
                | _ => universal_newlines t'
                end
      else c :: universal_newlines t'
  end.

(** [f.readlines()]: every line keeps its line feed. [cur] is the line
    being read, most recent character first. *)
Fixpoint readlines_from (cur : pystr) (t : pystr) : list pystr :=
  match t with
  | [] => match cur with [] => [] | _ => [rev cur] end
  | c :: t' =>
      if (c =? 10)%N then rev (c :: cur) :: readlines_from [] t'
      else readlines_from (c :: cur) t'
  end.

Definition readlines (t : pystr) : list pystr := readlines_from [] t.

(** The lines returned, or [None] when the exception of [open] is not the
    one the function catches. *)
Definition tail_lines (f : text_file) (max_lines : Z) : option (list pystr) :=
  match f with
  | NoFile => Some []
  | NoAccess => None
  | Chars content => Some (slice_from (- max_lines) (readlines (universal_newlines content)))
  end.

(** ** parse_jsonl_lines *)

(** A blank line and a line [json.loads] rejects are passed over. *)
Fixpoint parse_jsonl_lines `{Builtins} (lines : list pystr) : list pyval :=
  match lines with
  | [] => []
  | ln :: rest =>
      let ln := strip ln in
      if decide (ln = []) then parse_jsonl_lines rest
      else
        match json_loads ln with
        | Some obj => obj :: parse_jsonl_lines rest
        | None => parse_jsonl_lines rest
        end
  end.

(** * Specification

    The notions the properties are stated with. *)

(** ** Canonical texts *)

(** The items of a dict and of a list as [json.dumps] writes them, before
    the items of the dict are sorted. *)
Definition dumps_items (d : pydict) : option (list (pystr * pystr)) :=
  mapM (λ kv, pair kv.1 <$> json_dumps kv.2) d.

Definition dumps_all (l : list pyval) : option (list pystr) := mapM json_dumps l.

(** The values [json.loads] builds: no value of another Python type in
    them. *)
Fixpoint json_value (v : pyval) : bool :=
  match v with
  | PList l => forallb json_value l
  | PDict d => forallb (λ kv, json_value kv.2) d
  | PObject _ => false
  | _ => true
  end.

(** ** The index and its merge *)

(** The shape the merge relies on: [detail_index] is a dict whose
    [resolutions] is a list. *)
Definition index_shape (d : pydict) : Prop :=
  ∃ di items,
    dict_get d (lit "detail_index") = Some (PDict di) ∧
    dict_get di (lit "resolutions") = Some (PList items).

(** The items of a value taken as a list: none when it is not one. *)
Definition entries (v : pyval) : list pyval :=
  match v with PList l => l | _ => [] end.

(** The directory of an index. *)
Definition directory (index : pydict) : list pyval :=
  match dict_get index (lit "detail_index") with
  | Some (PDict di) => entries (dict_get_none di (lit "resolutions"))
  | _ => []
  end.

(** The index with its directory replaced. *)
Definition with_resolutions (index : pydict) (di : pydict)
    (items : list pyval) : pydict :=
  dict_set index (lit "detail_index") (PDict (dict_set di (lit "resolutions") (PList items))).

(** The union the specification describes: the entries of [l] whose
    canonical form is that of no entry of [earlier] and of no entry before
    them in [l]. *)
Definition new_entries `{Builtins} (earlier l : list pyval) : list pyval :=
  (filter (λ jx, item_key jx.2 ∉ item_key <$> (earlier ++ take jx.1 l)) (imap pair l)).*2.

(** What the union-merge policy promises of a merged field: a list, the
    previous entries in first-seen order, then the incoming entries whose
    canonical form is new; no canonical form occurs twice in it, every
    previous entry has its canonical form in it, and the previous list is a
    prefix of it when it had no duplicate. *)
Definition union_of `{Builtins} (prev inc : pyval) (merged_value : option pyval) : Prop :=
  ∃ merged,
    merged_value = Some (PList merged) ∧
    merged = new_entries [] (entries prev) ++ new_entries (entries prev) (entries inc) ∧
    NoDup (item_key <$> merged) ∧
    (∀ x, x ∈ entries prev → ∃ y, y ∈ merged ∧ item_key y = item_key x) ∧
    (NoDup (item_key <$> entries prev) →
     merged = entries prev ++ new_entries (entries prev) (entries inc)).

(** The same union, stated with the canonical form itself: the text
    [json.dumps] writes with sorted keys.  The entries of [l] whose text is
    that of no entry of [earlier] and of no entry before them in [l]. *)
Definition new_by_text (earlier l : list pyval) : list pyval :=
  (filter (λ jx, json_dumps jx.2 ∉ json_dumps <$> (earlier ++ take jx.1 l)) (imap pair l)).*2.

(** The entries of a field are JSON values, as [json.loads] builds them. *)
Definition json_entries (v : pyval) : Prop :=
  Forall (λ x, json_value x = true) (entries v).

(** What the union-merge policy promises of a merged field whose entries
    are JSON values: a list, the previous entries in first-seen order, then
    the incoming entries whose canonical text is new; the list has no
    canonical text twice and no entry from elsewhere; every entry, previous
    or incoming, has its canonical text in it; and the previous list is a
    prefix of it when it had no duplicate. *)
Definition union_by_text (prev inc : pyval) (merged_value : option pyval) : Prop :=
  ∃ merged,
    merged_value = Some (PList merged) ∧
    merged = new_by_text [] (entries prev) ++ new_by_text (entries prev) (entries inc) ∧
    NoDup (json_dumps <$> merged) ∧
    (∀ y, y ∈ merged → y ∈ entries prev ++ entries inc) ∧
    (∀ x, x ∈ entries prev ++ entries inc →
       ∃ y, y ∈ merged ∧ json_dumps y = json_dumps x) ∧
    (NoDup (json_dumps <$> entries prev) →
     merged = entries prev ++ new_by_text (entries prev) (entries inc)).

(** The latest-wins fields and the union-merge fields of the index. *)
Definition latest_keys : list pystr :=
  [lit "project"; lit "current_state"; lit "next_actions"].
Definition union_keys : list pystr :=
  [lit "goals"; lit "constraints"; lit "verified_facts"].
(** The union-merge fields of [environment]. *)
Definition environment_union_keys : list pystr := [lit "tools"; lit "paths"].

(** The index after the assignments to its top-level fields, before
    [detail_index.resolutions] is merged. *)
Definition merged_fields `{Builtins} (S D : pydict) : pydict :=
  let merged := latest_wins D (lit "project") S in
  let merged := latest_wins D (lit "current_state") merged in
  let merged := latest_wins D (lit "next_actions") merged in
  let merged := union_wins D (lit "goals") merged in
  let merged := union_wins D (lit "constraints") merged in
  let merged := union_wins D (lit "verified_facts") merged in
  let env_old := dict_or_empty (dict_get_none merged (lit "environment")) in
  let env_new := dict_or_empty (dict_get_none D (lit "environment")) in
  dict_set merged (lit "environment") (PDict (merge_environment env_old env_new)).

(** Both deduplicating loops keep the first occurrence of every key;
    [fresh seen l] are the elements of [l] a loop keeps when it starts with
    the keys [seen], for a key that may be missing. *)
Section first_occurrences.
Context {A K : Type} `{Countable K} (key : A → option K).

Definition keep_step (acc : list A * gset K) (x : A) : list A * gset K :=
  match key x with
  | Some k => if decide (k ∈ acc.2) then acc else (acc.1 ++ [x], {[k]} ∪ acc.2)
  | None => acc
  end.

Fixpoint fresh (seen : gset K) (l : list A) : list A :=
  match l with
  | [] => []
  | x :: rest =>
      match key x with
      | Some k => if decide (k ∈ seen) then fresh seen rest else x :: fresh ({[k]} ∪ seen) rest
      | None => fresh seen rest
      end
  end.

Definition keys_of (l : list A) : gset K := list_to_set (omap key l).

End first_occurrences.

(** The key of [unique_list_merge], which every item has. *)
Definition some_key `{Builtins} (x : pyval) : option pystr := Some (item_key x).

(** ** Resolution ids and the writer loop *)

(** The id shape of the specification, [res-NNN]: the prefix [res-] and at
    least three decimal digits after it. *)
Definition is_digit (c : N) : bool := ((48 <=? c) && (c <=? 57))%N.

Definition is_res_nnn (rid : pystr) : bool :=
  match strip_prefix (lit "res-") rid with
  | Some ds => (3 <=? length ds)%nat && forallb is_digit ds
  | None => false
  end.

(** Reading decimal digits back: what is no digit ends the number. *)
Fixpoint uint_of_digits (s : pystr) : Decimal.uint :=
  match s with
  | [] => Decimal.Nil
  | c :: r =>
      let u := uint_of_digits r in
      match c with
      | 48%N => Decimal.D0 u
      | 49%N => Decimal.D1 u
      | 50%N => Decimal.D2 u
      | 51%N => Decimal.D3 u
      | 52%N => Decimal.D4 u
      | 53%N => Decimal.D5 u
      | 54%N => Decimal.D6 u
      | 55%N => Decimal.D7 u
      | 56%N => Decimal.D8 u
      | 57%N => Decimal.D9 u
      | _ => Decimal.Nil
      end
  end.

(** What the search returns: the id of the least number from [n] on that
    is neither in the directory nor reserved. *)
Definition least_free_from (n : N) (existing reserved : gset (pystr)) (rid : pystr) : Prop :=
  ∃ m, (n ≤ m)%N ∧ rid = res_id m ∧ (rid ∉ existing) ∧ (rid ∉ reserved) ∧
       ∀ j, (n ≤ j < m)%N → res_id j ∈ existing ∨ res_id j ∈ reserved.

(** The id a decoded line declares, when the loop accepts it: the line is a
    dict whose ["id"] is a string that starts with [res-]. *)
Definition declared_id (obj : pyval) : option pystr :=
  match obj with
  | PDict d =>
      match dict_get d (lit "id") with
      | Some (PStr r) => if starts_with (lit "res-") r then Some r else None
      | _ => None
      end
  | _ => None
  end.

(** The id is taken: its file is in the directory or an earlier line of the
    run has it. *)
Definition collides (st : run_state) (r : pystr) : Prop :=
  res_file_name r ∈ dom (files st) ∨ r ∈ reserved_ids st.

(** A record with its id field set. *)
Definition with_id (obj : pyval) (rid : pystr) : pyval :=
  PDict (dict_set (dict_or_empty obj) (lit "id") (PStr rid)).

(** The id the loop stores a record under, for the id [r] the record
    declares: [r], or the id the allocator returns when [r] is taken. *)
Definition stored_id (st : run_state) (r : pystr) : pystr :=
  if decide (collides st r) then
    match allocate_next_res_id (files st) (reserved_ids st) with
    | Some (new_rid, _) => new_rid
    | None => r
    end
  else r.

(** The record can be written under [rid]: [open] takes the name of its
    file, and [json.dump] the record. *)
Definition writable `{Builtins} (obj : pyval) (rid : pystr) : Prop :=
  opens (res_file_name rid) = true ∧ dump_error (with_id obj rid) = None.

(** The variables of the loop once the id [rid] is chosen for a record
    that declares [r], before its file is opened. *)
Definition claimed_as (st : run_state) (r rid : pystr) : run_state :=
  {| files := files st;
     id_remap := if decide (rid = r) then id_remap st else <[r := rid]> (id_remap st);
     written_ids := written_ids st;
     reserved_ids := {[rid]} ∪ reserved_ids st |}.

(** The state after a record is written under [rid]. *)
Definition written_as (st : run_state) (obj : pyval) (r rid : pystr) : run_state :=
  {| files := <[res_file_name rid := Document (with_id obj rid)]> (files st);
     id_remap := if decide (rid = r) then id_remap st else <[r := rid]> (id_remap st);
     written_ids := written_ids st ++ [rid];
     reserved_ids := {[rid]} ∪ reserved_ids st |}.

(** What holds of the variables of the loop after any number of lines, for
    the directory [files0] the run started with. *)
Definition run_inv (files0 : gmap pystr content) (run : run_state) : Prop :=
  NoDup (written_ids run) ∧
  reserved_ids run = list_to_set (written_ids run) ∧
  (∀ name, name ∈ dom files0 → files run !! name = files0 !! name) ∧
  (∀ rid, rid ∈ written_ids run →
     (res_file_name rid ∉ dom files0) ∧ starts_with (lit "res-") rid = true ∧
     ∃ doc, files run !! res_file_name rid = Some (Document doc) ∧ entry_id doc = Some rid) ∧
  dom (files run) = dom files0 ∪ list_to_set (res_file_name <$> written_ids run) ∧
  (∀ old new, id_remap run !! old = Some new → new ∈ written_ids run ∧ new ≠ old).



(** What a line that raised has left of the state [st1] before it: the
    written ids as they were, and the directory as it was or with one more
    file, the start of a record under a name that was free. *)
Definition left_by_failure (st1 st' : run_state) : Prop :=
  written_ids st' = written_ids st1 ∧
  (files st' = files st1 ∨
   ∃ rid, starts_with (lit "res-") rid = true ∧
          (res_file_name rid ∉ dom (files st1)) ∧
          files st' = <[res_file_name rid := Partial]> (files st1)).

(** The directory of the incoming index after step 3: minimal entries for
    the written ids when the reply had no entry and records were written,
    the reply's entries with their ids remapped otherwise. *)
Definition fixed_items (remap : gmap pystr pystr) (written : list pystr)
    (items : list pyval) : list pyval :=
  if decide (items = [] ∧ written ≠ []) then map minimal_entry written
  else map (remap_entry remap) items.

(** ** The reply *)

(** The reply format of the specification: somewhere in the text, the
    index marker, the index document, the closing marker, nothing but
    blanks, the marker of the resolution stream, the stream and the closing
    marker. *)
Definition has_file_blocks (t : pystr) : Prop :=
  ∃ pre index_text gap ndjson_text post,
    forallb is_space gap = true ∧
    t = pre ++ INDEX_MARKER ++ index_text ++ END_MARKER ++ gap ++
        NDJSON_MARKER ++ ndjson_text ++ END_MARKER ++ post.

(** ** The digest *)

(** The [n] most recent entries of a channel, in their order. *)
Definition last_n {A} (n : nat) (l : list A) : list A := drop (length l - n) l.

(** A section of the digest: nothing when it has no line. *)
Definition digest_section (header : pystr) (lines trailer : list pystr) : list pystr :=
  if decide (lines = []) then [] else header :: lines ++ trailer.

(** The sectioned text of the digest, from the entries the channels
    retain: 80 summaries, 120 entries of every other channel, an output
    entry cut to 20000 characters. *)
Definition sectioned_text (ch : channels) : pystr :=
  strip (join NEWLINE (
    digest_section HEADER_SUMMARY
      (map (fun s => lit "- " ++ s) (last_n 80 (summaries ch))) [[]] ++
    digest_section HEADER_TOOL_USE (last_n 120 (tool_uses ch)) [[]] ++
    digest_section HEADER_TOOL_STATS (last_n 120 (tool_stats ch)) [[]] ++
    digest_section HEADER_TOOL_RESULT
      (concat (map (fun block => [take (Z.to_nat 20000) block; SEPARATOR])
                 (last_n 120 (tool_results ch)))) [] ++
    digest_section HEADER_DIALOGUE (last_n 120 (dialogue ch)) [])).

(** Channels side by side. *)
Definition channels_app (c1 c2 : channels) : channels :=
  mkChannels (summaries c1 ++ summaries c2) (dialogue c1 ++ dialogue c2)
    (tool_uses c1 ++ tool_uses c2) (tool_results c1 ++ tool_results c2)
    (tool_stats c1 ++ tool_stats c2).

(** ** Markers, lines and texts *)

(** [m] occurs in [t ++ m] at its end only: not inside [t], and not astride
    the end of [t]. *)
Fixpoint closes_first (m t : pystr) : bool :=
  match t with
  | [] => true
  | _ :: t' => negb (starts_with m (t ++ m)) && closes_first m t'
  end.

(** A line of the resolution block as the writer loop takes it: not empty,
    trimmed, with no character that ends a line. *)
Definition clean_line (ln : pystr) : bool :=
  negb (bool_decide (ln = [])) && bool_decide (strip ln = ln) &&
  forallb (λ c, negb (is_linebreak c)) ln.

(** A line of a text file: not empty, with no line feed before its last
    character. *)
Definition one_line (ln : pystr) : bool :=
  match rev ln with
  | [] => false
  | _ :: before => forallb (λ c, negb (c =? 10)%N) before
  end.

(** A description as a line of the digest shows it: trimmed, without
    carriage returns, and its first 600 characters of what is left. *)
Definition short_description (s : pystr) : pystr :=
  take 600 (filter (λ c, c ≠ 13%N) (strip s)).

(** The start of the line of a [tool_use] item: its name and its id. *)
Definition tool_use_head `{Builtins} (d : pydict) : pystr :=
  lit "- tool_use: " ++ py_str (dict_get_none d (lit "name")) ++ lit " (" ++
  py_str (dict_get_none d (lit "id")) ++ lit ") ".

(** The text of a string node: the string trimmed, when something is left. *)
Definition text_piece (s : pystr) : list pystr :=
  let s := strip s in if decide (s = []) then [] else [s].

(** The texts collected under the key [k] of a dict. *)
Definition texts_under (d : pydict) (k : pystr) : list pystr :=
  match dict_get d k with
  | Some v => collect_text_from_any v
  | None => []
  end.

(** An event the digest has no channel for: not a dict, or a dict that is
    no summary, assistant or user event and has no [toolUseResult] dict. *)
Definition unclassified (e : pyval) : bool :=
  match e with
  | PDict d =>
      negb (has_type d (lit "summary") &&
            match dict_get_none d (lit "summary") with PStr _ => true | _ => false end) &&
      negb (has_type d (lit "assistant")) && negb (has_type d (lit "user")) &&
      negb (is_dict (dict_get_none d (lit "toolUseResult")))
  | _ => true
  end.

(** * Sample data

    A stand-in for the interpreter in the examples: [str()] on the values
    they format, and a decoder that knows the documents of a table by their
    canonical text. *)

Definition sample_str (v : pyval) : pystr :=
  match v with
  | PNone => lit "None"
  | PBool true => lit "True"
  | PBool false => lit "False"
  | PInt z => int_repr z
  | PFloat t => t
  | PStr s => s
  | _ => lit "<object>"
  end.

Definition sample_loads (docs : list pyval) (text : pystr) : option pyval :=
  snd <$> list_find (fun doc => json_dumps doc = Some text) docs.

(** A file system that takes the names of at most 255 characters with no
    path separator and no NUL character. *)
Definition sample_opens (name : pystr) : bool :=
  forallb (fun c => negb (c =? 47)%N && negb (c =? 0)%N) name && (length name <=? 255)%nat.

Definition sample_builtins (docs : list pyval) : Builtins :=
  {| py_str := sample_str; json_loads := sample_loads docs; opens := sample_opens |}.

(** The text of a document. *)
Definition text_of (doc : pyval) : pystr := default [] (json_dumps doc).

(** A reply with the two file blocks, from the index document and the
    resolution records. *)
Definition reply_of (index_doc : pyval) (records : list pyval) : pystr :=
  INDEX_MARKER ++ NEWLINE ++ text_of index_doc ++ NEWLINE ++ END_MARKER ++ NEWLINE ++
  NDJSON_MARKER ++ NEWLINE ++ join NEWLINE (map text_of records) ++ NEWLINE ++ END_MARKER.

Definition str (s : string) : pyval := PStr (lit s).

(** An index as a first run leaves it. *)
Definition sample_persisted : pyval :=
  PDict [ (lit "context_version", str "v2");
          (lit "project", str "demo");
          (lit "current_state", str "build_ok");
          (lit "goals", PList [str "g1"; str "g2"]);
          (lit "constraints", PList [str "no downtime"]);
          (lit "environment",
            PDict [(lit "os", str "linux"); (lit "runtime", PNone);
                   (lit "tools", PList [str "docker"]); (lit "paths", PList [])]);
          (lit "verified_facts", PList []);
          (lit "next_actions", PList [str "deploy"]);
          (lit "detail_index",
            PDict [(lit "resolutions", PList [PDict [(lit "id", str "res-001")]])]) ].

(** A reply's index: it empties [current_state], leaves [project] out and
    brings one new goal. *)
Definition sample_reply : pyval :=
  PDict [ (lit "current_state", str "");
          (lit "environment", PDict [(lit "tools", PList [str "docker"; str "make"])]);
          (lit "goals", PList [str "g2"; str "g3"]) ].

(** The store after a first run, and the interpreter that decodes the
    sample reply. *)
Definition sample_store : store :=
  mkStore {[ lit "res-001.json" := Document (PDict [(lit "id", str "res-001")]) ]}
    (Holds sample_persisted).

(** The index a run returns (the empty dict when it raises). *)
Definition run_index (r : result pydict * store) : pydict :=
  match r.1 with Ok M => M | Raise _ => [] end.

Definition sample_run : result pydict * store :=
  parse_model_output_to_context (H := sample_builtins [sample_reply])
    (reply_of sample_reply []) sample_store.


(** Two records of one reply that declare the same id, and the reply's
    index with a directory entry for each. *)
Definition twin_a : pyval := PDict [(lit "id", str "res-001"); (lit "problem", str "first")].
Definition twin_b : pyval := PDict [(lit "id", str "res-001"); (lit "problem", str "second")].

Definition twin_index : pyval :=
  PDict [ (lit "detail_index",
            PDict [(lit "resolutions",
                     PList [ PDict [(lit "id", str "res-001"); (lit "summary", str "first")];
                             PDict [(lit "id", str "res-001"); (lit "summary", str "second")] ])]) ].

Definition twin_run : result pydict * store :=
  parse_model_output_to_context (H := sample_builtins [twin_index; twin_a; twin_b])
    (reply_of twin_index [twin_a; twin_b]) sample_store.

(** The same reply on a fresh store. *)
Definition twin_first_run : result pydict * store :=
  parse_model_output_to_context (H := sample_builtins [twin_index; twin_a; twin_b])
    (reply_of twin_index [twin_a; twin_b]) (mkStore ∅ Missing).

(** A record whose id is no file name, and a record with a lone surrogate,
    as [json.loads] builds it from the escape [\ud800]. *)
Definition slash_record : pyval := PDict [(lit "id", str "res-a/b")].
Definition surrogate_record : pyval :=
  PDict [(lit "id", str "res-001"); (lit "summary", PStr [55296%N])].

(** A reply's index whose project is a lone surrogate, on the sample
    store. *)
Definition surrogate_index : pyval := PDict [(lit "project", PStr [55296%N])].

Definition surrogate_run : result pydict * store :=
  parse_model_output_to_context (H := sample_builtins [surrogate_index; twin_a])
    (reply_of surrogate_index [twin_a]) sample_store.




(** A reply cut off before the closing marker of the resolution stream. *)
Definition truncated_reply : pystr :=
  INDEX_MARKER ++ NEWLINE ++ text_of (PDict []) ++ NEWLINE ++ END_MARKER ++ NEWLINE ++
  NDJSON_MARKER ++ NEWLINE ++ text_of twin_a ++ NEWLINE.

(** Two events of a transcript: a summary and a user turn. *)
Definition sample_events : list pyval :=
  [ PDict [(lit "type", str "summary"); (lit "summary", str " did x ")];
    PDict [(lit "type", str "user");
           (lit "message", PDict [(lit "role", str "user"); (lit "content", str "hi")])] ].

(** A reply with text around its two blocks. *)
Definition chatty_reply : pystr :=
  lit "Here you are: " ++ reply_of (PDict []) [twin_a; twin_b] ++ lit " Done.".

(** The same fields in two orders. *)
Definition fields_ab : pydict := [(lit "a", PInt 1); (lit "b", str "x")].
Definition fields_ba : pydict := [(lit "b", str "x"); (lit "a", PInt 1)].

(** * Properties *)

(** ** Dictionaries *)

Lemma dict_get_set_eq (d : pydict) k v : dict_get (dict_set d k v) k = Some v.
Proof.
  induction d as [|[k' v'] d IH]; simpl.
  - by rewrite decide_True.
  - destruct (decide (k' = k)) as [->|Hne]; simpl.
    + by rewrite decide_True.
    + by rewrite decide_False.
Qed.

Lemma dict_get_set_ne (d : pydict) k k' v :
  k ≠ k' → dict_get (dict_set d k v) k' = dict_get d k'.
Proof.
  intros Hne. induction d as [|[k0 v0] d IH]; simpl.
  - by rewrite decide_False.
  - destruct (decide (k0 = k)) as [->|Hk]; simpl.
    + by rewrite !decide_False.
    + destruct (decide (k0 = k')); done.
Qed.

Lemma dict_get_set (d : pydict) k k' v :
  dict_get (dict_set d k v) k' = if decide (k = k') then Some v else dict_get d k'.
Proof.
  destruct (decide (k = k')) as [->|Hne].
  - apply dict_get_set_eq.
  - by apply dict_get_set_ne.
Qed.

Lemma dict_set_same (d : pydict) k v : dict_get d k = Some v → dict_set d k v = d.
Proof.
  induction d as [|[k' v'] d IH]; simpl; [done|].
  destruct (decide (k' = k)) as [->|Hne]; [by intros [= ->]|].
  intros Hg. by rewrite IH.
Qed.

Lemma dict_set_set (d : pydict) k v w : dict_set (dict_set d k v) k w = dict_set d k w.
Proof.
  induction d as [|[k' v'] d IH]; simpl.
  - by rewrite decide_True.
  - destruct (decide (k' = k)) as [->|Hne]; simpl.
    + by rewrite decide_True.
    + by rewrite decide_False, IH.
Qed.

Lemma dict_get_setdefault (d : pydict) k k' v :
  dict_get (dict_setdefault d k v) k' =
  match dict_get d k' with
  | Some x => Some x
  | None => if decide (k = k') then Some v else None
  end.
Proof.
  unfold dict_setdefault. destruct (dict_get d k) as [x|] eqn:Hk.
  - destruct (dict_get d k') eqn:Hk'; [done|].
    destruct (decide (k = k')) as [->|]; [congruence|done].
  - rewrite dict_get_set. destruct (decide (k = k')) as [->|]; [by rewrite Hk|].
    by destruct (dict_get d k').
Qed.

Lemma dict_get_apply_defaults (dflts : list (pystr * pyval)) (d : pydict) k :
  dict_get (apply_defaults d dflts) k =
  match dict_get d k with
  | Some x => Some x
  | None => dict_get dflts k
  end.
Proof.
  revert d. induction dflts as [|[k0 v0] dflts IH]; intros d; simpl.
  - by destruct (dict_get d k).
  - unfold apply_defaults in *. simpl. rewrite IH, dict_get_setdefault.
    destruct (dict_get d k); [done|]. by destruct (decide (k0 = k)).
Qed.

(** ** normalize_index *)

Lemma normalize_index_shape obj : index_shape (normalize_index obj).
Proof.
  unfold index_shape, normalize_index.
  set (obj1 := apply_defaults _ _).
  set (obj2 := if is_dict _ then _ else _).
  set (di := match dict_get obj2 _ with Some (PDict di) => di | _ => [] end).
  set (di1 := dict_setdefault di _ _).
  set (di2 := if is_list _ then _ else _).
  exists di2. rewrite dict_get_set_eq.
  assert (∃ items, dict_get di2 (lit "resolutions") = Some (PList items)) as [items ?];
    [|by exists items].
  unfold di2, dict_get_none, dict_get_default.
  destruct (dict_get di1 (lit "resolutions")) as [[]|] eqn:Hr; simpl;
    try (rewrite dict_get_set_eq; by eexists).
  by eexists.
Qed.

Lemma index_defaults_get :
  Forall (fun kv => dict_get index_defaults kv.1 = Some kv.2) index_defaults.
Proof. repeat constructor. Qed.

Lemma normalize_index_get_other obj k :
  k ≠ lit "detail_index" →
  dict_get (normalize_index obj) k =
  match dict_get (dict_or_empty obj) k with
  | Some x => Some x
  | None => dict_get index_defaults k
  end.
Proof.
  intros Hk. unfold normalize_index.
  rewrite dict_get_set_ne by done.
  destruct (is_dict _).
  - by rewrite dict_get_apply_defaults.
  - rewrite dict_get_set_ne by done. by rewrite dict_get_apply_defaults.
Qed.

Lemma normalize_index_detail_default obj :
  (∀ di, dict_get (dict_or_empty obj) (lit "detail_index") ≠ Some (PDict di)) →
  dict_get (normalize_index obj) (lit "detail_index") = Some empty_detail_index.
Proof.
  intros Hno. unfold normalize_index. rewrite dict_get_set_eq.
  fold (dict_or_empty obj). set (obj0 := dict_or_empty obj) in *.
  set (obj1 := apply_defaults _ _).
  assert (H1 : dict_get obj1 (lit "detail_index") =
               match dict_get obj0 (lit "detail_index") with
               | Some x => Some x
               | None => Some empty_detail_index
               end) by apply dict_get_apply_defaults.
  set (obj2 := if is_dict _ then _ else _).
  assert (H2 : dict_get obj2 (lit "detail_index") = Some empty_detail_index).
  { unfold obj2, dict_get_none, dict_get_default. rewrite H1.
    destruct (dict_get obj0 (lit "detail_index")) as [v|] eqn:Hv; [|done].
    destruct v; simpl; try apply dict_get_set_eq. by destruct (Hno d). }
  rewrite H2. reflexivity.
Qed.

(** C5, a reply that carries malformed fields: [goals] is a string and
    [environment] is [null]; both come back as they were, neither a list nor
    a dict. *)
Lemma normalize_index_keeps_malformed :
  let reply := PDict [(lit "goals", PStr (lit "ship it")); (lit "environment", PNone)] in
  (∃ v, dict_get (normalize_index reply) (lit "goals") = Some v ∧ is_list v = false) ∧
  (∃ v, dict_get (normalize_index reply) (lit "environment") = Some v ∧ is_dict v = false).
Proof. split; eexists; (split; [vm_compute; reflexivity | reflexivity]). Qed.

Lemma index_defaults_lookup k dflt :
  (k, dflt) ∈ index_defaults → dict_get index_defaults k = Some dflt.
Proof.
  intros Hin. exact (proj1 (Forall_forall _ _) index_defaults_get (k, dflt) Hin).
Qed.

Lemma normalize_index_present obj k :
  k ∈ index_defaults.*1 → is_Some (dict_get (normalize_index obj) k).
Proof.
  intros [[k' dflt] [-> Hin]]%list_elem_of_fmap. simpl.
  destruct (decide (k' = lit "detail_index")) as [->|Hne].
  - destruct (normalize_index_shape obj) as (di & items & -> & _). by eexists.
  - rewrite normalize_index_get_other by done.
    destruct (dict_get _ k'); [by eexists|].
    rewrite (index_defaults_lookup _ _ Hin). by eexists.
Qed.

Lemma normalize_index_missing obj k dflt :
  (k, dflt) ∈ index_defaults →
  dict_get (dict_or_empty obj) k = None →
  dict_get (normalize_index obj) k = Some dflt.
Proof.
  intros Hin Hnone. destruct (decide (k = lit "detail_index")) as [->|Hne].
  - rewrite normalize_index_detail_default.
    + symmetry. apply index_defaults_lookup in Hin. vm_compute in Hin. by injection Hin as <-.
    + intros di. by rewrite Hnone.
  - rewrite normalize_index_get_other by done. rewrite Hnone.
    by apply index_defaults_lookup.
Qed.

(** C5 (amended): for every decoded value, [normalize_index] returns a dict
    in which every required field exists; a field the reply lacks has its
    type-correct default (an empty list for a sequence, the canonical empty
    shape for [environment] and [detail_index]); [detail_index] is always a
    dict whose [resolutions] is a list, and is the canonical empty shape when
    the reply's was not a dict; every other field the reply carries is kept as
    it is, well typed or not. *)
Theorem normalize_index_total (obj : pyval) :
  let r := normalize_index obj in
  let given := dict_get (dict_or_empty obj) in
  (∀ k, k ∈ index_defaults.*1 → is_Some (dict_get r k)) ∧
  (∀ k dflt, (k, dflt) ∈ index_defaults → given k = None → dict_get r k = Some dflt) ∧
  (∀ k v, k ≠ lit "detail_index" → given k = Some v → dict_get r k = Some v) ∧
  index_shape r ∧
  ((∀ di, given (lit "detail_index") ≠ Some (PDict di)) →
   dict_get r (lit "detail_index") = Some empty_detail_index).
Proof.
  intros r given.
  split; [|split; [|split; [|split]]].
  - apply normalize_index_present.
  - apply normalize_index_missing.
  - intros k v Hne Hsome. unfold r. rewrite normalize_index_get_other by done.
    unfold given in Hsome. by rewrite Hsome.
  - apply normalize_index_shape.
  - apply normalize_index_detail_default.
Qed.

(** ** First occurrences *)

Section first_occurrences_facts.
Context {A K : Type} `{Countable K} (key : A → option K).

Lemma fold_keep_step l out seen :
  fold_left (keep_step key) l (out, seen) = (out ++ fresh key seen l, seen ∪ keys_of key l).
Proof.
  revert out seen. induction l as [|x l IH]; intros out seen; simpl.
  - rewrite app_nil_r. f_equal. unfold keys_of. simpl. set_solver.
  - unfold keep_step at 2. unfold keys_of. simpl. destruct (key x) as [k|] eqn:Hk; simpl.
    + destruct (decide (k ∈ seen)).
      * rewrite IH. f_equal. unfold keys_of. set_solver.
      * rewrite IH. rewrite <- app_assoc. simpl. f_equal. unfold keys_of. set_solver.
    + rewrite IH. done.
Qed.

Lemma fresh_known seen l : keys_of key l ⊆ seen → fresh key seen l = [].
Proof.
  revert seen. induction l as [|x l IH]; intros seen Hsub; simpl; [done|].
  unfold keys_of in Hsub. simpl in Hsub.
  destruct (key x) as [k|] eqn:Hk.
  - rewrite decide_True by set_solver. apply IH. unfold keys_of. set_solver.
  - apply IH. done.
Qed.

Lemma keys_of_fresh seen l : seen ∪ keys_of key (fresh key seen l) = seen ∪ keys_of key l.
Proof.
  revert seen. induction l as [|x l IH]; intros seen; simpl; [done|].
  unfold keys_of in *. simpl. destruct (key x) as [k|] eqn:Hk; simpl.
  - destruct (decide (k ∈ seen)).
    + rewrite IH. set_solver.
    + simpl. rewrite Hk. simpl. specialize (IH ({[k]} ∪ seen)). set_solver.
  - apply IH.
Qed.

Lemma fresh_app seen l1 l2 :
  fresh key seen (l1 ++ l2) = fresh key seen l1 ++ fresh key (seen ∪ keys_of key l1) l2.
Proof.
  revert seen. induction l1 as [|x l1 IH]; intros seen; simpl.
  - f_equal. unfold keys_of. simpl. set_solver.
  - unfold keys_of. simpl. destruct (key x) as [k|] eqn:Hk; simpl.
    + destruct (decide (k ∈ seen)).
      * rewrite IH. do 2 f_equal. unfold keys_of. set_solver.
      * rewrite IH. simpl. do 3 f_equal. unfold keys_of. set_solver.
    + apply IH.
Qed.

Lemma fresh_fresh seen l : fresh key seen (fresh key seen l) = fresh key seen l.
Proof.
  revert seen. induction l as [|x l IH]; intros seen; simpl; [done|].
  destruct (key x) as [k|] eqn:Hk.
  - destruct (decide (k ∈ seen)); [done|]. simpl. rewrite Hk, decide_False by done.
    by rewrite IH.
  - done.
Qed.

Lemma elem_of_fresh seen l x : x ∈ fresh key seen l → x ∈ l ∧ ∃ k, key x = Some k ∧ k ∉ seen.
Proof.
  revert seen. induction l as [|y l IH]; intros seen; simpl; [by intros ?%elem_of_nil|].
  destruct (key y) as [k|] eqn:Hk.
  - destruct (decide (k ∈ seen)).
    + intros [? ?]%IH. split; [by right|done].
    + intros [->|Hin]%elem_of_cons.
      * split; [by left|]. by exists k.
      * apply IH in Hin as [? (k' & ? & ?)]. split; [by right|]. exists k'. set_solver.
  - intros [? ?]%IH. split; [by right|done].
Qed.

Lemma fresh_NoDup seen l : NoDup (omap key (fresh key seen l)).
Proof.
  revert seen. induction l as [|x l IH]; intros seen; simpl; [constructor|].
  destruct (key x) as [k|] eqn:Hk; [|done].
  destruct (decide (k ∈ seen)); [done|]. simpl. rewrite Hk. constructor; [|done].
  intros (y & Hin & Hy)%list_elem_of_omap.
  apply elem_of_fresh in Hin as [_ (k' & Hk' & Hnot)]. set_solver.
Qed.

Lemma fresh_covers seen l x k :
  x ∈ l → key x = Some k → k ∈ seen ∨ ∃ y, y ∈ fresh key seen l ∧ key y = Some k.
Proof.
  intros Hin Hk. destruct (decide (k ∈ seen)); [by left|right].
  assert (k ∈ seen ∪ keys_of key (fresh key seen l)) as Hm.
  { rewrite keys_of_fresh. apply elem_of_union_r. unfold keys_of.
    apply elem_of_list_to_set, list_elem_of_omap. eauto. }
  apply elem_of_union in Hm as [?|Hm]; [done|].
  unfold keys_of in Hm. apply elem_of_list_to_set, list_elem_of_omap in Hm. done.
Qed.

Lemma fresh_all seen l :
  NoDup (omap key l) → (∀ x, x ∈ l → ∃ k, key x = Some k ∧ k ∉ seen) → fresh key seen l = l.
Proof.
  revert seen. induction l as [|x l IH]; intros seen Hnd Hall; simpl; [done|].
  destruct (Hall x) as (k & Hk & Hnot); [by left|].
  simpl in Hnd. rewrite Hk in *. apply NoDup_cons in Hnd as [Hx Hnd].
  rewrite decide_False by done. f_equal. apply IH; [done|].
  intros y Hy. destruct (Hall y) as (k' & Hk' & Hnot'); [by right|].
  exists k'. split; [done|]. intros [->%elem_of_singleton|?]%elem_of_union; [|done].
  apply Hx, list_elem_of_omap. eauto.
Qed.

End first_occurrences_facts.

Lemma filter_imap_reindex {A} (P Q : nat * A → Prop)
    `{∀ x, Decision (P x)} `{∀ x, Decision (Q x)} (f g : nat → nat) (l : list A) :
  (∀ j y, P (f j, y) ↔ Q (g j, y)) →
  (filter P (imap (λ j y, (f j, y)) l)).*2 = (filter Q (imap (λ j y, (g j, y)) l)).*2.
Proof.
  revert f g. induction l as [|x l IH]; intros f g Hpq; [done|].
  simpl. rewrite !filter_cons.
  specialize (IH (f ∘ S) (g ∘ S) (λ j y, Hpq (S j) y)).
  destruct (decide (P (f 0, x))) as [HP|HP], (decide (Q (g 0, x))) as [HQ|HQ];
    simpl; [by f_equal| by apply Hpq in HP | by apply Hpq in HQ | done].
Qed.

(** ** Canonical serialisation *)

Lemma str_leb_total s t : str_leb s t = true ∨ str_leb t s = true.
Proof.
  revert t. induction s as [|a s IH]; intros [|b t]; simpl; auto.
  destruct (N.ltb_spec a b), (N.ltb_spec b a); auto; lia.
Qed.

Lemma str_leb_antisym s t : str_leb s t = true → str_leb t s = true → s = t.
Proof.
  revert t. induction s as [|a s IH]; intros [|b t]; simpl; try done.
  destruct (N.ltb_spec a b), (N.ltb_spec b a); try done; try lia.
  intros Hst Hts. f_equal; [lia|by apply IH].
Qed.

Lemma str_leb_trans s t u : str_leb s t = true → str_leb t u = true → str_leb s u = true.
Proof.
  revert t u. induction s as [|a s IH]; intros [|b t] [|c u]; simpl; try done.
  destruct (N.ltb_spec a b), (N.ltb_spec b a), (N.ltb_spec b c), (N.ltb_spec c b),
    (N.ltb_spec a c), (N.ltb_spec c a); try done; try lia.
  apply IH.
Qed.

Lemma insert_by_key_comm {A} (x y : pystr * A) l :
  x.1 ≠ y.1 → insert_by_key x (insert_by_key y l) = insert_by_key y (insert_by_key x l).
Proof.
  intros Hne. induction l as [|z l IH]; simpl.
  - destruct (str_leb x.1 y.1) eqn:Hxy, (str_leb y.1 x.1) eqn:Hyx; try done.
    + destruct Hne. by apply str_leb_antisym.
    + destruct (str_leb_total x.1 y.1); congruence.
  - destruct (str_leb y.1 z.1) eqn:Hyz, (str_leb x.1 z.1) eqn:Hxz; simpl;
      rewrite ?Hyz, ?Hxz;
      destruct (str_leb x.1 y.1) eqn:Hxy, (str_leb y.1 x.1) eqn:Hyx; try done;
      try (destruct Hne; by apply str_leb_antisym);
      try (destruct (str_leb_total x.1 y.1); congruence);
      try (rewrite (str_leb_trans _ _ _ Hxy Hyz) in Hxz; done);
      try (rewrite (str_leb_trans _ _ _ Hyx Hxz) in Hyz; done);
      try (by rewrite IH).
Qed.

Lemma json_dumps_dict d :
  json_dumps (PDict d) =
  items ← dumps_items d;
  Some (lit "{" ++
        join (lit ", ") (map (λ kv, encode_str kv.1 ++ lit ": " ++ kv.2) (sort_by_key items)) ++
        lit "}").
Proof.
  cbn [json_dumps].
  match goal with |- match ?F d with _ => _ end = _ =>
    assert (∀ d', F d' = dumps_items d') as ->
  end.
  { induction d' as [|[k x] d' IH]; [done|]. rewrite IH. unfold dumps_items. cbn.
    destruct (json_dumps x); [|done]. cbn. by destruct (mapM _ d'). }
  by destruct (dumps_items d).
Qed.

Lemma json_dumps_list l :
  json_dumps (PList l) =
  parts ← dumps_all l; Some (lit "[" ++ join (lit ", ") parts ++ lit "]").
Proof.
  cbn [json_dumps].
  match goal with |- match ?F l with _ => _ end = _ =>
    assert (∀ l', F l' = dumps_all l') as ->
  end.
  { induction l' as [|x l' IH]; [done|]. rewrite IH. unfold dumps_all. cbn.
    destruct (json_dumps x); [|done]. cbn. by destruct (mapM _ l'). }
  by destruct (dumps_all l).
Qed.

Lemma dumps_items_cons k x d :
  dumps_items ((k, x) :: d) =
  match json_dumps x with
  | Some s => cons (k, s) <$> dumps_items d
  | None => None
  end.
Proof. unfold dumps_items. cbn. destruct (json_dumps x); [|done]. cbn. by destruct (mapM _ d). Qed.

Lemma sorted_items_permutation d1 d2 :
  d1 ≡ₚ d2 → NoDup d1.*1 →
  sort_by_key <$> dumps_items d1 = sort_by_key <$> dumps_items d2.
Proof.
  induction 1 as [|[k x] d1 d2 Hp IH|[k1 x1] [k2 x2] d|d1 d2 d3 H12 IH12 H23 IH23]; intros Hnd.
  - done.
  - rewrite !dumps_items_cons. destruct (json_dumps x) as [s|]; [|done].
    rewrite <- !option_fmap_compose.
    change (sort_by_key ∘ cons (k, s)) with (insert_by_key (k, s) ∘ @sort_by_key (pystr)).
    rewrite !option_fmap_compose, IH; [done|]. by apply NoDup_cons in Hnd as [_ ?].
  - rewrite !dumps_items_cons. destruct (json_dumps x1) as [s1|], (json_dumps x2) as [s2|];
      try done; [|by destruct (dumps_items d)..].
    destruct (dumps_items d) as [items|]; [|done]. cbn. f_equal.
    apply insert_by_key_comm. simpl. apply NoDup_cons in Hnd as [Hnd _]. set_solver.
  - rewrite IH12 by done. apply IH23. by rewrite <- H12.
Qed.

Lemma hex_digit_inj a b : (a < 16)%N → (b < 16)%N → hex_digit a = hex_digit b → a = b.
Proof.
  unfold hex_digit. intros Ha Hb.
  destruct (N.ltb_spec a 10), (N.ltb_spec b 10); lia.
Qed.

Lemma escape_char_inj c c' x y :
  escape_char c ++ x = escape_char c' ++ y → c = c' ∧ x = y.
Proof.
  unfold escape_char.
  destruct (N.eqb_spec c 34), (N.eqb_spec c' 34); [by intros [= ->]; subst| | |];
  destruct (N.eqb_spec c 92), (N.eqb_spec c' 92); try lia;
  destruct (N.eqb_spec c 10), (N.eqb_spec c' 10); try lia;
  destruct (N.eqb_spec c 13), (N.eqb_spec c' 13); try lia;
  destruct (N.eqb_spec c 9), (N.eqb_spec c' 9); try lia;
  destruct (N.eqb_spec c 8), (N.eqb_spec c' 8); try lia;
  destruct (N.eqb_spec c 12), (N.eqb_spec c' 12); try lia;
  destruct (N.ltb_spec c 32), (N.ltb_spec c' 32);
  intros Heq; injection Heq as Heq; subst; try done; try lia;
  try (by injection Heq as Heq; subst; try done; try lia).
  split; [|done]. rename Heq into H2.
  apply hex_digit_inj in H1, H2;
    try (apply N.mod_lt; lia); try (apply N.Div0.div_lt_upper_bound; lia).
  rewrite (N.div_mod' c 16), (N.div_mod' c' 16). lia.
Qed.

Lemma escape_char_length c : (1 ≤ length (escape_char c))%nat.
Proof.
  unfold escape_char. repeat (destruct (_ =? _)%N; [simpl; lia|]).
  destruct (_ <? _)%N; simpl; lia.
Qed.

Lemma encode_str_inj s t : encode_str s = encode_str t → s = t.
Proof.
  unfold encode_str. intros Heq. injection Heq as Heq.
  revert t Heq. induction s as [|c s IH]; intros [|c' t]; simpl.
  - done.
  - intros Heq%(f_equal length). rewrite !length_app in Heq. simpl in Heq.
    pose proof (escape_char_length c'). lia.
  - intros Heq%(f_equal length). rewrite !length_app in Heq. simpl in Heq.
    pose proof (escape_char_length c). lia.
  - rewrite <- !app_assoc. intros [-> Heq]%escape_char_inj. f_equal. by apply IH.
Qed.

Lemma pyval_nested_ind (P : pyval → Prop) :
  P PNone → (∀ b, P (PBool b)) → (∀ z, P (PInt z)) → (∀ t, P (PFloat t)) →
  (∀ s, P (PStr s)) →
  (∀ l, Forall P l → P (PList l)) →
  (∀ d, Forall (λ kv, P kv.2) d → P (PDict d)) →
  (∀ tag, P (PObject tag)) →
  ∀ v, P v.
Proof.
  intros HN HB HI HF HS HL HD HO. fix IH 1.
  intros [|b|z|t|s|l|d|tag];
    [exact HN|apply HB|apply HI|apply HF|apply HS| | |apply HO].
  - apply HL. induction l as [|x l IHl]; constructor; [apply IH|exact IHl].
  - apply HD. induction d as [|[k x] d IHd]; constructor; [apply IH|exact IHd].
Qed.

Lemma json_dumps_json_value v : is_Some (json_dumps v) ↔ json_value v = true.
Proof.
  induction v as [|[]| | | |l IH|d IH|] using pyval_nested_ind; try (split; by eauto).
  - rewrite json_dumps_list. cbn [json_value].
    assert (is_Some (dumps_all l) ↔ forallb json_value l = true) as Hall.
    { unfold dumps_all. induction IH as [|x l Hx _ IHl]; [split; by eauto|]. cbn.
      rewrite andb_true_iff, <- Hx, <- IHl.
      destruct (json_dumps x); cbn; [|split; [by intros [? ?]|by intros [[? ?] _]]].
      destruct (mapM json_dumps l); cbn; split; try (by intros [? ?]); eauto;
        try (by intros [_ [? ?]]). }
    rewrite <- Hall. destruct (dumps_all l); cbn; split; try (by intros [? ?]); eauto.
  - rewrite json_dumps_dict. cbn [json_value].
    assert (is_Some (dumps_items d) ↔ forallb (λ kv, json_value kv.2) d = true) as Hall.
    { induction IH as [|[k x] d Hx _ IHd]; [split; by eauto|]. rewrite dumps_items_cons. cbn.
      simpl in Hx. rewrite andb_true_iff, <- Hx, <- IHd.
      destruct (json_dumps x); cbn; [|split; [by intros [? ?]|by intros [[? ?] _]]].
      destruct (dumps_items d); cbn; split; try (by intros [? ?]); eauto;
        try (by intros [_ [? ?]]). }
    rewrite <- Hall. destruct (dumps_items d); cbn; split; try (by intros [? ?]); eauto.
  - split; [by intros [? ?]|done].
Qed.

(** ** unique_list_merge *)

Section union_merge.
Context `{Builtins}.

Lemma keys_of_some_key l : keys_of some_key l = list_to_set (item_key <$> l).
Proof.
  unfold keys_of.
  assert (omap some_key l = item_key <$> l) as ->; [|done].
  induction l as [|x l IH]; [done|]. cbn. by f_equal.
Qed.

Lemma unique_list_merge_fresh a b :
  unique_list_merge a b = fresh some_key ∅ (entries a ++ entries b).
Proof.
  unfold unique_list_merge.
  assert (Harr : ∀ acc v, merge_arr acc v = fold_left (keep_step some_key) (entries v) acc).
  { intros acc v. by destruct v. }
  rewrite !Harr, !fold_keep_step, fresh_app. done.
Qed.

Lemma new_entries_cons earlier x l :
  new_entries earlier (x :: l) =
  (if decide (item_key x ∈ item_key <$> earlier) then [] else [x]) ++
  new_entries (earlier ++ [x]) l.
Proof.
  unfold new_entries. simpl. rewrite filter_cons. simpl. rewrite app_nil_r.
  assert (Htail :
    (filter (λ jx, item_key jx.2 ∉ item_key <$> (earlier ++ take jx.1 (x :: l)))
       (imap (λ j y, (S j, y)) l)).*2 =
    (filter (λ jx, item_key jx.2 ∉ item_key <$> ((earlier ++ [x]) ++ take jx.1 l))
       (imap (λ j y, (id j, y)) l)).*2).
  { apply (filter_imap_reindex _ _ S id). intros j y. simpl. by rewrite <- app_assoc. }
  destruct (decide (item_key x ∉ item_key <$> earlier)) as [Hn|Hn].
  - rewrite decide_False by done. simpl. f_equal. apply Htail.
  - rewrite decide_True by (by apply dec_stable). simpl. apply Htail.
Qed.

Lemma fresh_new_entries earlier l :
  fresh some_key (list_to_set (item_key <$> earlier)) l = new_entries earlier l.
Proof.
  revert earlier. induction l as [|x l IH]; intros earlier; [done|].
  rewrite new_entries_cons. simpl.
  destruct (decide (item_key x ∈ item_key <$> earlier)) as [Hin|Hin].
  - rewrite decide_True by set_solver. rewrite <- IH. simpl. f_equal.
    rewrite fmap_app. simpl. set_solver.
  - rewrite decide_False by set_solver. rewrite <- IH. simpl. do 2 f_equal.
    rewrite fmap_app. simpl. set_solver.
Qed.

(** The union as the specification words it. *)
Lemma unique_list_merge_spec a b :
  unique_list_merge a b = new_entries [] (entries a) ++ new_entries (entries a) (entries b).
Proof.
  rewrite unique_list_merge_fresh, fresh_app, <- !fresh_new_entries.
  f_equal. f_equal. rewrite keys_of_some_key. set_solver.
Qed.

Lemma unique_list_merge_again a b :
  unique_list_merge (PList (unique_list_merge a b)) b = unique_list_merge a b.
Proof.
  rewrite (unique_list_merge_fresh (PList _)). simpl.
  rewrite unique_list_merge_fresh.
  set (A := entries a). set (B := entries b).
  rewrite fresh_app, fresh_fresh, (fresh_known some_key _ B), app_nil_r; [done|].
  rewrite keys_of_fresh. unfold keys_of. rewrite omap_app. set_solver.
Qed.

Lemma unique_list_merge_covers a b x :
  x ∈ entries a ++ entries b →
  ∃ y, y ∈ unique_list_merge a b ∧ item_key y = item_key x.
Proof.
  intros Hin. rewrite unique_list_merge_fresh.
  destruct (fresh_covers some_key ∅ _ x (item_key x) Hin eq_refl) as [?|(y & ? & Hy)];
    [set_solver|].
  exists y. split; [done|]. by injection Hy.
Qed.

Lemma unique_list_merge_NoDup a b : NoDup (item_key <$> unique_list_merge a b).
Proof.
  rewrite unique_list_merge_fresh.
  pose proof (fresh_NoDup some_key ∅ (entries a ++ entries b)) as Hnd.
  revert Hnd. generalize (fresh some_key ∅ (entries a ++ entries b)). intros l.
  assert (omap some_key l = item_key <$> l) as ->; [|done].
  induction l as [|x l IH]; [done|]. cbn. by f_equal.
Qed.

Lemma new_entries_all l : NoDup (item_key <$> l) → new_entries [] l = l.
Proof.
  intros Hnd. rewrite <- (fresh_new_entries [] l). simpl.
  apply fresh_all.
  - clear -Hnd. induction l as [|x l IH]; simpl; [constructor|].
    simpl in Hnd. apply NoDup_cons in Hnd as [Hx Hnd]. constructor; [|by apply IH].
    intros (y & Hy & [= Heq])%list_elem_of_omap. apply Hx. rewrite <- Heq.
    by apply list_elem_of_fmap_2.
  - intros x _. exists (item_key x). split; [done|set_solver].
Qed.

End union_merge.

Lemma fresh_again {A K} `{Countable K} (key : A → option K) (l1 l2 : list A) :
  fresh key ∅ (fresh key ∅ (l1 ++ l2) ++ l2) = fresh key ∅ (l1 ++ l2).
Proof.
  rewrite (fresh_app key ∅ (fresh _ _ _)), fresh_fresh.
  rewrite (fresh_known key _ l2), app_nil_r; [done|].
  rewrite keys_of_fresh. unfold keys_of. rewrite omap_app. set_solver.
Qed.

(** ** merge_resolution_index_items *)

Lemma iter_or_empty_list l : iter_or_empty (PList l) = Ok l.
Proof. destruct l; reflexivity. Qed.

Lemma merge_resolution_index_items_lists ex inc :
  merge_resolution_index_items (PList ex) (PList inc) = Ok (fresh entry_id ∅ (ex ++ inc)).
Proof.
  unfold merge_resolution_index_items. rewrite !iter_or_empty_list. cbn.
  change merge_entry with (keep_step entry_id).
  rewrite !fold_keep_step, fresh_app. done.
Qed.

(** ** The index merge *)

Lemma dict_get_cons_eq (d : pydict) k v : dict_get ((k, v) :: d) k = Some v.
Proof. simpl. by rewrite decide_True. Qed.

Lemma dict_get_cons_ne (d : pydict) k k' v :
  k ≠ k' → dict_get ((k, v) :: d) k' = dict_get d k'.
Proof. intros. simpl. by rewrite decide_False. Qed.

Lemma dict_get_default_twice (d : pydict) k x :
  dict_get_default d k (dict_get_default d k x) = dict_get_default d k x.
Proof. unfold dict_get_default. by destruct (dict_get d k). Qed.

(** A conjunction of equations between closed terms, each by evaluation. *)
Ltac by_evaluation :=
  intros; repeat match goal with |- _ ∧ _ => split end; vm_compute; reflexivity.

Ltac lit_neq := let Hc := fresh in intros Hc; vm_compute in Hc; discriminate Hc.
Ltac dget :=
  repeat (rewrite dict_get_set_eq || rewrite dict_get_cons_eq ||
          rewrite dict_get_set_ne by lit_neq || rewrite dict_get_cons_ne by lit_neq).

Section index_merge.
Context `{Builtins}.

Lemma merged_fields_latest S D k :
  k ∈ latest_keys →
  dict_get (merged_fields S D) k = Some (dict_get_default D k (dict_get_none S k)).
Proof.
  unfold latest_keys. rewrite !elem_of_cons, elem_of_nil.
  unfold merged_fields, latest_wins, union_wins, dict_get_none, dict_get_default.
  intros [->|[->|[->|[]]]]; dget; done.
Qed.

Lemma merged_fields_union S D k :
  k ∈ union_keys →
  dict_get (merged_fields S D) k =
  Some (PList (unique_list_merge (dict_get_default S k (PList []))
                                 (dict_get_default D k (PList [])))).
Proof.
  unfold union_keys. rewrite !elem_of_cons, elem_of_nil.
  unfold merged_fields, latest_wins, union_wins, dict_get_none, dict_get_default.
  intros [->|[->|[->|[]]]]; dget; done.
Qed.

Lemma merged_fields_environment S D :
  dict_get (merged_fields S D) (lit "environment") =
  Some (PDict (merge_environment (dict_or_empty (dict_get_none S (lit "environment")))
                                 (dict_or_empty (dict_get_none D (lit "environment"))))).
Proof.
  unfold merged_fields, latest_wins, union_wins, dict_get_none, dict_get_default.
  dget. done.
Qed.

Lemma merged_fields_other S D k :
  k ∉ latest_keys ++ union_keys ++ [lit "environment"] →
  dict_get (merged_fields S D) k = dict_get S k.
Proof.
  unfold latest_keys, union_keys. simpl. rewrite !not_elem_of_cons.
  intros (? & ? & ? & ? & ? & ? & ? & _).
  unfold merged_fields, latest_wins, union_wins.
  by rewrite !dict_get_set_ne.
Qed.

Lemma merge_index_fields S D :
  merge_index S D =
  (old_items ← get_resolutions (merged_fields S D);
   new_items ← get_resolutions D;
   items ← merge_resolution_index_items old_items new_items;
   set_resolutions (merged_fields S D) (PList items)).
Proof. reflexivity. Qed.

Lemma merge_environment_again eo en :
  merge_environment (merge_environment eo en) en = merge_environment eo en.
Proof.
  assert (Hos : dict_get_none (merge_environment eo en) (lit "os") =
                dict_get_default en (lit "os") (dict_get_none eo (lit "os"))).
  { unfold merge_environment, dict_get_none at 1, dict_get_default at 1. by dget. }
  assert (Hrt : dict_get_none (merge_environment eo en) (lit "runtime") =
                dict_get_default en (lit "runtime") (dict_get_none eo (lit "runtime"))).
  { unfold merge_environment, dict_get_none at 1, dict_get_default at 1. by dget. }
  assert (Htl : dict_get_default (merge_environment eo en) (lit "tools") (PList []) =
                PList (unique_list_merge (dict_get_default eo (lit "tools") (PList []))
                                         (dict_get_default en (lit "tools") (PList [])))).
  { unfold merge_environment, dict_get_default at 1. by dget. }
  assert (Hpt : dict_get_default (merge_environment eo en) (lit "paths") (PList []) =
                PList (unique_list_merge (dict_get_default eo (lit "paths") (PList []))
                                         (dict_get_default en (lit "paths") (PList [])))).
  { unfold merge_environment, dict_get_default at 1. by dget. }
  unfold merge_environment at 1 3.
  rewrite Hos, Hrt, Htl, Hpt, !dict_get_default_twice, !unique_list_merge_again.
  done.
Qed.

Lemma merged_fields_fixed X D :
  (∀ k, k ∈ latest_keys →
     ∃ v, dict_get X k = Some v ∧ dict_get_default D k v = v) →
  (∀ k, k ∈ union_keys →
     ∃ m, dict_get X k = Some (PList m) ∧
          unique_list_merge (PList m) (dict_get_default D k (PList [])) = m) →
  (∃ e, dict_get X (lit "environment") = Some (PDict e) ∧
        merge_environment e (dict_or_empty (dict_get_none D (lit "environment"))) = e) →
  merged_fields X D = X.
Proof.
  intros Hl Hu (e & He & Hee).
  assert (Hlw : ∀ k, k ∈ latest_keys → latest_wins D k X = X).
  { intros k [v [Hv Hd]]%Hl. unfold latest_wins, dict_get_none, dict_get_default at 2.
    rewrite Hv. simpl. rewrite Hd. by apply dict_set_same. }
  assert (Huw : ∀ k, k ∈ union_keys → union_wins D k X = X).
  { intros k [m [Hm Hd]]%Hu. unfold union_wins, dict_get_default at 1.
    rewrite Hm. simpl. rewrite Hd. by apply dict_set_same. }
  unfold merged_fields.
  rewrite !Hlw by (unfold latest_keys; set_solver).
  rewrite !Huw by (unfold union_keys; set_solver).
  unfold dict_get_none at 1, dict_get_default at 1. rewrite He. simpl.
  rewrite Hee. by apply dict_set_same.
Qed.

Lemma merge_index_result S D di itemsS diD itemsD :
  dict_get S (lit "detail_index") = Some (PDict di) →
  dict_get di (lit "resolutions") = Some (PList itemsS) →
  dict_get D (lit "detail_index") = Some (PDict diD) →
  dict_get diD (lit "resolutions") = Some (PList itemsD) →
  merge_index S D =
  Ok (dict_set (merged_fields S D) (lit "detail_index")
        (PDict (dict_set di (lit "resolutions")
                  (PList (fresh entry_id ∅ (itemsS ++ itemsD)))))).
Proof.
  intros HS Hdi HD HdiD. rewrite merge_index_fields.
  unfold get_resolutions, set_resolutions, dict_get_default.
  rewrite merged_fields_other by (vm_compute; set_solver).
  rewrite HS, HD. simpl. unfold dict_get_default. rewrite Hdi, HdiD. simpl.
  rewrite merge_resolution_index_items_lists. simpl.
  done.
Qed.

Lemma merge_index_twice S D :
  index_shape S → index_shape D →
  ∃ M, merge_index S D = Ok M ∧ merge_index M D = Ok M.
Proof.
  intros (di & itemsS & HS & Hdi) (diD & itemsD & HD & HdiD).
  eexists. split; [by eapply merge_index_result|].
  set (r := fresh entry_id ∅ (itemsS ++ itemsD)).
  set (M := dict_set _ _ _).
  assert (HM : ∀ k, k ≠ lit "detail_index" → dict_get M k = dict_get (merged_fields S D) k).
  { intros k Hk. unfold M. by rewrite dict_get_set_ne. }
  rewrite (merge_index_result M D (dict_set di (lit "resolutions") (PList r)) r diD itemsD);
    [|unfold M; by rewrite dict_get_set_eq|by rewrite dict_get_set_eq|done|done].
  f_equal. rewrite merged_fields_fixed.
  - unfold r. rewrite fresh_again, dict_set_set. apply dict_set_same.
    unfold M. by rewrite dict_get_set_eq.
  - intros k Hk. eexists. split.
    + rewrite HM, merged_fields_latest by (try done; revert Hk; unfold latest_keys;
        rewrite !elem_of_cons, elem_of_nil; intros [->|[->|[->|[]]]]; lit_neq). done.
    + apply dict_get_default_twice.
  - intros k Hk. eexists. split.
    + rewrite HM, merged_fields_union by (try done; revert Hk; unfold union_keys;
        rewrite !elem_of_cons, elem_of_nil; intros [->|[->|[->|[]]]]; lit_neq). done.
    + apply unique_list_merge_again.
  - eexists. split.
    + rewrite HM, merged_fields_environment by lit_neq. done.
    + unfold dict_get_none, dict_get_default. apply merge_environment_again.
Qed.

Lemma dict_set_is_Some (d : pydict) k k' v :
  is_Some (dict_get d k) → is_Some (dict_get (dict_set d k' v) k).
Proof. intros Hs. rewrite dict_get_set. by destruct (decide (k' = k)). Qed.

Lemma merged_fields_is_Some S D k :
  is_Some (dict_get S k) → is_Some (dict_get (merged_fields S D) k).
Proof.
  intros Hs. unfold merged_fields, latest_wins, union_wins.
  by repeat apply dict_set_is_Some.
Qed.

Lemma apply_defaults_present (dflts : pydict) (d : pydict) :
  (∀ k, k ∈ dflts.*1 → is_Some (dict_get d k)) → apply_defaults d dflts = d.
Proof.
  induction dflts as [|[k v] dflts IH]; intros Hall; [done|].
  unfold apply_defaults in *. simpl. unfold dict_setdefault.
  destruct (Hall k) as [x ->]; [set_solver|]. apply IH. intros k' Hk'. apply Hall. set_solver.
Qed.

Lemma normalize_index_fixed (d : pydict) :
  (∀ k, k ∈ index_defaults.*1 → is_Some (dict_get d k)) →
  index_shape d →
  normalize_index (PDict d) = d.
Proof.
  intros Hall (di & items & Hd & Hdi). unfold normalize_index.
  rewrite apply_defaults_present by done.
  unfold dict_get_none, dict_get_default. rewrite Hd. simpl. rewrite Hd.
  unfold dict_setdefault. rewrite Hdi. simpl. rewrite Hdi. simpl.
  by apply dict_set_same.
Qed.

Lemma normalize_index_truthy obj : truthy (PDict (normalize_index obj)) = true.
Proof.
  assert (Hne : ∀ (d : pydict) k v, dict_set d k v ≠ []).
  { intros [|[]] ??; simpl; [done|by case_decide]. }
  unfold truthy. rewrite bool_decide_eq_false_2; [done|].
  unfold normalize_index. apply Hne.
Qed.

Lemma merge_index_normal S0 D M :
  merge_index (normalize_index S0) D = Ok M →
  index_shape D →
  normalize_index (PDict M) = M.
Proof.
  intros HM (diD & itemsD & HD & HdiD).
  destruct (normalize_index_shape S0) as (di & itemsS & HS & Hdi).
  rewrite (merge_index_result _ _ _ _ _ _ HS Hdi HD HdiD) in HM.
  injection HM as <-. apply normalize_index_fixed.
  - intros k Hk. apply dict_set_is_Some, merged_fields_is_Some.
    by apply normalize_index_present.
  - exists (dict_set di (lit "resolutions") (PList (fresh entry_id ∅ (itemsS ++ itemsD)))).
    eexists. by rewrite !dict_get_set_eq.
Qed.

End index_merge.

(** ** The merge policies *)

Section merge_policies.
Context `{Builtins}.

Lemma final_index_persisted S0 D :
  final_index (read_existing_index (Holds S0)) D = merge_index (normalize_index S0) D.
Proof.
  change (final_index (read_existing_index (Holds S0)) D)
    with (if truthy (PDict (normalize_index S0))
          then merge_index (normalize_index S0) D else Ok D).
  by rewrite normalize_index_truthy.
Qed.

(** The fields of the merged index, when a previous index exists. *)
Lemma final_index_fields (S0 : pyval) (D : pydict) :
  index_shape D →
  let S := normalize_index S0 in
  ∃ M,
    final_index (read_existing_index (Holds S0)) D = Ok M ∧
    (∀ k, k ∈ latest_keys →
       dict_get M k = Some (dict_get_default D k (dict_get_none S k))) ∧
    (∀ k, k ∈ union_keys →
       dict_get M k =
       Some (PList (unique_list_merge (dict_get_default S k (PList []))
                                      (dict_get_default D k (PList []))))) ∧
    dict_get M (lit "environment") =
    Some (PDict (merge_environment (dict_or_empty (dict_get_none S (lit "environment")))
                                   (dict_or_empty (dict_get_none D (lit "environment"))))).
Proof.
  intros (diD & itemsD & HD & HdiD) S.
  destruct (normalize_index_shape S0) as (di & itemsS & HS & Hdi).
  rewrite final_index_persisted. fold S.
  rewrite (merge_index_result _ _ _ _ _ _ HS Hdi HD HdiD).
  eexists. split; [done|]. split; [|split].
  - intros k Hk. rewrite dict_get_set_ne, merged_fields_latest; [done..|].
    revert Hk. unfold latest_keys. rewrite !elem_of_cons, elem_of_nil.
    intros [->|[->|[->|[]]]]; lit_neq.
  - intros k Hk. rewrite dict_get_set_ne, merged_fields_union; [done..|].
    revert Hk. unfold union_keys. rewrite !elem_of_cons, elem_of_nil.
    intros [->|[->|[->|[]]]]; lit_neq.
  - rewrite dict_get_set_ne by lit_neq. apply merged_fields_environment.
Qed.

(** C1: merging an incoming index [D] into the persisted index, writing the
    result and merging the same [D] into what the next run reads back gives
    the same index again.  The merge is the whole of step 4: latest-wins
    fields, union-merge fields, [environment], and the id-keyed merge of
    [detail_index.resolutions]. *)
Theorem merge_idempotent (S0 : pyval) (D : pydict) :
  index_shape D →
  ∃ M,
    final_index (read_existing_index (Holds S0)) D = Ok M ∧
    final_index (read_existing_index (Holds (PDict M))) D = Ok M.
Proof.
  intros HD. rewrite final_index_persisted.
  destruct (merge_index_twice (normalize_index S0) D) as (M & HM & HMM);
    [apply normalize_index_shape|done|].
  exists M. split; [done|].
  rewrite final_index_persisted, (merge_index_normal S0 D M); done.
Qed.

Lemma new_by_text_cons earlier x l :
  new_by_text earlier (x :: l) =
  (if decide (json_dumps x ∈ json_dumps <$> earlier) then [] else [x]) ++
  new_by_text (earlier ++ [x]) l.
Proof.
  unfold new_by_text. simpl. rewrite filter_cons. simpl. rewrite app_nil_r.
  assert (Htail :
    (filter (λ jx, json_dumps jx.2 ∉ json_dumps <$> (earlier ++ take jx.1 (x :: l)))
       (imap (λ j y, (S j, y)) l)).*2 =
    (filter (λ jx, json_dumps jx.2 ∉ json_dumps <$> ((earlier ++ [x]) ++ take jx.1 l))
       (imap (λ j y, (id j, y)) l)).*2).
  { apply (filter_imap_reindex _ _ S id). intros j y. simpl. by rewrite <- app_assoc. }
  destruct (decide (json_dumps x ∉ json_dumps <$> earlier)) as [Hn|Hn].
  - rewrite decide_False by done. simpl. f_equal. apply Htail.
  - rewrite decide_True by (by apply dec_stable). simpl. apply Htail.
Qed.

Section union_by_text.
Context `{Builtins}.

Lemma item_key_json x : json_value x = true → json_dumps x = Some (item_key x).
Proof. intros [k Hk]%json_dumps_json_value. unfold item_key. by rewrite Hk. Qed.

Lemma json_texts l :
  Forall (λ x, json_value x = true) l → json_dumps <$> l = Some <$> (item_key <$> l).
Proof.
  induction 1 as [|x l Hx _ IH]; [done|]. cbn. by rewrite IH, (item_key_json x Hx).
Qed.

Lemma new_by_text_entries earlier l :
  Forall (λ x, json_value x = true) (earlier ++ l) →
  new_by_text earlier l = new_entries earlier l.
Proof.
  revert earlier. induction l as [|x l IH]; intros earlier Hall; [done|].
  rewrite new_by_text_cons, new_entries_cons.
  rewrite IH by (by rewrite <- app_assoc). f_equal.
  apply Forall_app in Hall as [He Hx]. apply Forall_cons in Hx as [Hx _].
  rewrite (json_texts earlier He), (item_key_json x Hx).
  destruct (decide (item_key x ∈ item_key <$> earlier)) as [Hin|Hin].
  - rewrite decide_True; [done|]. apply list_elem_of_fmap. by exists (item_key x).
  - rewrite decide_False; [done|]. intros (k & [= <-] & Hk)%list_elem_of_fmap. done.
Qed.

Lemma unique_list_merge_entries a b y :
  y ∈ unique_list_merge a b → y ∈ entries a ++ entries b.
Proof. rewrite unique_list_merge_fresh. by intros [? _]%elem_of_fresh. Qed.

Lemma union_by_text_merge prev inc :
  json_entries prev → json_entries inc →
  union_by_text prev inc (Some (PList (unique_list_merge prev inc))).
Proof.
  intros Hp Hi.
  assert (Hall : Forall (λ x, json_value x = true) (entries prev ++ entries inc))
    by by apply Forall_app.
  assert (Hm : Forall (λ x, json_value x = true) (unique_list_merge prev inc)).
  { apply Forall_forall. intros y Hy%unique_list_merge_entries.
    by apply (proj1 (Forall_forall _ _) Hall). }
  eexists. split; [done|]. split.
  { rewrite unique_list_merge_spec, !new_by_text_entries; by rewrite ?app_nil_l. }
  split.
  { rewrite (json_texts _ Hm). apply NoDup_fmap_2; [apply _|]. apply unique_list_merge_NoDup. }
  split; [apply unique_list_merge_entries|]. split.
  - intros x Hx. destruct (unique_list_merge_covers prev inc x Hx) as (y & Hy & Hk).
    exists y. split; [done|].
    rewrite !item_key_json, Hk; [done| |].
    + by apply (proj1 (Forall_forall _ _) Hall).
    + by apply (proj1 (Forall_forall _ _) Hm).
  - intros Hnd. rewrite unique_list_merge_spec, new_entries_all.
    + by rewrite new_by_text_entries.
    + rewrite (json_texts _ Hp) in Hnd. by apply NoDup_fmap_1 in Hnd.
Qed.

End union_by_text.

Lemma union_of_merge prev inc :
  union_of prev inc (Some (PList (unique_list_merge prev inc))).
Proof.
  eexists. split; [done|]. split; [apply unique_list_merge_spec|].
  split; [apply unique_list_merge_NoDup|]. split.
  - intros x Hx. apply unique_list_merge_covers. set_solver.
  - intros Hnd. by rewrite unique_list_merge_spec, new_entries_all.
Qed.

(** C8: with a previous index, each of [goals], [constraints],
    [verified_facts], [environment.tools] and [environment.paths] of the
    merged index is the list of the previous entries in first-seen order
    followed by exactly the incoming entries whose canonical form is that of
    no earlier entry; so every previous entry is still there, up to its
    canonical form.  For entries that are JSON values, as [json.loads]
    builds them, the canonical form is the text [json.dumps] writes with
    sorted keys: the merged list is made of the entries whose text is that
    of no earlier entry, every entry of either list has its text in it, and
    no text is in it twice.  Two strings have the same text only when they
    are equal, so strings that differ are all kept. *)
Theorem union_merge_keeps_previous (S0 : pyval) (D : pydict) :
  index_shape D →
  let S := normalize_index S0 in
  let env_old := dict_or_empty (dict_get_none S (lit "environment")) in
  let env_new := dict_or_empty (dict_get_none D (lit "environment")) in
  ∃ M env,
    final_index (read_existing_index (Holds S0)) D = Ok M ∧
    dict_get M (lit "environment") = Some (PDict env) ∧
    (∀ k, k ∈ union_keys →
       let prev := dict_get_default S k (PList []) in
       let inc := dict_get_default D k (PList []) in
       union_of prev inc (dict_get M k) ∧
       (json_entries prev → json_entries inc → union_by_text prev inc (dict_get M k))) ∧
    (∀ k, k ∈ environment_union_keys →
       let prev := dict_get_default env_old k (PList []) in
       let inc := dict_get_default env_new k (PList []) in
       union_of prev inc (dict_get env k) ∧
       (json_entries prev → json_entries inc → union_by_text prev inc (dict_get env k))) ∧
    (∀ x, json_value x = true → json_dumps x = Some (item_key x)) ∧
    (∀ s t, json_dumps (PStr s) = json_dumps (PStr t) → s = t).
Proof.
  intros HD S env_old env_new.
  destruct (final_index_fields S0 D HD) as (M & HM & _ & Hu & He).
  exists M, (merge_environment env_old env_new). split; [done|]. split; [done|].
  split; [|split; [|split]].
  - intros k Hk. cbv zeta. rewrite (Hu k Hk).
    split; [apply union_of_merge|apply union_by_text_merge].
  - intros k. unfold environment_union_keys. rewrite !elem_of_cons, elem_of_nil.
    intros [->|[->|[]]]; cbv zeta; unfold merge_environment; dget;
      (split; [apply union_of_merge|apply union_by_text_merge]).
  - apply item_key_json.
  - intros s t Heq. apply encode_str_inj.
    assert (Some (encode_str s) = Some (encode_str t)) as Hs by exact Heq. congruence.
Qed.

(** C10: [unique_list_merge] accepts any two values: an argument that is
    not a list contributes nothing, an item [json.dumps] rejects is
    deduplicated by its [str()], and the index merge does not fail on a
    union-merge field of the wrong type but drops its value. *)
Theorem unique_list_merge_tolerant :
  (∀ a b, is_list a = false → unique_list_merge a b = new_entries [] (entries b)) ∧
  (∀ a b, is_list b = false → unique_list_merge a b = new_entries [] (entries a)) ∧
  (∀ a b, is_list a = false → is_list b = false → unique_list_merge a b = []) ∧
  (∀ item, json_dumps item = None → item_key item = py_str item) ∧
  (∀ x y, json_dumps x = None → json_dumps y = None →
     unique_list_merge (PList [x]) (PList [y]) =
     if decide (py_str x = py_str y) then [x] else [x; y]) ∧
  (∀ S0 D, index_shape D →
     ∃ M, final_index (read_existing_index (Holds S0)) D = Ok M ∧
       (∀ k v, k ∈ union_keys →
          dict_get (normalize_index S0) k = Some v → is_list v = false →
          dict_get M k =
          Some (PList (new_entries [] (entries (dict_get_default D k (PList [])))))) ∧
       (∀ k v, k ∈ union_keys →
          dict_get D k = Some v → is_list v = false →
          dict_get M k =
          Some (PList (new_entries []
                  (entries (dict_get_default (normalize_index S0) k (PList []))))))).
Proof.
  assert (Hnl : ∀ v, is_list v = false → entries v = []) by (by intros []).
  split; [|split; [|split; [|split; [|split]]]].
  - intros a b Ha. by rewrite unique_list_merge_spec, (Hnl a Ha).
  - intros a b Hb. by rewrite unique_list_merge_spec, (Hnl b Hb), app_nil_r.
  - intros a b Ha Hb. by rewrite unique_list_merge_spec, (Hnl a Ha), (Hnl b Hb).
  - intros item Hd. unfold item_key. by rewrite Hd.
  - intros x y Hx Hy. unfold unique_list_merge, merge_arr. simpl.
    unfold merge_item at 2. simpl. rewrite decide_False by set_solver. simpl.
    unfold merge_item, item_key. rewrite Hx, Hy. simpl.
    destruct (decide (py_str x = py_str y)) as [Heq|Hne].
    + rewrite decide_True by set_solver. done.
    + rewrite decide_False by set_solver. done.
  - intros S0 D HD.
    destruct (final_index_fields S0 D HD) as (M & HM & _ & Hu & _).
    exists M. split; [done|]. split; intros k v Hk Hv Hnot; rewrite (Hu k Hk).
    + unfold dict_get_default at 1. rewrite Hv. simpl.
      by rewrite unique_list_merge_spec, (Hnl v Hnot).
    + unfold dict_get_default at 2. rewrite Hv. simpl.
      by rewrite unique_list_merge_spec, (Hnl v Hnot), app_nil_r.
Qed.

End merge_policies.

(** ** Resolution ids *)

Lemma uint_of_digits_of_uint d : uint_of_digits (digits_of_uint d) = d.
Proof. induction d; simpl; by f_equal. Qed.

Lemma uint_of_digits_zeros k s :
  N.of_uint (uint_of_digits (replicate k (digit_char 0) ++ s)) = N.of_uint (uint_of_digits s).
Proof. induction k as [|k IH]; [done|]. simpl. exact IH. Qed.

Lemma format_03d_inj n m : format_03d n = format_03d m → n = m.
Proof.
  intros Heq.
  apply (f_equal (fun s => N.of_uint (uint_of_digits s))) in Heq.
  unfold format_03d, decimal in Heq.
  rewrite !uint_of_digits_zeros, !uint_of_digits_of_uint, !DecimalN.Unsigned.of_to in Heq.
  done.
Qed.

Lemma res_id_inj n m : res_id n = res_id m → n = m.
Proof. unfold res_id. intros Heq%app_inv_head. by apply format_03d_inj. Qed.

Lemma res_id_prefix n : starts_with (lit "res-") (res_id n) = true.
Proof. reflexivity. Qed.

(** ** The resolution directory *)

Lemma res_file_name_inj r1 r2 : res_file_name r1 = res_file_name r2 → r1 = r2.
Proof. unfold res_file_name. by intros ?%app_inv_tail. Qed.

Lemma strip_prefix_app p t r : strip_prefix p t = Some r ↔ t = p ++ r.
Proof.
  revert t. induction p as [|a p IH]; intros t; simpl.
  - split; [by intros [= ->]|by intros ->].
  - destruct t as [|b t]; [split; done|].
    destruct (decide (a = b)) as [->|Hne].
    + rewrite IH. split; [by intros ->|by intros [= ->]].
    + split; [done|]. intros [= ? ?]. done.
Qed.

Lemma starts_with_app p t : starts_with p t = true ↔ ∃ r, t = p ++ r.
Proof.
  unfold starts_with. rewrite bool_decide_eq_true. unfold is_Some.
  by setoid_rewrite strip_prefix_app.
Qed.

Lemma ends_with_app p t : ends_with p t = true ↔ ∃ r, t = r ++ p.
Proof.
  unfold ends_with. rewrite starts_with_app. split.
  - intros [r Hr]. exists (rev r). apply (f_equal (@rev _)) in Hr.
    by rewrite rev_involutive, rev_app_distr, rev_involutive in Hr.
  - intros [r ->]. exists (rev r). by rewrite rev_app_distr.
Qed.

Lemma elem_of_existing_ids (fs : gmap (pystr) content) rid :
  rid ∈ existing_ids fs ↔
  starts_with (lit "res-") (res_file_name rid) = true ∧ res_file_name rid ∈ dom fs.
Proof.
  unfold existing_ids. rewrite elem_of_list_to_set, list_elem_of_fmap. split.
  - intros (name & -> & [Hname Hin]%list_elem_of_filter).
    apply andb_true_iff in Hname as [Hs [r ->]%ends_with_app].
    rewrite length_app. change (length (lit ".json")) with 5%nat.
    rewrite Nat.add_sub, take_app_length. apply elem_of_elements in Hin. done.
  - intros [Hs Hin]. exists (res_file_name rid). split.
    + unfold res_file_name. rewrite length_app. change (length (lit ".json")) with 5%nat.
      by rewrite Nat.add_sub, take_app_length.
    + apply list_elem_of_filter. split; [|by apply elem_of_elements].
      apply andb_true_iff. split; [done|]. apply ends_with_app. by exists rid.
Qed.

Lemma starts_with_res_file_name rid :
  starts_with (lit "res-") rid = true → starts_with (lit "res-") (res_file_name rid) = true.
Proof.
  rewrite !starts_with_app. intros [r ->]. exists (r ++ lit ".json").
  unfold res_file_name. by rewrite <- app_assoc.
Qed.

(** ** allocate_next_res_id *)

Lemma next_free_id_spec fuel n ex rs rid :
  next_free_id fuel n ex rs = Some rid → least_free_from n ex rs rid.
Proof.
  revert n. induction fuel as [|fuel IH]; intros n; simpl; [done|].
  destruct (decide _) as [[? ?]|Hno].
  - intros [= <-]. exists n. split; [lia|]. do 3 (split; [done|]). intros j ?. lia.
  - intros (m & Hm & -> & ? & ? & Hmin)%IH.
    exists m. split; [lia|]. do 3 (split; [done|]).
    intros j Hj. destruct (decide (j = n)) as [->|].
    + apply not_and_l in Hno as [Hno|Hno]; [left|right]; by apply dec_stable.
    + apply Hmin. lia.
Qed.

Lemma next_free_id_ext fuel n ex rs T :
  (∀ m, (n ≤ m)%N → (res_id m ∈ ex ∨ res_id m ∈ rs) ↔ res_id m ∈ T) →
  next_free_id fuel n ex rs = next_free_id fuel n T ∅.
Proof.
  revert n. induction fuel as [|fuel IH]; intros n Hext; simpl; [done|].
  specialize (Hext n) as Hn.
  destruct (decide _) as [[? ?]|Hno], (decide _) as [[? ?]|Hno']; try done.
  - exfalso. apply Hno'. split; [|set_solver]. intros ?. assert (n ≤ n)%N by lia. naive_solver.
  - exfalso. apply Hno. assert (n ≤ n)%N by lia. split; intros ?; naive_solver.
  - apply IH. intros m ?. apply Hext. lia.
Qed.

Lemma next_free_id_total (fuel : nat) (n : N) (T : gset (pystr)) :
  (size T < fuel)%nat → is_Some (next_free_id fuel n T ∅).
Proof.
  revert n T. induction fuel as [|fuel IH]; intros n T Hsize; [lia|]. simpl.
  destruct (decide _) as [?|Hno]; [by eexists|].
  assert (HT : res_id n ∈ T).
  { apply dec_stable. intros ?. apply Hno. split; [done|set_solver]. }
  rewrite (next_free_id_ext fuel (n + 1) T ∅ (T ∖ {[res_id n]})).
  - apply IH. assert (size T = 1 + size (T ∖ {[res_id n]}))%nat as Hs.
    { rewrite <- (size_singleton (C := gset (pystr)) (res_id n)).
      rewrite <- size_union by set_solver.
      f_equal. apply set_eq. intros x. destruct (decide (x = res_id n)); set_solver. }
    lia.
  - intros m Hm. assert (res_id m ≠ res_id n) by (intros ?%res_id_inj; lia). set_solver.
Qed.

Lemma allocate_next_res_id_total fs rs :
  ∃ rid, allocate_next_res_id fs rs = Some (rid, {[rid]} ∪ rs) ∧
         least_free_from 1 (existing_ids fs) rs rid.
Proof.
  unfold allocate_next_res_id.
  destruct (next_free_id _ 1 (existing_ids fs) rs) as [rid|] eqn:Hn.
  - exists rid. split; [done|]. by eapply next_free_id_spec.
  - exfalso. rewrite (next_free_id_ext _ _ _ _ (existing_ids fs ∪ rs)) in Hn by set_solver.
    eapply is_Some_None. rewrite <- Hn. apply next_free_id_total.
    pose proof (size_union_alt (existing_ids fs) rs).
    pose proof (subseteq_size (rs ∖ existing_ids fs) rs). 
    assert (size (rs ∖ existing_ids fs) ≤ size rs) by (apply subseteq_size; set_solver).
    lia.
Qed.

(** ** The loop over the resolution lines *)

Lemma declared_id_Some obj r :
  declared_id obj = Some r ↔
  ∃ d, obj = PDict d ∧ dict_get d (lit "id") = Some (PStr r) ∧
       starts_with (lit "res-") r = true.
Proof.
  unfold declared_id. split.
  - destruct obj as [| | | | |?|d|?]; try done.
    destruct (dict_get d (lit "id")) as [[]|] eqn:Hid; try done.
    destruct (starts_with _ _) eqn:Hs; [|done]. intros [= ->]. by exists d.
  - intros (d & -> & -> & ->). done.
Qed.

Lemma with_id_same obj r : declared_id obj = Some r → with_id obj r = obj.
Proof.
  intros (d & -> & Hid & _)%declared_id_Some. unfold with_id. simpl.
  by rewrite dict_set_same.
Qed.

Lemma entry_id_with_id obj rid : entry_id (with_id obj rid) = Some rid.
Proof. unfold with_id, entry_id. by rewrite dict_get_set_eq. Qed.

Lemma dump_error_dict_cons k x d :
  dump_error (PDict ((k, x) :: d)) =
  if encodable k then
    match dump_error x with
    | Some e => Some e
    | None => dump_error (PDict d)
    end
  else Some UnicodeEncodeError.
Proof. reflexivity. Qed.

Lemma dump_error_list_cons x l :
  dump_error (PList (x :: l)) =
  match dump_error x with
  | Some e => Some e
  | None => dump_error (PList l)
  end.
Proof. reflexivity. Qed.

(** Setting a field to a string that can be encoded makes no record fail. *)
Lemma dump_error_dict_set d k s :
  dump_error (PDict d) = None → encodable k = true → encodable s = true →
  dump_error (PDict (dict_set d k (PStr s))) = None.
Proof.
  intros Hd Hk Hs. induction d as [|[k' x] d IH].
  - cbn [dict_set]. rewrite dump_error_dict_cons, Hk. cbn. by rewrite Hs.
  - rewrite dump_error_dict_cons in Hd. cbn [dict_set].
    destruct (encodable k') eqn:Hk'; [|done].
    destruct (decide (k' = k)) as [->|Hne]; rewrite dump_error_dict_cons, Hk'.
    + destruct (dump_error x); [done|]. cbn. by rewrite Hs.
    + destruct (dump_error x); [done|]. by apply IH.
Qed.

Lemma encodable_res_id n : encodable (res_id n) = true.
Proof.
  unfold res_id, format_03d, decimal, encodable. rewrite !forallb_app. cbn [lit].
  apply andb_true_iff. split; [reflexivity|]. apply andb_true_iff. split.
  - by induction (3 - _)%nat.
  - induction (N.to_uint n); simpl; by rewrite ?IHu.
Qed.

Section writer.
Context `{Builtins}.

Lemma write_file_written st rid obj st' :
  write_file st rid obj = (st', None) ↔
  opens (res_file_name rid) = true ∧ dump_error obj = None ∧
  st' = {| files := <[res_file_name rid := Document obj]> (files st);
           id_remap := id_remap st;
           written_ids := written_ids st ++ [rid];
           reserved_ids := reserved_ids st |}.
Proof.
  unfold write_file. destruct (opens _); [|by split; [|intros (? & _)]].
  destruct (dump_error obj); [by split; [|intros (_ & ? & _)]|].
  split; [by intros [= <-]|by intros (_ & _ & ->)].
Qed.

Lemma write_file_raised st rid obj st' e :
  write_file st rid obj = (st', Some e) ↔
  (opens (res_file_name rid) = false ∧ e = OpenError ∧ st' = st) ∨
  (opens (res_file_name rid) = true ∧ dump_error obj = Some e ∧
   st' = {| files := <[res_file_name rid := Partial]> (files st);
            id_remap := id_remap st;
            written_ids := written_ids st;
            reserved_ids := reserved_ids st |}).
Proof.
  unfold write_file. destruct (opens _).
  - destruct (dump_error obj) as [e'|].
    + split; [intros [= <- <-]; by right|]. by intros [(? & _)|(_ & [= <-] & ->)].
    + split; [done|]. by intros [(? & _)|(_ & ? & _)].
  - split; [intros [= <- <-]; by left|]. by intros [(_ & -> & ->)|(? & _)].
Qed.

(** The body of the loop on a record that passes the check of its id: the
    id it is stored under is free, and the rest is the write of the file. *)
Lemma write_record_declared st obj r :
  declared_id obj = Some r →
  write_record st obj
    = write_file (claimed_as st r (stored_id st r)) (stored_id st r) (with_id obj (stored_id st r)) ∧
  starts_with (lit "res-") (stored_id st r) = true ∧
  (res_file_name (stored_id st r) ∉ dom (files st)) ∧ (stored_id st r ∉ reserved_ids st) ∧
  (if decide (collides st r)
   then least_free_from 1 (existing_ids (files st)) (reserved_ids st) (stored_id st r) ∧
        stored_id st r ≠ r
   else stored_id st r = r).
Proof.
  intros Hd. pose proof (with_id_same _ _ Hd) as Hw.
  apply declared_id_Some in Hd as (d & -> & Hid & Hs).
  unfold stored_id, write_record. simpl. unfold dict_get_default. rewrite Hid. simpl. rewrite Hs.
  destruct (decide (collides st r)) as [Hc|Hc].
  - destruct (allocate_next_res_id_total (files st) (reserved_ids st)) as (new & Ha & Hl).
    assert (new ≠ r) as Hne.
    { destruct Hl as (m & _ & -> & Hex & Hrs & _). intros <-.
      destruct Hc as [Hc|Hc]; [|done]. apply Hex, elem_of_existing_ids.
      split; [|done]. by apply starts_with_res_file_name. }
    rewrite decide_True by done. rewrite Ha. unfold claimed_as. rewrite decide_False by done.
    split; [done|]. destruct Hl as (m & Hm & -> & Hex & Hrs & Hmin).
    split; [apply res_id_prefix|]. split.
    { intros Hin. apply Hex, elem_of_existing_ids.
      split; [apply starts_with_res_file_name, res_id_prefix|done]. }
    split; [done|].
    split; [|done]. by exists m.
  - rewrite decide_False by done. unfold claimed_as. rewrite decide_True by done.
    simpl in Hw. rewrite Hw. split; [done|]. split; [done|].
    split; [|split; [|done]]; intros ?; apply Hc; [by left|by right].
Qed.

Lemma write_record_rejects st obj :
  declared_id obj = None →
  write_record st obj = (st, Some AttributeError) ∨
  ∃ rid, write_record st obj = (st, Some (ValueError (InvalidResolutionId rid))).
Proof.
  intros Hd. unfold write_record, declared_id in *.
  destruct obj as [| | | | |?|d|?]; try (by left). right. simpl.
  unfold dict_get_default.
  destruct (dict_get d (lit "id")) as [v|]; simpl; [|by eexists].
  destruct v; try (by eexists).
  destruct (starts_with _ _); [done|by eexists].
Qed.

(** A record that passes the check and can be written is written. *)
Lemma write_record_written st obj r :
  declared_id obj = Some r → writable obj (stored_id st r) →
  write_record st obj = (written_as st obj r (stored_id st r), None).
Proof.
  intros Hd [Ho Hdump]. destruct (write_record_declared st obj r Hd) as (-> & _).
  apply write_file_written. done.
Qed.

(** Every record the loop writes goes to a file that was not there, under
    an id no earlier line of the run has. *)
Lemma write_record_Ok st obj st' :
  write_record st obj = (st', None) →
  ∃ r rid,
    declared_id obj = Some r ∧ rid = stored_id st r ∧ writable obj rid ∧
    st' = written_as st obj r rid ∧
    starts_with (lit "res-") rid = true ∧
    (res_file_name rid ∉ dom (files st)) ∧ (rid ∉ reserved_ids st) ∧
    (if decide (collides st r)
     then least_free_from 1 (existing_ids (files st)) (reserved_ids st) rid ∧ rid ≠ r
     else rid = r).
Proof.
  intros Hw. destruct (declared_id obj) as [r|] eqn:Hd.
  - exists r, (stored_id st r).
    destruct (write_record_declared st obj r Hd) as (Hrec & Hpre & Hfile & Hres & Hcase).
    rewrite Hrec in Hw. apply write_file_written in Hw as (Ho & Hdump & ->). done.
  - destruct (write_record_rejects st obj Hd) as [Hr|[? Hr]]; by rewrite Hr in Hw.
Qed.

(** A record that raises leaves the written ids as they were and at most
    one new file, the start of the record. *)
Lemma write_record_raised st obj st' e :
  write_record st obj = (st', Some e) → left_by_failure st st'.
Proof.
  intros Hw. destruct (declared_id obj) as [r|] eqn:Hd.
  - destruct (write_record_declared st obj r Hd) as (Hrec & Hpre & Hfile & Hres & Hcase).
    rewrite Hrec in Hw. apply write_file_raised in Hw as [(_ & _ & ->)|(_ & _ & ->)].
    + split; [done|by left].
    + split; [done|]. right. by exists (stored_id st r).
  - destruct (write_record_rejects st obj Hd) as [Hr|[? Hr]];
      rewrite Hr in Hw; injection Hw as <- _; (split; [done|by left]).
Qed.

Lemma run_inv_start files0 : run_inv files0 (mkRun files0 ∅ [] ∅).
Proof.
  unfold run_inv. simpl. repeat split; try done; try set_solver.
  constructor.
Qed.

Lemma run_inv_step files0 st obj st' :
  run_inv files0 st → write_record st obj = (st', None) → run_inv files0 st'.
Proof.
  intros (Hnd & Hrs & Hold & Hnew & Hdom & Hmap)
         (r & rid & Hd & _ & _ & -> & Hpre & Hfile & Hres & Hcase)%write_record_Ok.
  assert (Hnotin : rid ∉ written_ids st) by (rewrite Hrs in Hres; set_solver).
  assert (Hfresh : res_file_name rid ∉ dom files0) by (rewrite Hdom in Hfile; set_solver).
  unfold run_inv, written_as. simpl.
  split; [|split; [|split; [|split; [|split]]]].
  - apply NoDup_app. repeat split; [done|set_solver|apply NoDup_singleton].
  - rewrite Hrs. set_solver.
  - intros name Hname. rewrite lookup_insert_ne; [by apply Hold|].
    by intros <-.
  - intros rid' [Hin| ->%list_elem_of_singleton]%elem_of_app.
    + destruct (Hnew _ Hin) as (? & ? & doc & Hdoc & Hid). do 2 (split; [done|]).
      exists doc. split; [|done].
      rewrite lookup_insert_ne; [done|]. intros ?%res_file_name_inj. by subst.
    + do 2 (split; [done|]). exists (with_id obj rid). rewrite lookup_insert_eq.
      split; [done|]. apply entry_id_with_id.
  - rewrite dom_insert_L, Hdom, fmap_app. set_solver.
  - intros old new Hlook. destruct (decide (rid = r)) as [->|Hne].
    + destruct (Hmap _ _ Hlook). set_solver.
    + destruct (decide (r = old)) as [->|Hne'].
      * rewrite lookup_insert_eq in Hlook. injection Hlook as <-. set_solver.
      * rewrite lookup_insert_ne in Hlook by done. destruct (Hmap _ _ Hlook). set_solver.
Qed.

Lemma write_line_Ok st ln st' :
  write_line st ln = (st', None) ↔
  ∃ obj, json_loads ln = Some obj ∧ write_record st obj = (st', None).
Proof.
  unfold write_line. destruct (json_loads ln) as [obj|].
  - split; [by exists obj|]. by intros (? & [= <-] & ?).
  - split; [done|]. by intros (? & ? & ?).
Qed.

Lemma write_line_raised st ln st' e :
  write_line st ln = (st', Some e) → left_by_failure st st'.
Proof.
  unfold write_line. destruct (json_loads ln) as [obj|].
  - apply write_record_raised.
  - intros [= <- _]. split; [done|by left].
Qed.

(** The loop, whatever its outcome: the lines it got through leave a state
    [st1] with the invariant, which is the state returned when nothing is
    raised; a line that raised has left at most the start of a file. *)
Lemma write_lines_outcome files0 lines st st' e :
  run_inv files0 st → write_lines st lines = (st', e) →
  ∃ st1, run_inv files0 st1 ∧
         match e with
         | None => st' = st1
         | Some _ => left_by_failure st1 st'
         end.
Proof.
  revert st. induction lines as [|ln lines IH]; intros st Hinv; simpl.
  - intros [= <- <-]. by exists st.
  - destruct (write_line st ln) as [st1 [err|]] eqn:Hl.
    + intros [= <- <-]. exists st. split; [done|]. by eapply write_line_raised.
    + apply write_line_Ok in Hl as (obj & _ & Hw). apply IH. by eapply run_inv_step.
Qed.


(** What holds of the directory after the loop, whatever its outcome. *)
Lemma write_lines_directory files0 lines st' e :
  write_lines (mkRun files0 ∅ [] ∅) lines = (st', e) →
  NoDup (written_ids st') ∧
  (∀ name, name ∈ dom files0 → files st' !! name = files0 !! name) ∧
  (∀ rid, rid ∈ written_ids st' →
     (res_file_name rid ∉ dom files0) ∧ starts_with (lit "res-") rid = true ∧
     ∃ doc, files st' !! res_file_name rid = Some (Document doc) ∧ entry_id doc = Some rid) ∧
  (dom files0 ∪ list_to_set (res_file_name <$> written_ids st') ⊆ dom (files st')).
Proof.
  intros Hrun.
  destruct (write_lines_outcome files0 lines _ st' e (run_inv_start files0) Hrun)
    as (st1 & (Hnd & _ & Hold & Hnew & Hdom & _) & Hleft).
  destruct e as [e|]; [|by subst; rewrite Hdom].
  destruct Hleft as [Hw [Hf|(rid & Hpre & Hfree & Hf)]]; rewrite Hw, Hf.
  - by rewrite Hdom.
  - split; [done|]. split; [|split].
    + intros name Hname. rewrite lookup_insert_ne; [by apply Hold|].
      intros <-. apply Hfree. rewrite Hdom. set_solver.
    + intros rid' Hin. destruct (Hnew _ Hin) as (? & ? & doc & Hdoc & Hid).
      do 2 (split; [done|]). exists doc. split; [|done].
      rewrite lookup_insert_ne; [done|]. intros Heq. apply Hfree.
      rewrite Heq. apply elem_of_dom. by eexists.
    + rewrite dom_insert_L, Hdom. set_solver.
Qed.




End writer.

(** ** The directory of the index *)

Lemma directory_with_resolutions index di items :
  directory (with_resolutions index di items) = items.
Proof.
  unfold directory, with_resolutions, dict_get_none, dict_get_default.
  by rewrite !dict_get_set_eq.
Qed.

Lemma with_resolutions_shape index di items : index_shape (with_resolutions index di items).
Proof.
  exists (dict_set di (lit "resolutions") (PList items)), items.
  unfold with_resolutions. by rewrite !dict_get_set_eq.
Qed.

Lemma with_resolutions_get index di items k :
  k ≠ lit "detail_index" → dict_get (with_resolutions index di items) k = dict_get index k.
Proof. intros. unfold with_resolutions. by rewrite dict_get_set_ne. Qed.

Lemma fix_directory_result D di items remap written :
  dict_get D (lit "detail_index") = Some (PDict di) →
  dict_get di (lit "resolutions") = Some (PList items) →
  fix_directory remap written D = Ok (with_resolutions D di (fixed_items remap written items)).
Proof.
  intros HD Hdi. unfold fix_directory, get_resolutions, dict_get_default.
  rewrite HD. simpl. unfold dict_get_default. rewrite Hdi. simpl.
  unfold remap_resolutions. rewrite HD, Hdi. unfold fixed_items, with_resolutions.
  destruct (decide (items = [] ∧ written ≠ [])) as [[-> Hw]|Hno].
  - rewrite bool_decide_eq_true_2 by done. rewrite bool_decide_eq_false_2 by done. simpl.
    unfold set_resolutions. rewrite dict_get_set_eq, !dict_set_set. done.
  - destruct (decide (items = [])) as [->|Hi].
    + rewrite bool_decide_eq_true_2 by done. simpl.
      rewrite bool_decide_eq_true_2; [done|]. apply dec_stable. intros ?. by apply Hno.
    + rewrite bool_decide_eq_false_2 by done. done.
Qed.

Section run.
Context `{Builtins}.

Lemma merge_index_directory S D :
  index_shape S → index_shape D →
  ∃ M, merge_index S D = Ok M ∧
       directory M = fresh entry_id ∅ (directory S ++ directory D) ∧
       ∀ k, k ≠ lit "detail_index" → dict_get M k = dict_get (merged_fields S D) k.
Proof.
  intros (di & itemsS & HS & Hdi) (diD & itemsD & HD & HdiD).
  rewrite (merge_index_result _ _ _ _ _ _ HS Hdi HD HdiD).
  eexists. split; [done|]. split.
  - fold (with_resolutions (merged_fields S D) di (fresh entry_id ∅ (itemsS ++ itemsD))).
    rewrite directory_with_resolutions. unfold directory, dict_get_none, dict_get_default.
    by rewrite HS, HD, Hdi, HdiD.
  - intros k Hk. by rewrite dict_get_set_ne.
Qed.

(** A run that returns an index went through every step. *)
Lemma parse_model_output_to_context_Ok out_text st M st' :
  parse_model_output_to_context out_text st = (Ok M, st') →
  ∃ index_text ndjson_text doc run D,
    FILE_BLOCK_RE_search out_text = Some (index_text, ndjson_text) ∧
    json_loads (strip index_text) = Some doc ∧
    write_lines (mkRun (res_files st) ∅ [] ∅) (nonblank_lines (strip ndjson_text))
      = (run, None) ∧
    fix_directory (id_remap run) (written_ids run) (normalize_index doc) = Ok D ∧
    final_index (read_existing_index (index_file st)) D = Ok M ∧
    st' = mkStore (files run) (Holds (PDict M)).
Proof.
  unfold parse_model_output_to_context.
  destruct (FILE_BLOCK_RE_search out_text) as [[index_text ndjson_text]|]; [|done].
  destruct (json_loads (strip index_text)) as [doc|] eqn:Hdoc; [|done].
  destruct (write_lines _ _) as [run [e|]] eqn:Hrun; [by intros [=]|].
  unfold mbind, result_bind.
  destruct (fix_directory _ _ _) as [D|e] eqn:HD; [|by intros [=]].
  destruct (final_index _ D) as [M'|e] eqn:HM; [|by intros [=]].
  unfold write_index. destruct (dump_error (PDict M')); [by intros [=]|].
  intros [= <- <-]. by exists index_text, ndjson_text, doc, run, D.
Qed.

(** The index a run returns is one [json.dump] has written. *)
Lemma parse_model_output_to_context_dumped out_text st M st' :
  parse_model_output_to_context out_text st = (Ok M, st') → dump_error (PDict M) = None.
Proof.
  unfold parse_model_output_to_context.
  destruct (FILE_BLOCK_RE_search out_text) as [[index_text ndjson_text]|]; [|done].
  destruct (json_loads (strip index_text)) as [doc|] eqn:Hdoc; [|done].
  destruct (write_lines _ _) as [run [e|]] eqn:Hrun; [by intros [=]|].
  unfold mbind, result_bind.
  destruct (fix_directory _ _ _) as [D|e] eqn:HD; [|by intros [=]].
  destruct (final_index _ D) as [M'|e] eqn:HM; [|by intros [=]].
  unfold write_index. destruct (dump_error (PDict M')) eqn:Hdump; [by intros [=]|].
  by intros [= <- _].
Qed.

End run.

(** ** A whole run *)

Section whole_run.
Context `{Builtins}.

(** The incoming index as the merge receives it: the normalised reply with
    its directory fixed. *)
Lemma fix_directory_normalized remap written doc :
  ∃ di items,
    dict_get (normalize_index doc) (lit "detail_index") = Some (PDict di) ∧
    dict_get di (lit "resolutions") = Some (PList items) ∧
    directory (normalize_index doc) = items ∧
    fix_directory remap written (normalize_index doc) =
    Ok (with_resolutions (normalize_index doc) di (fixed_items remap written items)).
Proof.
  destruct (normalize_index_shape doc) as (di & items & HD & Hdi).
  exists di, items. do 2 (split; [done|]). split.
  - unfold directory, dict_get_none, dict_get_default. by rewrite HD, Hdi.
  - by apply fix_directory_result.
Qed.

(** C4 (amended): when a previous index exists and the run succeeds, each
    of [project], [current_state] and [next_actions] of the merged index is
    the value the reply carries for it, whenever the reply carries the
    field; an empty value counts and overwrites the persisted one. *)
Theorem latest_wins_when_present out_text st S0 M st' index_text ndjson_text R k v :
  index_file st = Holds S0 →
  parse_model_output_to_context out_text st = (Ok M, st') →
  FILE_BLOCK_RE_search out_text = Some (index_text, ndjson_text) →
  json_loads (strip index_text) = Some (PDict R) →
  k ∈ latest_keys →
  dict_get R k = Some v →
  dict_get M k = Some v.
Proof.
  intros Hst (it & nt & doc & run & D & Hs & Hdoc & _ & HD & HM & _)%parse_model_output_to_context_Ok
         Hs' Hdoc' Hk Hv.
  rewrite Hs' in Hs. injection Hs as <- <-. rewrite Hdoc' in Hdoc. injection Hdoc as <-.
  destruct (fix_directory_normalized (id_remap run) (written_ids run) (PDict R))
    as (di & items & _ & _ & _ & HD').
  rewrite HD' in HD. injection HD as <-. rewrite Hst in HM.
  destruct (final_index_fields S0 _ (with_resolutions_shape (normalize_index (PDict R)) di
     (fixed_items (id_remap run) (written_ids run) items))) as (M' & HM' & Hl & _).
  rewrite HM' in HM. injection HM as <-. rewrite (Hl k Hk).
  assert (k ≠ lit "detail_index") as Hne.
  { revert Hk. unfold latest_keys. rewrite !elem_of_cons, elem_of_nil.
    intros [->|[->|[->|[]]]]; lit_neq. }
  unfold dict_get_default. rewrite with_resolutions_get, normalize_index_get_other by done.
  simpl. by rewrite Hv.
Qed.

End whole_run.

(** C4, a reply that empties [current_state]: the persisted value
    [build_ok] is replaced by the empty string. *)
Lemma emptied_field_overwrites :
  index_file sample_store = Holds sample_persisted ∧
  dict_get (dict_or_empty sample_persisted) (lit "current_state") = Some (str "build_ok") ∧
  dict_get (dict_or_empty sample_reply) (lit "current_state") = Some (PStr []) ∧
  sample_run.1 = Ok (run_index sample_run) ∧
  dict_get (run_index sample_run) (lit "current_state") = Some (PStr []).
Proof. by_evaluation. Qed.

(** The sample run: its reply carries an empty [current_state]. *)
Lemma latest_wins_when_present_witness :
  dict_get (run_index sample_run) (lit "current_state") = Some (PStr []).
Proof.
  apply (latest_wins_when_present (H := sample_builtins [sample_reply])
           (reply_of sample_reply []) sample_store sample_persisted
           (run_index sample_run) sample_run.2
           (text_of sample_reply) [] (dict_or_empty sample_reply)).
  - reflexivity.
  - vm_compute. reflexivity.
  - vm_compute. reflexivity.
  - vm_compute. reflexivity.
  - apply (bool_decide_unpack _). vm_compute. exact I.
  - vm_compute. reflexivity.
Defined.

(** The sample reply merged into the sample index, twice. *)
Lemma merge_idempotent_witness :
  index_shape (normalize_index sample_reply) ∧
  ∃ M,
    final_index (H := sample_builtins []) (read_existing_index (Holds sample_persisted))
      (normalize_index sample_reply) = Ok M ∧
    final_index (H := sample_builtins []) (read_existing_index (Holds (PDict M)))
      (normalize_index sample_reply) = Ok M.
Proof.
  assert (Hshape : index_shape (normalize_index sample_reply)).
  { do 2 eexists. split; vm_compute; reflexivity. }
  split; [exact Hshape|].
  exact (merge_idempotent (H := sample_builtins []) sample_persisted
           (normalize_index sample_reply) Hshape).
Defined.

(** The goals of the sample index, [g1] and [g2], merged with those of the
    sample reply, [g2] and [g3]. *)
Lemma union_merge_keeps_previous_witness :
  index_shape (normalize_index sample_reply) ∧
  ∃ M,
    final_index (H := sample_builtins []) (read_existing_index (Holds sample_persisted))
      (normalize_index sample_reply) = Ok M ∧
    dict_get M (lit "goals") = Some (PList [str "g1"; str "g2"; str "g3"]).
Proof.
  assert (Hshape : index_shape (normalize_index sample_reply)).
  { do 2 eexists. split; vm_compute; reflexivity. }
  split; [exact Hshape|].
  destruct (union_merge_keeps_previous (H := sample_builtins []) sample_persisted
              (normalize_index sample_reply) Hshape) as (M & env & HM & _ & Hu & _).
  exists M. split; [exact HM|].
  destruct (Hu (lit "goals")) as [_ Ht].
  { apply (bool_decide_unpack _). vm_compute. exact I. }
  destruct Ht as (merged & Hgoals & Hmerged & _).
  - unfold json_entries. apply (bool_decide_unpack _). vm_compute. exact I.
  - unfold json_entries. apply (bool_decide_unpack _). vm_compute. exact I.
  - rewrite Hgoals, Hmerged. vm_compute. reflexivity.
Defined.

Example merged_goals_sample :
  (run_index sample_run) !! 3%nat =
  Some (lit "goals", PList [str "g1"; str "g2"; str "g3"]).
Proof. vm_compute. reflexivity. Qed.

Example unique_list_merge_sample :
  unique_list_merge (H := sample_builtins [])
    (PList [str "a"; PObject 1; str "a"]) (PList [PObject 2; str "b"; PInt 1; PBool true]) =
  [str "a"; PObject 1; str "b"; PInt 1; PBool true] ∧
  unique_list_merge (H := sample_builtins []) (str "not a list") (PList [str "b"]) = [str "b"] ∧
  unique_list_merge (H := sample_builtins []) (PDict []) PNone = [].
Proof. by_evaluation. Qed.

(** ** The ids of the resolution lines *)

Lemma digits_of_uint_digits d : forallb is_digit (digits_of_uint d) = true.
Proof. induction d; simpl; by rewrite ?IHd. Qed.

(** The ids the allocator makes have the shape [res-NNN]. *)
Lemma res_id_is_res_nnn n : is_res_nnn (res_id n) = true.
Proof.
  unfold is_res_nnn, res_id.
  assert (strip_prefix (lit "res-") (lit "res-" ++ format_03d n) = Some (format_03d n)) as ->
    by by apply strip_prefix_app.
  unfold format_03d, decimal. apply andb_true_iff. split.
  - apply Nat.leb_le. rewrite length_app, length_replicate. lia.
  - rewrite forallb_app, digits_of_uint_digits, andb_true_r.
    by induction (3 - _)%nat.
Qed.


(** Lines the loop rejects: no id, an id without the prefix, a line that
    is no object. *)
Example rejected_lines_sample :
  let no_id := PDict [(lit "problem", str "x")] in
  let other_prefix := PDict [(lit "id", str "RES-001")] in
  let no_object := PList [str "res-001"] in
  let H := sample_builtins [no_id; other_prefix; no_object] in
  (write_line (mkRun ∅ ∅ [] ∅) (text_of no_id)).2
    = Some (ValueError (InvalidResolutionId PNone)) ∧
  (write_line (mkRun ∅ ∅ [] ∅) (text_of other_prefix)).2
    = Some (ValueError (InvalidResolutionId (str "RES-001"))) ∧
  (write_line (mkRun ∅ ∅ [] ∅) (text_of no_object)).2 = Some AttributeError ∧
  (write_line (mkRun ∅ ∅ [] ∅) (lit "not json")).2 = Some JSONDecodeError.
Proof. by_evaluation. Qed.

(** Lines that pass the check of the id and are not written: an id with a
    path separator, for which [open] raises and no file is made, and a
    record with a lone surrogate, for which [json.dump] raises and leaves
    the start of [res-001.json]. *)
Example unwritable_lines_sample :
  let H := sample_builtins [slash_record; surrogate_record] in
  declared_id slash_record = Some (lit "res-a/b") ∧
  (write_line (mkRun ∅ ∅ [] ∅) (text_of slash_record)).2 = Some OpenError ∧
  map_to_list (files (write_line (mkRun ∅ ∅ [] ∅) (text_of slash_record)).1) = [] ∧
  declared_id surrogate_record = Some (lit "res-001") ∧
  is_res_nnn (lit "res-001") = true ∧
  (write_line (mkRun ∅ ∅ [] ∅) (text_of surrogate_record)).2 = Some UnicodeEncodeError ∧
  map_to_list (files (write_line (mkRun ∅ ∅ [] ∅) (text_of surrogate_record)).1)
    = [(lit "res-001.json", Partial)] ∧
  written_ids (write_line (mkRun ∅ ∅ [] ∅) (text_of surrogate_record)).1 = [].
Proof. by_evaluation. Qed.

Section resolution_lines.
Context `{Builtins}.




End resolution_lines.

(** ** Collisions *)

Lemma collides_res_id st n :
  collides st (res_id n) ↔
  res_id n ∈ existing_ids (files st) ∨ res_id n ∈ reserved_ids st.
Proof.
  unfold collides. rewrite elem_of_existing_ids.
  pose proof (starts_with_res_file_name (res_id n) (res_id_prefix n)). tauto.
Qed.

Lemma remap_entry_id remap it old :
  entry_id it = Some old →
  entry_id (remap_entry remap it) = Some (default old (remap !! old)).
Proof.
  unfold entry_id, remap_entry. destruct it as [| | | | |?|d|?]; try done.
  destruct (dict_get d (lit "id")) as [[]|] eqn:Hid; try done.
  intros [= ->]. destruct (remap !! old) as [new|]; simpl.
  - by rewrite dict_get_set_eq.
  - by rewrite Hid.
Qed.

(** C2, two records of one reply with the same id [res-001], each with its
    entry in the directory of the reply.  With [res-001] on disk, the first
    is written as [res-002] and the second as [res-003]: the directory of
    the merged index lists [res-003] and not [res-002].  On a fresh store,
    the first is written as [res-001] and the second as [res-002]: both
    entries carry [res-002], and [res-001] is not listed. *)
Lemma twin_ids_share_one_remap :
  (twin_run.1 = Ok (run_index twin_run) ∧
   res_files twin_run.2 !! lit "res-001.json" = res_files sample_store !! lit "res-001.json" ∧
   res_files twin_run.2 !! lit "res-002.json" = Some (Document (with_id twin_a (lit "res-002"))) ∧
   res_files twin_run.2 !! lit "res-003.json" = Some (Document (with_id twin_b (lit "res-003"))) ∧
   omap entry_id (directory (run_index twin_run)) = [lit "res-001"; lit "res-003"]) ∧
  (twin_first_run.1 = Ok (run_index twin_first_run) ∧
   res_files twin_first_run.2 !! lit "res-001.json" = Some (Document twin_a) ∧
   res_files twin_first_run.2 !! lit "res-002.json"
     = Some (Document (with_id twin_b (lit "res-002"))) ∧
   size (res_files twin_first_run.2) = 2%nat ∧
   omap entry_id (directory (run_index twin_first_run)) = [lit "res-002"; lit "res-002"]).
Proof. split; by_evaluation. Qed.


(** ** The store and the directory after a run *)



Section after_run.
Context `{Builtins}.


End after_run.


(** ** FILE_BLOCK_RE *)

Lemma skip_ws_split t : ∃ w, forallb is_space w = true ∧ t = w ++ skip_ws t.
Proof.
  induction t as [|c t (w & Hw & Ht)]; [by exists []|]. simpl.
  destruct (is_space c) eqn:Hc.
  - exists (c :: w). simpl. rewrite Hc, Hw. split; [done|]. by f_equal.
  - by exists [].
Qed.

Lemma skip_ws_blanks w c r :
  forallb is_space w = true → is_space c = false → skip_ws (w ++ c :: r) = c :: r.
Proof.
  intros Hw Hc. induction w as [|b w IH]; simpl.
  - by rewrite Hc.
  - simpl in Hw. apply andb_true_iff in Hw as [-> Hw]. by apply IH.
Qed.

Lemma skip_ws_keeps a c r :
  is_space c = false → ∃ a', skip_ws (a ++ c :: r) = a' ++ c :: r.
Proof.
  intros Hc. induction a as [|b a [a' IH]]; simpl.
  - rewrite Hc. by exists [].
  - destruct (is_space b); [by exists a'|by exists (b :: a)].
Qed.

Lemma lazy_group_Some {A} (rest : pystr → option A) acc t g r :
  lazy_group rest acc t = Some (g, r) →
  ∃ s u, t = s ++ u ∧ g = rev acc ++ s ∧ rest u = Some r.
Proof.
  revert acc. induction t as [|c t IH]; intros acc; simpl.
  - destruct (rest []) as [r'|] eqn:Hr; [|done]. intros [= <- <-].
    exists [], []. by rewrite !app_nil_r.
  - destruct (rest (c :: t)) as [r'|] eqn:Hr.
    + intros [= <- <-]. exists [], (c :: t). by rewrite !app_nil_r.
    + intros (s & u & -> & -> & Hu)%IH. exists (c :: s), u. simpl.
      by rewrite <- app_assoc.
Qed.

Lemma lazy_group_finds {A} (rest : pystr → option A) acc s u :
  is_Some (rest u) → is_Some (lazy_group rest acc (s ++ u)).
Proof.
  intros Hu. revert acc. induction s as [|c s IH]; intros acc; simpl.
  - destruct u as [|c u]; simpl; destruct Hu as [r ->]; by eexists.
  - destruct (rest (c :: s ++ u)); [by eexists|]. apply IH.
Qed.

Lemma match_end_Some u r : match_end u = Some r ↔ skip_ws u = END_MARKER ++ r.
Proof. unfold match_end. apply strip_prefix_app. Qed.

Lemma match_here_blocks t index_text ndjson_text :
  match_here t = Some (index_text, ndjson_text) →
  ∃ a gap b post,
    forallb is_space gap = true ∧
    t = INDEX_MARKER ++ a ++ END_MARKER ++ gap ++ NDJSON_MARKER ++ b ++ END_MARKER ++ post.
Proof.
  unfold match_here.
  intros (t0 & ->%strip_prefix_app & (s & u & Ht0 & _ & Hu)%lazy_group_Some)%bind_Some.
  unfold match_ndjson_block in Hu.
  apply bind_Some in Hu as (t1 & H1%match_end_Some & Hu).
  apply bind_Some in Hu as (t2 & H2%strip_prefix_app & Hu).
  apply fmap_Some in Hu as ([g r] & (s2 & u2 & Ht2 & _ & Hu2%match_end_Some)%lazy_group_Some & _).
  destruct (skip_ws_split t0) as (w0 & _ & E0).
  destruct (skip_ws_split u) as (wu & _ & Eu).
  destruct (skip_ws_split t1) as (w1 & Hw1 & E1).
  destruct (skip_ws_split t2) as (w2 & _ & E2).
  destruct (skip_ws_split u2) as (wu2 & _ & Eu2).
  exists (w0 ++ s ++ wu), w1, (w2 ++ s2 ++ wu2), r. split; [done|].
  rewrite E0, Ht0, Eu, H1, E1, H2, E2, Ht2, Eu2, Hu2.
  by rewrite <- !app_assoc.
Qed.

Lemma END_MARKER_head x : ∃ r, END_MARKER ++ x = 61%N :: r.
Proof. by eexists. Qed.

Lemma NDJSON_MARKER_head x : ∃ r, NDJSON_MARKER ++ x = 61%N :: r.
Proof. by eexists. Qed.

Lemma match_ndjson_block_finds gap b post :
  forallb is_space gap = true →
  is_Some (match_ndjson_block
             (END_MARKER ++ gap ++ NDJSON_MARKER ++ b ++ END_MARKER ++ post)).
Proof.
  intros Hgap. unfold match_ndjson_block.
  assert (match_end (END_MARKER ++ gap ++ NDJSON_MARKER ++ b ++ END_MARKER ++ post)
          = Some (gap ++ NDJSON_MARKER ++ b ++ END_MARKER ++ post)) as ->.
  { apply match_end_Some. by destruct (END_MARKER_head (gap ++ NDJSON_MARKER ++ b ++
      END_MARKER ++ post)) as [r ->]. }
  cbn [mbind option_bind].
  assert (skip_ws (gap ++ NDJSON_MARKER ++ b ++ END_MARKER ++ post)
          = NDJSON_MARKER ++ b ++ END_MARKER ++ post) as ->.
  { destruct (NDJSON_MARKER_head (b ++ END_MARKER ++ post)) as [r ->].
    by apply skip_ws_blanks. }
  assert (strip_prefix NDJSON_MARKER (NDJSON_MARKER ++ b ++ END_MARKER ++ post)
          = Some (b ++ END_MARKER ++ post)) as -> by by apply strip_prefix_app.
  cbn [mbind option_bind].
  destruct (END_MARKER_head post) as [r Hr].
  destruct (skip_ws_keeps b 61 r) as [b' Hb]; [done|].
  rewrite Hr, Hb, <- Hr.
  destruct (lazy_group_finds match_end [] b' (END_MARKER ++ post)) as [[g r'] ->].
  - exists post. apply match_end_Some. by rewrite Hr.
  - by eexists.
Qed.

Lemma match_here_finds a gap b post :
  forallb is_space gap = true →
  is_Some (match_here
    (INDEX_MARKER ++ a ++ END_MARKER ++ gap ++ NDJSON_MARKER ++ b ++ END_MARKER ++ post)).
Proof.
  intros Hgap. unfold match_here.
  assert (strip_prefix INDEX_MARKER
            (INDEX_MARKER ++ a ++ END_MARKER ++ gap ++ NDJSON_MARKER ++ b ++ END_MARKER ++ post)
          = Some (a ++ END_MARKER ++ gap ++ NDJSON_MARKER ++ b ++ END_MARKER ++ post)) as ->
    by by apply strip_prefix_app.
  cbn [mbind option_bind].
  pose proof (match_ndjson_block_finds gap b post Hgap) as Hfind.
  destruct (END_MARKER_head (gap ++ NDJSON_MARKER ++ b ++ END_MARKER ++ post)) as [r Hr].
  destruct (skip_ws_keeps a 61 r) as [a' Ha]; [done|].
  rewrite Hr in *. rewrite Ha. by apply lazy_group_finds.
Qed.

Lemma FILE_BLOCK_RE_search_unfold t :
  FILE_BLOCK_RE_search t =
  match match_here t with
  | Some g => Some g
  | None =>
      match t with
      | [] => None
      | _ :: t' => FILE_BLOCK_RE_search t'
      end
  end.
Proof. by destruct t. Qed.

Lemma FILE_BLOCK_RE_search_Some t :
  is_Some (FILE_BLOCK_RE_search t) ↔ has_file_blocks t.
Proof.
  split.
  - intros [[index_text ndjson_text] Hs].
    induction t as [|c t IH]; rewrite FILE_BLOCK_RE_search_unfold in Hs.
    + destruct (match_here []) as [[i n]|] eqn:Hm; [|done].
      apply match_here_blocks in Hm as (a & gap & b & post & Hgap & Ht).
      by exists [], a, gap, b, post.
    + destruct (match_here (c :: t)) as [[i n]|] eqn:Hm.
      * apply match_here_blocks in Hm as (a & gap & b & post & Hgap & Ht).
        by exists [], a, gap, b, post.
      * destruct (IH Hs) as (pre & a & gap & b & post & Hgap & ->).
        by exists (c :: pre), a, gap, b, post.
  - intros (pre & a & gap & b & post & Hgap & ->).
    induction pre as [|c pre IH]; rewrite FILE_BLOCK_RE_search_unfold.
    + destruct (match_here_finds a gap b post Hgap) as [g Hg].
      rewrite app_nil_l, Hg. by eexists.
    + destruct (match_here _); [by eexists|]. exact IH.
Qed.

Lemma FILE_BLOCK_RE_search_None t :
  FILE_BLOCK_RE_search t = None ↔ ¬ has_file_blocks t.
Proof.
  rewrite <- FILE_BLOCK_RE_search_Some. split.
  - intros -> [? ?]. done.
  - intros Hno. destruct (FILE_BLOCK_RE_search t); [|done]. destruct Hno. by eexists.
Qed.

(** C7: a reply without the index block followed by the resolution block
    makes [parse_model_output_to_context] raise its parse error, and the
    store is as it was: no resolution file is created and the index is not
    written. *)
Theorem missing_blocks_abort `{Builtins} (out_text : pystr) (st : store) :
  ¬ has_file_blocks out_text →
  parse_model_output_to_context out_text st = (Raise (ValueError MissingFileBlocks), st).
Proof.
  intros Hno%FILE_BLOCK_RE_search_None. unfold parse_model_output_to_context.
  by rewrite Hno.
Qed.

(** The reply without its last closing marker. *)
Lemma missing_blocks_abort_witness :
  ¬ has_file_blocks truncated_reply ∧
  parse_model_output_to_context (H := sample_builtins [PDict []; twin_a])
    truncated_reply sample_store
  = (Raise (ValueError MissingFileBlocks), sample_store).
Proof.
  assert (Hno : ¬ has_file_blocks truncated_reply).
  { apply FILE_BLOCK_RE_search_None. vm_compute. reflexivity. }
  split; [exact Hno|].
  exact (missing_blocks_abort (H := sample_builtins [PDict []; twin_a])
           truncated_reply sample_store Hno).
Defined.

Example complete_reply_has_blocks :
  FILE_BLOCK_RE_search (lit "noise " ++ reply_of (PDict []) [twin_a; twin_b] ++ lit " noise")
  = Some (text_of (PDict []), text_of twin_a ++ NEWLINE ++ text_of twin_b).
Proof. vm_compute. reflexivity. Qed.

(** ** build_session_material *)

Lemma last_n_suffix {A} (n : nat) (l : list A) :
  l = take (length l - n) l ++ last_n n l ∧ length (last_n n l) = Nat.min n (length l).
Proof.
  unfold last_n. split; [by rewrite take_drop|]. rewrite length_drop. lia.
Qed.

Lemma last_n_nil {A} (n : nat) (l : list A) : (0 < n)%nat → last_n n l = [] ↔ l = [].
Proof.
  intros Hn. split; [|by intros ->].
  intros Hl. apply (f_equal length) in Hl.
  rewrite (proj2 (last_n_suffix n l)) in Hl. destruct l; [done|]. simpl in Hl. lia.
Qed.

Lemma slice_from_last {A} (n : Z) (l : list A) :
  (0 < n)%Z → slice_from (- n) l = last_n (Z.to_nat n) l.
Proof.
  intros Hn. unfold slice_from, last_n.
  destruct (Z.ltb_spec (- n) 0); [|lia]. f_equal. lia.
Qed.

Lemma slice_to_take {A} (n : Z) (l : list A) :
  (0 ≤ n)%Z → slice_to n l = take (Z.to_nat n) l.
Proof.
  intros Hn. unfold slice_to. destruct (Z.ltb_spec n 0); [lia|].
  destruct (decide (Z.to_nat n ≤ length l)%nat).
  - f_equal. lia.
  - rewrite !take_ge; [done|lia..].
Qed.

Lemma material_of_sections ch :
  strip (join NEWLINE (material_of ch)) = sectioned_text ch.
Proof.
  unfold sectioned_text, material_of, digest_section. do 2 f_equal.
  change (-80)%Z with (Z.opp 80). change (-120)%Z with (Z.opp 120).
  rewrite !slice_from_last by lia.
  change (Z.to_nat 80) with 80%nat. change (Z.to_nat 120) with 120%nat.
  repeat f_equal.
  - destruct (decide (summaries ch = [])) as [Hs|Hs].
    + rewrite decide_True; [done|]. by rewrite Hs.
    + rewrite decide_False; [done|]. intros Hm%fmap_nil_inv. apply last_n_nil in Hm; [done|lia].
  - destruct (decide (tool_uses ch = [])) as [Hs|Hs].
    + rewrite decide_True; [done|]. by rewrite Hs.
    + rewrite decide_False; [done|]. intros Hm. apply last_n_nil in Hm; [done|lia].
  - destruct (decide (tool_stats ch = [])) as [Hs|Hs].
    + rewrite decide_True; [done|]. by rewrite Hs.
    + rewrite decide_False; [done|]. intros Hm. apply last_n_nil in Hm; [done|lia].
  - assert (Hmap : ∀ l : list pystr,
       map (λ block, [slice_to 20000 block; SEPARATOR]) l =
       map (λ block, [take (Z.to_nat 20000) block; SEPARATOR]) l).
    { intros l. apply map_ext. intros b. by rewrite slice_to_take. }
    rewrite Hmap.
    destruct (decide (tool_results ch = [])) as [Hs|Hs].
    + rewrite decide_True; [done|]. by rewrite Hs.
    + rewrite decide_False, app_nil_r; [done|].
      destruct (last_n 120 (tool_results ch)) eqn:Hl; [|done].
      apply last_n_nil in Hl; [done|lia].
  - destruct (decide (dialogue ch = [])) as [Hs|Hs].
    + rewrite decide_True; [done|]. by rewrite Hs.
    + rewrite decide_False, app_nil_r; [done|]. intros Hm. apply last_n_nil in Hm; [done|lia].
Qed.

Section digest.
Context `{Builtins}.

Lemma classify_event_app c0 ch e :
  classify_event (channels_app c0 ch) e = channels_app c0 (classify_event ch e).
Proof.
  unfold classify_event, channels_app.
  destruct e as [| | | | |?|d|?]; try done.
  destruct (has_type d (lit "summary")), (dict_get_none d (lit "summary"));
    destruct (dict_get_none d (lit "toolUseResult")); simpl; by rewrite <- ?app_assoc.
Qed.

Lemma collect_channels_from ch events :
  fold_left classify_event events ch = channels_app ch (collect_channels events).
Proof.
  unfold collect_channels.
  assert (Hgen : ∀ c0 c, fold_left classify_event events (channels_app c0 c) =
                         channels_app c0 (fold_left classify_event events c)).
  { induction events as [|e events IH]; intros c0 c; simpl; [done|].
    by rewrite classify_event_app, IH. }
  rewrite <- Hgen. f_equal. destruct ch. unfold channels_app. simpl.
  by rewrite !app_nil_r.
Qed.

Lemma collect_channels_app es1 es2 :
  collect_channels (es1 ++ es2) = channels_app (collect_channels es1) (collect_channels es2).
Proof.
  unfold collect_channels at 1. rewrite fold_left_app.
  fold (collect_channels es1). apply collect_channels_from.
Qed.


End digest.


Example sample_digest :
  build_session_material (H := sample_builtins []) sample_events 60000 =
  HEADER_SUMMARY ++ NEWLINE ++ lit "- did x" ++ NEWLINE ++ NEWLINE ++
  HEADER_DIALOGUE ++ NEWLINE ++ lit "user: hi".
Proof. vm_compute. reflexivity. Qed.

(** ** The scenarios of the specification *)

(** Fresh store, one resolution: the record is written as [res-001.json]
    and the directory of the index lists [res-001]. *)
Example fresh_store_one_resolution :
  let index_doc :=
    PDict [(lit "current_state", str "ok"); (lit "goals", PList [str "g1"]);
           (lit "project", str "demo")] in
  let run :=
    parse_model_output_to_context (H := sample_builtins [index_doc; twin_a])
      (reply_of index_doc [twin_a]) (mkStore ∅ Missing) in
  map_to_list (res_files run.2) = [(lit "res-001.json", Document twin_a)] ∧
  omap entry_id (directory (run_index run)) = [lit "res-001"] ∧
  index_file run.2 = Holds (PDict (run_index run)).
Proof. by_evaluation. Qed.

(** Collision on a second run: the store has [res-001]; the record that
    declares [res-001] is written as [res-002.json] with its id overwritten,
    and [res-001.json] is as it was. *)
Example collision_on_second_run :
  let run :=
    parse_model_output_to_context (H := sample_builtins [PDict []; twin_a])
      (reply_of (PDict []) [twin_a]) sample_store in
  res_files run.2 !! lit "res-002.json" = Some (Document (with_id twin_a (lit "res-002"))) ∧
  res_files run.2 !! lit "res-001.json" = res_files sample_store !! lit "res-001.json" ∧
  omap entry_id (directory (run_index run)) = [lit "res-001"; lit "res-002"].
Proof. by_evaluation. Qed.

(** * Further properties

    What the code shows beyond the statements of the specification. *)

(** ** Trimmed texts *)

Lemma skip_ws_head t c r : skip_ws t = c :: r → is_space c = false.
Proof.
  induction t as [|b t IH]; simpl; [done|].
  destruct (is_space b) eqn:Hb; [done|]. by intros [= <- <-].
Qed.

Lemma skip_ws_length t : (length (skip_ws t) ≤ length t)%nat.
Proof.
  induction t as [|b t IH]; simpl; [done|]. destruct (is_space b); simpl; lia.
Qed.

Lemma skip_ws_same t : skip_ws t = t ↔ match t with [] => True | c :: _ => is_space c = false end.
Proof.
  destruct t as [|c t]; [done|]. simpl. destruct (is_space c) eqn:Hc; [|done].
  split; [|done]. intros Heq. pose proof (skip_ws_length t) as Hl.
  rewrite Heq in Hl. simpl in Hl. lia.
Qed.

Lemma skip_ws_skip_ws t : skip_ws (skip_ws t) = skip_ws t.
Proof.
  apply skip_ws_same. destruct (skip_ws t) as [|c r] eqn:Hs; [done|].
  by eapply skip_ws_head.
Qed.

(** A text is trimmed when it is empty or neither starts nor ends with a blank. *)
Lemma strip_same t : strip t = t ↔ skip_ws t = t ∧ skip_ws (rev t) = rev t.
Proof.
  unfold strip. split.
  - intros Heq.
    assert (skip_ws t = t) as Ht.
    { destruct (skip_ws_split t) as (w & _ & Hw).
      pose proof (skip_ws_length (rev (skip_ws t))) as Hl.
      rewrite <- (length_rev (skip_ws (rev (skip_ws t)))), Heq, length_rev in Hl.
      assert (length w = 0%nat) as Hw0.
      { apply (f_equal length) in Hw. rewrite length_app in Hw. lia. }
      destruct w; [|done]. by rewrite Hw at 2. }
    split; [done|]. rewrite Ht in Heq. by rewrite <- Heq at 2; rewrite rev_involutive.
  - intros [-> ->]. apply rev_involutive.
Qed.

Lemma strip_strip t : strip (strip t) = strip t.
Proof.
  apply strip_same. unfold strip. rewrite rev_involutive, skip_ws_skip_ws. split; [|done].
  set (u := skip_ws t). destruct (skip_ws_split (rev u)) as (w & Hw & Hu).
  set (v := skip_ws (rev u)) in *.
  apply (f_equal (@rev _)) in Hu. rewrite rev_involutive, rev_app_distr in Hu.
  apply skip_ws_same. destruct (rev v) as [|c r] eqn:Hv; [done|].
  assert (skip_ws u = u) as Hfix by apply skip_ws_skip_ws.
  rewrite Hu in Hfix. by apply (proj1 (skip_ws_same ((c :: r) ++ rev w))) in Hfix.
Qed.

Lemma strip_nil : strip [] = [].
Proof. done. Qed.

(** The two ends of a trimmed text. *)
Lemma strip_same_ends t :
  strip t = t ↔
  t = [] ∨ ∃ c1 c2 r1 r2, t = c1 :: r1 ∧ t = r2 ++ [c2] ∧ is_space c1 = false ∧ is_space c2 = false.
Proof.
  rewrite strip_same, !skip_ws_same. split.
  - intros [H1 H2]. destruct t as [|c1 r1]; [by left|]. right.
    destruct (rev (c1 :: r1)) as [|c2 r2] eqn:Hr.
    { apply (f_equal length) in Hr. rewrite length_rev in Hr. done. }
    exists c1, c2, r1, (rev r2). split; [done|]. split; [|done].
    apply (f_equal (@rev _)) in Hr. by rewrite rev_involutive in Hr.
  - intros [->|(c1 & c2 & r1 & r2 & H1 & H2 & Hc1 & Hc2)]; [done|].
    split; [by rewrite H1|]. by rewrite H2, rev_app_distr.
Qed.

Lemma strip_same_intro s :
  (∀ c r, s = c :: r → is_space c = false) →
  (∀ c r, s = r ++ [c] → is_space c = false) →
  strip s = s.
Proof.
  intros Hfirst Hlast. apply strip_same. rewrite !skip_ws_same. split.
  - destruct s as [|c r]; [done|]. by apply (Hfirst c r).
  - destruct (rev s) as [|c r] eqn:Hr; [done|]. apply (Hlast c (rev r)).
    apply (f_equal (@rev _)) in Hr. by rewrite rev_involutive in Hr.
Qed.

(** ** The groups of FILE_BLOCK_RE *)

Lemma lazy_group_unfold {A} (rest : pystr → option A) acc t :
  lazy_group rest acc t =
  match rest t with
  | Some r => Some (rev acc, r)
  | None => match t with [] => None | c :: t' => lazy_group rest (c :: acc) t' end
  end.
Proof. by destruct t. Qed.

(** The group is the shortest one: the rest of the pattern matches after no
    shorter group. *)
Lemma lazy_group_first {A} (rest : pystr → option A) acc t g r :
  lazy_group rest acc t = Some (g, r) →
  ∃ s u, t = s ++ u ∧ g = rev acc ++ s ∧ rest u = Some r ∧
         ∀ s1 s2, s = s1 ++ s2 → s2 ≠ [] → rest (s2 ++ u) = None.
Proof.
  revert acc. induction t as [|c t IH]; intros acc; rewrite lazy_group_unfold.
  - destruct (rest []) as [r'|] eqn:Hr; [|done]. intros [= <- <-].
    exists [], []. rewrite !app_nil_r. do 3 (split; [done|]).
    intros s1 s2 Hs. by destruct s1, s2.
  - destruct (rest (c :: t)) as [r'|] eqn:Hr.
    + intros [= <- <-]. exists [], (c :: t). rewrite !app_nil_r. do 3 (split; [done|]).
      intros s1 s2 Hs. by destruct s1, s2.
    + intros (s & u & -> & -> & Hu & Hmin)%IH. exists (c :: s), u.
      split; [done|]. split; [simpl; by rewrite <- app_assoc|]. split; [done|].
      intros s1 s2 Hs Hne. destruct s1 as [|c' s1].
      * simpl in Hs. subst s2. done.
      * injection Hs as -> ->. by apply (Hmin s1 s2).
Qed.

Lemma lazy_group_exact {A} (rest : pystr → option A) acc s u r :
  rest u = Some r →
  (∀ s1 s2, s = s1 ++ s2 → s2 ≠ [] → rest (s2 ++ u) = None) →
  lazy_group rest acc (s ++ u) = Some (rev acc ++ s, r).
Proof.
  intros Hu. revert acc. induction s as [|c s IH]; intros acc Hmin; rewrite lazy_group_unfold.
  - simpl. by rewrite Hu, app_nil_r.
  - rewrite (Hmin [] (c :: s)) by done. simpl. rewrite IH.
    + simpl. by rewrite <- app_assoc.
    + intros s1 s2 -> Hne. by apply (Hmin (c :: s1) s2).
Qed.

Lemma match_end_blank c u : is_space c = true → match_end (c :: u) = match_end u.
Proof. intros Hc. unfold match_end. simpl. by rewrite Hc. Qed.

Lemma match_ndjson_block_blank c u :
  is_space c = true → match_ndjson_block (c :: u) = match_ndjson_block u.
Proof. intros Hc. unfold match_ndjson_block. by rewrite match_end_blank. Qed.

(** A lazy group that follows [\s*] and is followed by [\s*]: it is trimmed. *)
Lemma lazy_group_trimmed {A} (rest : pystr → option A) t g r :
  (∀ c u, is_space c = true → rest (c :: u) = rest u) →
  lazy_group rest [] (skip_ws t) = Some (g, r) →
  strip g = g ∧
  ∃ w u, forallb is_space w = true ∧ t = w ++ g ++ u ∧ rest u = Some r ∧
         ∀ s1 s2, g = s1 ++ s2 → s2 ≠ [] → rest (s2 ++ u) = None.
Proof.
  intros Hrest (s & u & Ht & -> & Hu & Hmin)%lazy_group_first. simpl. split.
  - apply strip_same_intro.
    + intros c r' ->. simpl in Ht. by apply skip_ws_head in Ht.
    + intros c r' ->. destruct (is_space c) eqn:Hc; [|done].
      pose proof (Hmin r' [c] eq_refl ltac:(done)) as Hn. simpl in Hn.
      rewrite Hrest in Hn by done. congruence.
  - destruct (skip_ws_split t) as (w & Hw & Hsplit). exists w, u.
    split; [done|]. split; [by rewrite Hsplit at 1; rewrite Ht|]. done.
Qed.

Lemma match_end_at_marker x : match_end (END_MARKER ++ x) = Some x.
Proof. apply match_end_Some. by destruct (END_MARKER_head x) as [r ->]. Qed.

Lemma match_end_split u r :
  match_end u = Some r → ∃ w, forallb is_space w = true ∧ u = w ++ END_MARKER ++ r.
Proof.
  intros Hu%match_end_Some. destruct (skip_ws_split u) as (w & Hw & Hsplit).
  exists w. split; [done|]. by rewrite <- Hu.
Qed.

Lemma match_ndjson_block_groups u n :
  match_ndjson_block u = Some n →
  strip n = n ∧ (∀ a b, n ≠ a ++ END_MARKER ++ b) ∧
  ∃ w2 gap w3 w4 post,
    forallb is_space w2 = true ∧ forallb is_space gap = true ∧
    forallb is_space w3 = true ∧ forallb is_space w4 = true ∧
    u = w2 ++ END_MARKER ++ gap ++ NDJSON_MARKER ++ w3 ++ n ++ w4 ++ END_MARKER ++ post.
Proof.
  unfold match_ndjson_block.
  intros (t1 & (w2 & Hw2 & ->)%match_end_split & Hu)%bind_Some.
  apply bind_Some in Hu as (t2 & H2%strip_prefix_app & Hu).
  apply fmap_Some in Hu as ([g post] & Hg & ->). simpl.
  destruct (lazy_group_trimmed match_end t2 g post match_end_blank Hg)
    as (Htrim & w3 & u2 & Hw3 & -> & (w4 & Hw4 & ->)%match_end_split & Hmin).
  split; [done|]. split.
  - intros a b ->. pose proof (Hmin a (END_MARKER ++ b) eq_refl) as Hn.
    rewrite <- app_assoc, match_end_at_marker in Hn. by discriminate Hn.
  - destruct (skip_ws_split t1) as (gap & Hgap & Ht1).
    exists w2, gap, w3, w4, post. do 4 (split; [done|]).
    by rewrite Ht1, H2.
Qed.

(** The groups of a match at the start of [t]: the texts between the
    markers, without the blanks around them. *)
Lemma match_here_groups t index_text ndjson_text :
  match_here t = Some (index_text, ndjson_text) →
  strip index_text = index_text ∧ strip ndjson_text = ndjson_text ∧
  (∀ a b, ndjson_text ≠ a ++ END_MARKER ++ b) ∧
  ∃ w1 w2 gap w3 w4 post,
    forallb is_space w1 = true ∧ forallb is_space w2 = true ∧
    forallb is_space gap = true ∧
    forallb is_space w3 = true ∧ forallb is_space w4 = true ∧
    t = INDEX_MARKER ++ w1 ++ index_text ++ w2 ++ END_MARKER ++ gap ++
        NDJSON_MARKER ++ w3 ++ ndjson_text ++ w4 ++ END_MARKER ++ post.
Proof.
  unfold match_here. intros (t0 & ->%strip_prefix_app & Hg)%bind_Some.
  destruct (lazy_group_trimmed match_ndjson_block t0 _ _ match_ndjson_block_blank Hg)
    as (Htrim & w1 & u & Hw1 & -> & Hu & _).
  apply match_ndjson_block_groups in Hu
    as (Hn & Hfree & w2 & gap & w3 & w4 & post & Hw2 & Hgap & Hw3 & Hw4 & ->).
  do 3 (split; [done|]). exists w1, w2, gap, w3, w4, post. done.
Qed.

Lemma FILE_BLOCK_RE_search_groups t index_text ndjson_text :
  FILE_BLOCK_RE_search t = Some (index_text, ndjson_text) →
  ∃ pre rest, t = pre ++ rest ∧ match_here rest = Some (index_text, ndjson_text) ∧
    ∀ p1 p2, pre = p1 ++ p2 → p2 ≠ [] → match_here (p2 ++ rest) = None.
Proof.
  induction t as [|c t IH]; rewrite FILE_BLOCK_RE_search_unfold.
  - destruct (match_here []) as [g|] eqn:Hm; [|done]. intros [= ->].
    exists [], []. do 2 (split; [done|]). intros p1 p2 Hp. by destruct p1, p2.
  - destruct (match_here (c :: t)) as [g|] eqn:Hm.
    + intros [= ->]. exists [], (c :: t). do 2 (split; [done|]).
      intros p1 p2 Hp. by destruct p1, p2.
    + intros (pre & rest & -> & Hrest & Hmin)%IH. exists (c :: pre), rest.
      do 2 (split; [done|]). intros p1 p2 Hp Hne. destruct p1 as [|c' p1].
      * simpl in Hp. by subst p2.
      * injection Hp as -> ->. by apply (Hmin p1 p2).
Qed.

(** ** The reply, read back *)

Lemma closes_first_suffix m s1 s2 :
  closes_first m (s1 ++ s2) = true → s2 ≠ [] → starts_with m (s2 ++ m) = false.
Proof.
  induction s1 as [|c s1 IH]; simpl.
  - destruct s2 as [|c s2]; [done|]. simpl.
    intros [Hn _]%andb_true_iff _. by apply negb_true_iff in Hn.
  - intros [_ Hrest]%andb_true_iff. by apply IH.
Qed.

Lemma starts_with_longer m u r :
  starts_with m (u ++ r) = true → (length m ≤ length u)%nat → starts_with m u = true.
Proof.
  rewrite !starts_with_app. intros [x Hx] Hlen. exists (drop (length m) u).
  apply (f_equal (take (length m))) in Hx.
  rewrite take_app_le, take_app_length in Hx by done.
  by rewrite <- Hx at 1; rewrite take_drop.
Qed.

Lemma starts_with_false m t : starts_with m t = false ↔ strip_prefix m t = None.
Proof.
  unfold starts_with. rewrite bool_decide_eq_false. split.
  - by intros ?%eq_None_not_Some.
  - intros ->. by intros [? ?].
Qed.

Lemma skip_ws_suffix s c r Y :
  s = r ++ [c] → is_space c = false →
  ∃ s1 s2, s = s1 ++ s2 ∧ s2 ≠ [] ∧ skip_ws (s ++ Y) = s2 ++ Y.
Proof.
  intros -> Hc. induction r as [|b r (s1 & s2 & Hs & Hne & Hskip)]; simpl.
  - rewrite Hc. by exists [], [c].
  - destruct (is_space b) eqn:Hb.
    + exists (b :: s1), s2. split; [simpl; by rewrite Hs|done].
    + by exists [], (b :: r ++ [c]).
Qed.

Lemma END_MARKER_not_blank : Forall (λ c, is_space c = false) END_MARKER.
Proof. by repeat constructor. Qed.

(** Inside a trimmed text that holds no closing marker, the closing marker
    is not found, whatever blanks follow the text. *)
Lemma match_end_inside a s1 s2 w X :
  strip a = a → closes_first END_MARKER a = true → forallb is_space w = true →
  a = s1 ++ s2 → s2 ≠ [] →
  match_end (s2 ++ w ++ END_MARKER ++ X) = None.
Proof.
  intros Ha Hfree Hw -> Hne.
  apply strip_same_ends in Ha as [Ha|(c1 & c2 & r1 & r2 & _ & Hlast & _ & Hc2)].
  { by destruct s1, s2. }
  assert (∃ r, s2 = r ++ [c2]) as [r Hr].
  { destruct s2 as [|x s2 _] using rev_ind; [done|].
    rewrite app_assoc in Hlast. apply app_inj_tail in Hlast as [_ ->]. by exists s2. }
  destruct (skip_ws_suffix s2 c2 r (w ++ END_MARKER ++ X) Hr Hc2) as (t1 & t2 & Ht & Hne2 & Hskip).
  unfold match_end. rewrite Hskip. apply starts_with_false.
  destruct (starts_with END_MARKER (t2 ++ w ++ END_MARKER ++ X)) eqn:Hs; [|done].
  assert (starts_with END_MARKER (t2 ++ END_MARKER) = false) as Hno.
  { apply (closes_first_suffix END_MARKER (s1 ++ t1) t2); [|done].
    by rewrite <- app_assoc, <- Ht. }
  destruct (decide (length END_MARKER ≤ length t2)%nat) as [Hlen|Hlen].
  - apply starts_with_longer in Hs; [|done].
    apply starts_with_app in Hs as [x ->].
    rewrite <- app_assoc in Hno. assert (starts_with END_MARKER (END_MARKER ++ x ++ END_MARKER) = true) as Hyes
      by (apply starts_with_app; by eexists).
    congruence.
  - destruct w as [|b w].
    + change ([] ++ END_MARKER ++ X) with (END_MARKER ++ X) in Hs.
      rewrite app_assoc in Hs. apply starts_with_longer in Hs; [congruence|].
      rewrite length_app. lia.
    + simpl in Hw. apply andb_true_iff in Hw as [Hb _].
      apply starts_with_app in Hs as [x Hx].
      assert ((t2 ++ (b :: w) ++ END_MARKER ++ X) !! length t2 = Some b) as Hlook
        by by rewrite lookup_app_r, Nat.sub_diag.
      rewrite Hx, lookup_app_l in Hlook by lia.
      pose proof (Forall_lookup_1 _ _ _ _ END_MARKER_not_blank Hlook) as Hnb. simpl in Hnb.
      congruence.
Qed.

Lemma skip_ws_blanks_marker w X : forallb is_space w = true →
  skip_ws (w ++ END_MARKER ++ X) = END_MARKER ++ X.
Proof. intros Hw. destruct (END_MARKER_head X) as [r ->]. by apply skip_ws_blanks. Qed.

Lemma match_end_blanks w X : forallb is_space w = true → match_end (w ++ END_MARKER ++ X) = Some X.
Proof. intros Hw. apply match_end_Some. by apply skip_ws_blanks_marker. Qed.

Lemma skip_ws_app_blanks w t : forallb is_space w = true → skip_ws (w ++ t) = skip_ws t.
Proof.
  induction w as [|b w IH]; simpl; [done|]. intros [-> Hw]%andb_true_iff. by apply IH.
Qed.

(** A trimmed group closed by its first closing marker is the group the
    pattern finds. *)
Lemma lazy_group_reads {A} (rest : pystr → option A) w3 b u r :
  forallb is_space w3 = true → strip b = b →
  (∀ c u, is_space c = true → rest (c :: u) = rest u) →
  rest u = Some r →
  (∀ s1 s2, b = s1 ++ s2 → s2 ≠ [] → rest (s2 ++ u) = None) →
  lazy_group rest [] (skip_ws (w3 ++ b ++ u)) = Some (b, r).
Proof.
  intros Hw3 Hb Hrest Hu Hmin. rewrite skip_ws_app_blanks by done.
  apply strip_same in Hb as [Hb _]. apply skip_ws_same in Hb.
  destruct b as [|c b].
  - simpl. destruct (skip_ws_split u) as (w & Hw & Hsplit).
    assert (rest (skip_ws u) = Some r) as Hu'.
    { rewrite Hsplit in Hu. revert Hu. clear -Hrest Hw.
      induction w as [|x w IH]; simpl; [done|]. simpl in Hw.
      apply andb_true_iff in Hw as [Hx Hw]. rewrite Hrest by done. by apply IH. }
    rewrite lazy_group_unfold, Hu'. done.
  - change (skip_ws ((c :: b) ++ u)) with (skip_ws (c :: b ++ u)). simpl. rewrite Hb.
    by apply (lazy_group_exact rest [] (c :: b) u r).
Qed.

Lemma match_ndjson_block_reads w2 gap w3 b w4 post :
  forallb is_space w2 = true → forallb is_space gap = true →
  forallb is_space w3 = true → forallb is_space w4 = true →
  strip b = b → closes_first END_MARKER b = true →
  match_ndjson_block
    (w2 ++ END_MARKER ++ gap ++ NDJSON_MARKER ++ w3 ++ b ++ w4 ++ END_MARKER ++ post)
  = Some b.
Proof.
  intros Hw2 Hgap Hw3 Hw4 Hb Hfree. unfold match_ndjson_block.
  rewrite match_end_blanks by done. cbn [mbind option_bind].
  assert (skip_ws (gap ++ NDJSON_MARKER ++ w3 ++ b ++ w4 ++ END_MARKER ++ post)
          = NDJSON_MARKER ++ w3 ++ b ++ w4 ++ END_MARKER ++ post) as ->.
  { destruct (NDJSON_MARKER_head (w3 ++ b ++ w4 ++ END_MARKER ++ post)) as [r ->].
    by apply skip_ws_blanks. }
  assert (strip_prefix NDJSON_MARKER (NDJSON_MARKER ++ w3 ++ b ++ w4 ++ END_MARKER ++ post)
          = Some (w3 ++ b ++ w4 ++ END_MARKER ++ post)) as -> by by apply strip_prefix_app.
  cbn [mbind option_bind].
  rewrite (lazy_group_reads match_end w3 b (w4 ++ END_MARKER ++ post) post); try done.
  - apply match_end_blank.
  - by apply match_end_blanks.
  - intros s1 s2 Hs Hne. by apply (match_end_inside b s1 s2 w4 post).
Qed.

Lemma match_here_reads w1 a w2 gap w3 b w4 post :
  forallb is_space w1 = true → forallb is_space w2 = true →
  forallb is_space gap = true →
  forallb is_space w3 = true → forallb is_space w4 = true →
  strip a = a → closes_first END_MARKER a = true →
  strip b = b → closes_first END_MARKER b = true →
  match_here
    (INDEX_MARKER ++ w1 ++ a ++ w2 ++ END_MARKER ++ gap ++
     NDJSON_MARKER ++ w3 ++ b ++ w4 ++ END_MARKER ++ post)
  = Some (a, b).
Proof.
  intros Hw1 Hw2 Hgap Hw3 Hw4 Ha Hfa Hb Hfb. unfold match_here.
  set (rest := w2 ++ END_MARKER ++ gap ++ NDJSON_MARKER ++ w3 ++ b ++ w4 ++ END_MARKER ++ post).
  assert (strip_prefix INDEX_MARKER (INDEX_MARKER ++ w1 ++ a ++ rest) = Some (w1 ++ a ++ rest))
    as -> by by apply strip_prefix_app.
  cbn [mbind option_bind].
  apply lazy_group_reads; try done.
  - apply match_ndjson_block_blank.
  - by apply match_ndjson_block_reads.
  - intros s1 s2 Hs Hne. unfold match_ndjson_block, rest.
    by rewrite (match_end_inside a s1 s2 w2 _ Ha Hfa Hw2 Hs Hne).
Qed.

Lemma FILE_BLOCK_RE_search_skips pre rest g :
  (∀ p1 p2, pre = p1 ++ p2 → p2 ≠ [] → match_here (p2 ++ rest) = None) →
  match_here rest = Some g →
  FILE_BLOCK_RE_search (pre ++ rest) = Some g.
Proof.
  intros Hmin Hg. induction pre as [|c pre IH]; rewrite FILE_BLOCK_RE_search_unfold.
  - simpl. by rewrite Hg.
  - rewrite (Hmin [] (c :: pre)) by done. simpl. apply IH.
    intros p1 p2 -> Hne. by apply (Hmin (c :: p1) p2).
Qed.

Lemma match_here_before pre p1 p2 X :
  closes_first INDEX_MARKER pre = true → pre = p1 ++ p2 → p2 ≠ [] →
  match_here (p2 ++ INDEX_MARKER ++ X) = None.
Proof.
  intros Hfree -> Hne. unfold match_here.
  assert (strip_prefix INDEX_MARKER (p2 ++ INDEX_MARKER ++ X) = None) as ->; [|done].
  apply starts_with_false.
  destruct (starts_with INDEX_MARKER (p2 ++ INDEX_MARKER ++ X)) eqn:Hs; [|done].
  rewrite app_assoc in Hs. apply starts_with_longer in Hs.
  - by rewrite (closes_first_suffix _ p1 p2) in Hs.
  - rewrite length_app. lia.
Qed.

Lemma closes_first_intro m t :
  (∀ s1 s2, t = s1 ++ s2 → s2 ≠ [] → starts_with m (s2 ++ m) = false) →
  closes_first m t = true.
Proof.
  induction t as [|c t IH]; simpl; [done|]. intros Hall.
  apply andb_true_iff. split.
  - apply negb_true_iff. by apply (Hall [] (c :: t)).
  - apply IH. intros s1 s2 -> Hne. by apply (Hall (c :: s1) s2).
Qed.

(** X1: the two groups [FILE_BLOCK_RE] finds are the texts between the
    markers, without the blanks around them: the reply is some text, the
    index marker, blanks, the [index] group, blanks, the closing marker,
    blanks, the marker of the resolution block, blanks, the [ndjson] group,
    blanks, the closing marker and some text.  Both groups are trimmed, so
    the [strip()] the caller applies to them removes nothing. *)
Theorem file_blocks_between_markers t index_text ndjson_text :
  FILE_BLOCK_RE_search t = Some (index_text, ndjson_text) →
  strip index_text = index_text ∧ strip ndjson_text = ndjson_text ∧
  ∃ pre w1 w2 gap w3 w4 post,
    forallb is_space w1 = true ∧ forallb is_space w2 = true ∧
    forallb is_space gap = true ∧
    forallb is_space w3 = true ∧ forallb is_space w4 = true ∧
    t = pre ++ INDEX_MARKER ++ w1 ++ index_text ++ w2 ++ END_MARKER ++ gap ++
        NDJSON_MARKER ++ w3 ++ ndjson_text ++ w4 ++ END_MARKER ++ post.
Proof.
  intros (pre & rest & -> & Hm & _)%FILE_BLOCK_RE_search_groups.
  apply match_here_groups in Hm
    as (Hi & Hn & _ & w1 & w2 & gap & w3 & w4 & post & Hw1 & Hw2 & Hgap & Hw3 & Hw4 & ->).
  do 2 (split; [done|]). by exists pre, w1, w2, gap, w3, w4, post.
Qed.

(** X2: the blocks are read from the first index marker of the reply, and
    the resolution block ends at the first closing marker after its own
    marker: the [ndjson] group holds no closing marker. *)
Theorem file_blocks_first_markers t index_text ndjson_text :
  FILE_BLOCK_RE_search t = Some (index_text, ndjson_text) →
  (∃ pre rest,
     t = pre ++ INDEX_MARKER ++ rest ∧ closes_first INDEX_MARKER pre = true ∧
     match_here (INDEX_MARKER ++ rest) = Some (index_text, ndjson_text)) ∧
  (∀ a b, ndjson_text ≠ a ++ END_MARKER ++ b).
Proof.
  intros (pre & rest & -> & Hm & Hmin)%FILE_BLOCK_RE_search_groups.
  destruct (match_here_groups _ _ _ Hm)
    as (_ & _ & Hfree & w1 & w2 & gap & w3 & w4 & post & _ & _ & Hgap & _ & _ & Hrest).
  split; [|done].
  exists pre, (w1 ++ index_text ++ w2 ++ END_MARKER ++ gap ++
               NDJSON_MARKER ++ w3 ++ ndjson_text ++ w4 ++ END_MARKER ++ post).
  rewrite <- Hrest. split; [done|]. split; [|done].
  apply closes_first_intro. intros p1 p2 Hp Hne.
  destruct (starts_with INDEX_MARKER (p2 ++ INDEX_MARKER)) eqn:Hs; [|done].
  apply starts_with_app in Hs as [y Hy].
  pose proof (Hmin p1 p2 Hp Hne) as Hnone.
  destruct (match_here_finds (y ++ w1 ++ index_text ++ w2) gap (w3 ++ ndjson_text ++ w4) post Hgap)
    as [g Hg].
  rewrite Hrest, (app_assoc p2), Hy in Hnone.
  rewrite <- ?app_assoc in Hg. rewrite <- ?app_assoc in Hnone. congruence.
Qed.

(** X3: a reply in the expected layout is read back as it was written.
    When no index marker starts before the one of the reply, the two
    documents are trimmed and each is closed by the first closing marker
    after it, the groups found are the two documents, whatever text comes
    before and after the blocks and whatever blanks separate the markers
    from the documents. *)
Theorem well_formed_reply_read_back pre w1 a w2 gap w3 b w4 post :
  closes_first INDEX_MARKER pre = true →
  forallb is_space w1 = true → forallb is_space w2 = true →
  forallb is_space gap = true →
  forallb is_space w3 = true → forallb is_space w4 = true →
  strip a = a → closes_first END_MARKER a = true →
  strip b = b → closes_first END_MARKER b = true →
  FILE_BLOCK_RE_search
    (pre ++ INDEX_MARKER ++ w1 ++ a ++ w2 ++ END_MARKER ++ gap ++
     NDJSON_MARKER ++ w3 ++ b ++ w4 ++ END_MARKER ++ post)
  = Some (a, b).
Proof.
  intros Hpre Hw1 Hw2 Hgap Hw3 Hw4 Ha Hfa Hb Hfb.
  apply FILE_BLOCK_RE_search_skips.
  - intros p1 p2 Hp Hne. by apply (match_here_before pre p1 p2).
  - by apply match_here_reads.
Qed.

(** ** The lines of the resolution block *)

Lemma clean_line_spec ln :
  clean_line ln = true ↔
  ln ≠ [] ∧ strip ln = ln ∧ Forall (λ c, is_linebreak c = false) ln.
Proof.
  unfold clean_line. rewrite !andb_true_iff, negb_true_iff, bool_decide_eq_false,
    bool_decide_eq_true, forallb_forall, Forall_forall.
  split.
  - intros [[? ?] Hall]. do 2 (split; [done|]). intros c Hc%list_elem_of_In.
    by apply negb_true_iff, Hall.
  - intros (? & ? & Hall). split; [done|]. intros c Hc.
    by apply negb_true_iff, Hall, list_elem_of_In.
Qed.

Lemma splitlines_from_unfold cur t :
  splitlines_from cur t =
  match t with
  | [] => match cur with [] => [] | _ => [rev cur] end
  | c :: t' =>
      if is_linebreak c then
        match c, t' with
        | 13%N, 10%N :: t'' => rev cur :: splitlines_from [] t''
        | _, _ => rev cur :: splitlines_from [] t'
        end
      else splitlines_from (c :: cur) t'
  end.
Proof. by destruct t. Qed.

Lemma splitlines_from_line cur l rest :
  Forall (λ c, is_linebreak c = false) l →
  splitlines_from cur (l ++ rest) = splitlines_from (rev l ++ cur) rest.
Proof.
  intros Hl. revert cur. induction Hl as [|c l Hc Hl IH]; intros cur; [done|].
  rewrite <- app_comm_cons, splitlines_from_unfold, Hc, IH. simpl.
  by rewrite <- app_assoc.
Qed.

Lemma splitlines_join ls :
  Forall (λ l, l ≠ [] ∧ Forall (λ c, is_linebreak c = false) l) ls →
  splitlines (join NEWLINE ls) = ls.
Proof.
  unfold splitlines. induction 1 as [|l ls [Hne Hl] Hls IH]; [done|].
  destruct ls as [|l2 ls].
  - simpl. rewrite <- (app_nil_r l) at 1. rewrite splitlines_from_line by done.
    rewrite app_nil_r. simpl. destruct (rev l) eqn:Hr.
    + apply (f_equal (@rev _)) in Hr. rewrite rev_involutive in Hr. done.
    + by rewrite <- Hr, rev_involutive.
  - change (join NEWLINE (l :: l2 :: ls)) with (l ++ NEWLINE ++ join NEWLINE (l2 :: ls)).
    rewrite splitlines_from_line by done. rewrite app_nil_r.
    unfold NEWLINE at 1. change ([10%N] ++ ?x) with (10%N :: x).
    rewrite splitlines_from_unfold.
    change (is_linebreak 10) with true. cbv iota. rewrite rev_involutive, IH. done.
Qed.

Lemma join_cons_app sep l ls : ∃ r, join sep (l :: ls) = l ++ r.
Proof. destruct ls; [exists []; simpl; by rewrite app_nil_r|by eexists]. Qed.

Lemma join_last_app sep ls l : ∃ r, join sep (ls ++ [l]) = r ++ l.
Proof.
  induction ls as [|x ls [r IH]]; [by exists []|].
  destruct ls as [|y ls]; simpl in *.
  - exists (x ++ sep). by rewrite <- app_assoc.
  - exists (x ++ sep ++ r). rewrite IH. by rewrite <- !app_assoc.
Qed.

Lemma join_nil_inv sep ls : Forall (λ l, l ≠ []) ls → join sep ls = [] → ls = [].
Proof.
  intros Hls. destruct Hls as [|l ls Hl _]; [done|].
  destruct (join_cons_app sep l ls) as [r ->]. by destruct l.
Qed.

(** Trimmed lines joined by line feeds make a trimmed text. *)
Lemma strip_join_lines ls :
  Forall (λ l, l ≠ [] ∧ strip l = l) ls → strip (join NEWLINE ls) = join NEWLINE ls.
Proof.
  intros Hls. apply strip_same_intro.
  - intros c r Hj. destruct Hls as [|l ls [Hne Hl] _]; [done|].
    destruct (join_cons_app NEWLINE l ls) as [x Hx]. rewrite Hx in Hj.
    apply strip_same_ends in Hl as [->|(c1 & c2 & r1 & r2 & -> & _ & Hc1 & _)]; [done|].
    by injection Hj as <- _.
  - intros c r Hj. destruct ls as [|l ls _] using rev_ind; [by destruct r|].
    apply Forall_app in Hls as [_ [[Hne Hl] _]%Forall_cons].
    destruct (join_last_app NEWLINE ls l) as [x Hx]. rewrite Hx in Hj.
    apply strip_same_ends in Hl as [->|(c1 & c2 & r1 & r2 & _ & -> & _ & Hc2)]; [done|].
    rewrite app_assoc in Hj. by apply app_inj_tail in Hj as [_ ->].
Qed.

Lemma clean_line_spec_1 ln :
  clean_line ln = true → ln ≠ [] ∧ strip ln = ln ∧ Forall (λ c, is_linebreak c = false) ln.
Proof. apply clean_line_spec. Qed.

Lemma nonblank_lines_join ls :
  Forall (λ ln, clean_line ln = true) ls → nonblank_lines (strip (join NEWLINE ls)) = ls.
Proof.
  intros Hls0. pose proof (Forall_impl _ _ _ Hls0 clean_line_spec_1) as Hls. clear Hls0.
  rewrite strip_join_lines.
  2:{ eapply Forall_impl; [exact Hls|]. by intros l (? & ? & ?). }
  unfold nonblank_lines. rewrite splitlines_join.
  2:{ eapply Forall_impl; [exact Hls|]. by intros l (? & ? & ?). }
  induction Hls as [|l ls (Hne & Hl & _) _ IH]; [done|].
  simpl. rewrite Hl. rewrite filter_cons_True by done. by f_equal.
Qed.

(* invariants of the lines *)

Lemma skip_ws_Forall (P : N → Prop) t : Forall P t → Forall P (skip_ws t).
Proof.
  destruct (skip_ws_split t) as (w & _ & Ht). intros HP. rewrite Ht in HP.
  by apply Forall_app in HP as [_ ?].
Qed.

Lemma strip_Forall (P : N → Prop) t : Forall P t → Forall P (strip t).
Proof.
  intros HP. unfold strip. apply Forall_rev, skip_ws_Forall, Forall_rev, skip_ws_Forall, HP.
Qed.

Lemma splitlines_from_Forall n cur t :
  (length t ≤ n)%nat →
  Forall (λ c, is_linebreak c = false) cur →
  Forall (Forall (λ c, is_linebreak c = false)) (splitlines_from cur t).
Proof.
  revert cur t. induction n as [|n IH]; intros cur t Hlen Hcur.
  - destruct t; [|simpl in Hlen; lia]. simpl. destruct cur; [done|].
    constructor; [|done]. by apply Forall_rev.
  - rewrite splitlines_from_unfold. destruct t as [|c t].
    + destruct cur; [done|]. constructor; [|done]. by apply Forall_rev.
    + simpl in Hlen. destruct (is_linebreak c) eqn:Hc.
      * assert (Forall (Forall (λ c, is_linebreak c = false)) (rev cur :: splitlines_from [] t)) as H1.
        { constructor; [by apply Forall_rev|]. apply IH; [lia|done]. }
        assert (∀ t'', t = 10%N :: t'' →
                  Forall (Forall (λ c, is_linebreak c = false))
                    (rev cur :: splitlines_from [] t'')) as H2.
        { intros t'' ->. constructor; [by apply Forall_rev|]. apply IH; [simpl in Hlen; lia|done]. }
        destruct c as [|p]; [done|].
        repeat (destruct p as [p|p|]; try exact H1).
        destruct t as [|d t]; [exact H1|].
        destruct d as [|q]; [exact H1|].
        repeat (destruct q as [q|q|]; try exact H1).
        by apply H2.
      * apply IH; [lia|]. by constructor.
Qed.

(** X4: the lines of a resolution block are read back as they were
    written: lines that are not empty, trimmed and free of line-break
    characters, joined by line feeds, are the lines the writer loop goes
    through, in their order. *)
Theorem resolution_lines_read_back ls :
  forallb clean_line ls = true →
  nonblank_lines (strip (join NEWLINE ls)) = ls.
Proof.
  intros Hls. apply nonblank_lines_join. apply Forall_forall.
  intros ln Hln%list_elem_of_In. by apply (proj1 (forallb_forall _ _) Hls).
Qed.

(** X5: every line the writer loop hands to [json.loads] is not empty, is
    trimmed and holds no character at which [splitlines] cuts, whatever the
    text of the block. *)
Theorem resolution_lines_are_clean t : forallb clean_line (nonblank_lines t) = true.
Proof.
  apply forallb_forall. intros ln Hln%list_elem_of_In. apply clean_line_spec.
  unfold nonblank_lines in Hln. apply list_elem_of_filter in Hln as [Hne Hin].
  apply list_elem_of_fmap in Hin as (raw & -> & Hraw). split; [done|].
  split; [apply strip_strip|]. apply strip_Forall.
  pose proof (splitlines_from_Forall (length t) [] t (le_n _) (Forall_nil_2 _)) as Hall.
  by apply (proj1 (Forall_forall _ _) Hall).
Qed.

(** ** The index after a run *)

(** X6: [normalize_index] is idempotent: normalising a normalised index
    changes nothing. *)
Theorem normalize_index_idempotent obj :
  normalize_index (PDict (normalize_index obj)) = normalize_index obj.
Proof.
  apply normalize_index_fixed; [apply normalize_index_present|apply normalize_index_shape].
Qed.

Lemma index_shape_detail_index d : index_shape d → is_Some (dict_get d (lit "detail_index")).
Proof. intros (di & items & -> & _). by eexists. Qed.

Lemma with_resolutions_present index di items k :
  is_Some (dict_get index k) → is_Some (dict_get (with_resolutions index di items) k).
Proof. apply dict_set_is_Some. Qed.

Section run_results.
Context `{Builtins}.

(** The index a run returns is a fixed point of the normaliser. *)
Lemma parse_model_output_to_context_normal out_text st M st' :
  parse_model_output_to_context out_text st = (Ok M, st') →
  normalize_index (PDict M) = M.
Proof.
  intros (index_text & ndjson_text & doc & run & D & _ & _ & _ & HD & HM & _)
    %parse_model_output_to_context_Ok.
  destruct (fix_directory_normalized (id_remap run) (written_ids run) doc)
    as (di & items & _ & _ & _ & HD').
  rewrite HD' in HD. injection HD as <-.
  set (D := with_resolutions _ _ _) in *.
  assert (index_shape D) as HshapeD by apply with_resolutions_shape.
  destruct (index_file st) as [| |S0] eqn:Hst.
  - cbn [final_index read_existing_index] in HM. injection HM as <-.
    apply normalize_index_fixed; [|done].
    intros k Hk. by apply with_resolutions_present, normalize_index_present.
  - cbn [final_index read_existing_index] in HM. injection HM as <-.
    apply normalize_index_fixed; [|done].
    intros k Hk. by apply with_resolutions_present, normalize_index_present.
  - rewrite final_index_persisted in HM. by apply (merge_index_normal S0 D M).
Qed.

(** X7: the index a successful run returns and stores has every field of
    the schema, its [detail_index] is a dict whose [resolutions] is a list,
    and it is a fixed point of [normalize_index]: the next run reads back
    from [index.json] exactly the index this run returned. *)
Theorem returned_index_is_normal out_text st M st' :
  parse_model_output_to_context out_text st = (Ok M, st') →
  (∀ k, k ∈ index_defaults.*1 → is_Some (dict_get M k)) ∧
  index_shape M ∧
  normalize_index (PDict M) = M ∧
  read_existing_index (index_file st') = Some M.
Proof.
  intros Hrun. pose proof (parse_model_output_to_context_normal _ _ _ _ Hrun) as Hfix.
  split; [|split; [|split; [done|]]].
  - intros k Hk. rewrite <- Hfix. by apply normalize_index_present.
  - rewrite <- Hfix. apply normalize_index_shape.
  - apply parse_model_output_to_context_Ok in Hrun
      as (? & ? & ? & run & ? & _ & _ & _ & _ & _ & ->).
    simpl. by rewrite Hfix.
Qed.

(** X8: whatever the outcome of a run, the resolution files that were
    there are unchanged.  A run that raises leaves [index.json] as it was,
    with one exception: when the lines are written and the index is merged,
    and [json.dump] raises on the merged index, the file is left unreadable,
    emptied by [open] and filled with the start of the index.  When the
    index block of the reply is no JSON, the run raises before it writes
    anything: the store is as it was. *)
Theorem index_after_failed_run out_text st :
  let run := parse_model_output_to_context out_text st in
  (∀ name, name ∈ dom (res_files st) → res_files run.2 !! name = res_files st !! name) ∧
  (∀ e, run.1 = Raise e →
     index_file run.2 = index_file st ∨
     index_file run.2 = Unreadable ∧
     ∃ index_text ndjson_text doc written D M,
       FILE_BLOCK_RE_search out_text = Some (index_text, ndjson_text) ∧
       json_loads (strip index_text) = Some doc ∧
       write_lines (mkRun (res_files st) ∅ [] ∅) (nonblank_lines (strip ndjson_text))
         = (written, None) ∧
       fix_directory (id_remap written) (written_ids written) (normalize_index doc) = Ok D ∧
       final_index (read_existing_index (index_file st)) D = Ok M ∧
       dump_error (PDict M) = Some e) ∧
  (∀ index_text ndjson_text,
     FILE_BLOCK_RE_search out_text = Some (index_text, ndjson_text) →
     json_loads (strip index_text) = None →
     run = (Raise JSONDecodeError, st)).
Proof.
  intros run. subst run. unfold parse_model_output_to_context.
  destruct (FILE_BLOCK_RE_search out_text) as [[index_text ndjson_text]|]; [|by split; [|split; [left|]]].
  destruct (json_loads (strip index_text)) as [doc|] eqn:Hdoc.
  2:{ split; [done|]. split; [by left|]. by intros ? ? [= <- <-]. }
  assert (∀ i n, Some (index_text, ndjson_text) = Some (i, n) →
            json_loads (strip i) = None → False) as Hdec.
  { intros i n [= <- <-] Hnone. by rewrite Hnone in Hdoc. }
  cbv zeta.
  destruct (write_lines _ _) as [written e] eqn:Hrun.
  destruct (write_lines_directory _ _ _ _ Hrun) as (_ & Hold & _).
  destruct e as [e|].
  - split; [done|]. split; [by left|]. intros i n Hi Hn. by destruct (Hdec i n).
  - unfold mbind, result_bind.
    destruct (fix_directory _ _ _) as [D|e] eqn:HD.
    2:{ split; [done|]. split; [by left|]. intros i n Hi Hn. by destruct (Hdec i n). }
    destruct (final_index _ D) as [M|e] eqn:HM.
    2:{ split; [done|]. split; [by left|]. intros i n Hi Hn. by destruct (Hdec i n). }
    unfold write_index. destruct (dump_error (PDict M)) as [e|] eqn:Hdump.
    + split; [done|]. split; [|intros i n Hi Hn; by destruct (Hdec i n)].
      intros e' [= <-]. right. split; [done|].
      by exists index_text, ndjson_text, doc, written, D, M.
    + split; [done|]. split; [done|]. intros i n Hi Hn. by destruct (Hdec i n).
Qed.

End run_results.

(** A reply whose index holds a lone surrogate: the record is written, the
    merged index cannot be, and [index.json], which held the sample index,
    is left unreadable. *)
Example unencodable_index_sample :
  index_file sample_store = Holds sample_persisted ∧
  surrogate_run.1 = Raise UnicodeEncodeError ∧
  index_file surrogate_run.2 = Unreadable ∧
  res_files surrogate_run.2 !! lit "res-002.json"
    = Some (Document (with_id twin_a (lit "res-002"))).
Proof. by_evaluation. Qed.

Lemma dict_set_keys (d : pydict) k v :
  is_Some (dict_get d k) → (dict_set d k v).*1 = d.*1.
Proof.
  induction d as [|[k' v'] d IH]; simpl.
  - by intros [? ?].
  - destruct (decide (k' = k)); [done|]. intros Hk. cbn. f_equal. by apply IH.
Qed.

Section merged_index.
Context `{Builtins}.

Lemma merged_fields_keys S D :
  (∀ k, k ∈ index_defaults.*1 → is_Some (dict_get S k)) →
  (merged_fields S D).*1 = S.*1.
Proof.
  intros HS. unfold merged_fields, latest_wins, union_wins.
  repeat (rewrite dict_set_keys;
    [|repeat apply dict_set_is_Some; apply HS; vm_compute; set_solver]).
  done.
Qed.

(** X9: the directory only grows.  With a previous index, the merged
    [detail_index.resolutions] starts with the previous entries (the first
    entry of every id) and goes on with entries of the reply whose id is
    that of no previous entry: an entry of the reply never replaces a
    previous one.  The directory of a merged index is then a prefix of the
    directory after any later merge. *)
Theorem directory_entries_stay (S0 : pyval) (D : pydict) :
  index_shape D →
  let previous := fresh entry_id ∅ (directory (normalize_index S0)) in
  ∃ M added,
    final_index (read_existing_index (Holds S0)) D = Ok M ∧
    directory M = previous ++ added ∧
    (∀ it, it ∈ added →
       it ∈ directory D ∧ ∀ old, old ∈ previous → entry_id it ≠ entry_id old) ∧
    (∀ D', index_shape D' →
       ∃ M' added',
         final_index (read_existing_index (Holds (PDict M))) D' = Ok M' ∧
         directory M' = directory M ++ added').
Proof.
  intros HD previous. rewrite final_index_persisted.
  destruct (merge_index_directory (normalize_index S0) D (normalize_index_shape S0) HD)
    as (M & HM & Hdir & _).
  rewrite fresh_app in Hdir.
  exists M, (fresh entry_id (∅ ∪ keys_of entry_id (directory (normalize_index S0))) (directory D)).
  split; [done|]. split; [done|]. split.
  - intros it (Hin & k & Hk & Hnew)%elem_of_fresh. split; [done|].
    intros old (Hold & k' & Hk' & _)%elem_of_fresh. rewrite Hk, Hk'. intros [= <-].
    apply Hnew. apply elem_of_union_r. unfold keys_of. apply elem_of_list_to_set.
    apply list_elem_of_omap. by exists old.
  - intros D' HD'. rewrite final_index_persisted.
    rewrite (merge_index_normal S0 D M HM HD).
    assert (index_shape M) as HshapeM.
    { rewrite <- (merge_index_normal S0 D M HM HD). apply normalize_index_shape. }
    destruct (merge_index_directory M D' HshapeM HD') as (M' & HM' & Hdir' & _).
    rewrite fresh_app in Hdir'.
    exists M', (fresh entry_id (∅ ∪ keys_of entry_id (directory M)) (directory D')).
    split; [done|]. rewrite Hdir'. f_equal.
    rewrite Hdir at 1 2. rewrite <- fresh_app. apply fresh_fresh.
Qed.

(** X10: the merged [environment] has the keys [os], [runtime], [tools]
    and [paths] and no other; [os] and [runtime] are those of the reply's
    environment when it has the key (an explicit [null] included), and the
    previous ones otherwise. *)
Theorem environment_merge (S0 : pyval) (D : pydict) :
  index_shape D →
  let env_old := dict_or_empty (dict_get_none (normalize_index S0) (lit "environment")) in
  let env_new := dict_or_empty (dict_get_none D (lit "environment")) in
  ∃ M env,
    final_index (read_existing_index (Holds S0)) D = Ok M ∧
    dict_get M (lit "environment") = Some (PDict env) ∧
    env.*1 = [lit "os"; lit "runtime"; lit "tools"; lit "paths"] ∧
    (∀ k, k ∈ [lit "os"; lit "runtime"] →
       dict_get env k = Some (dict_get_default env_new k (dict_get_none env_old k))).
Proof.
  intros HD env_old env_new.
  destruct (final_index_fields S0 D HD) as (M & HM & _ & _ & He).
  exists M, (merge_environment env_old env_new). do 2 (split; [done|]). split; [done|].
  intros k. rewrite !elem_of_cons, elem_of_nil.
  intros [->|[->|[]]]; unfold merge_environment; by dget.
Qed.

(** X11: the merge keeps the keys of the persisted index, in their order,
    and changes no field outside the merge policies: [context_version] and
    any field the schema does not name keep the persisted value, and a field
    only the reply has is not stored. *)
Theorem unmerged_fields_stay (S0 : pyval) (D : pydict) :
  index_shape D →
  ∃ M,
    final_index (read_existing_index (Holds S0)) D = Ok M ∧
    M.*1 = (normalize_index S0).*1 ∧
    (∀ k, k ∉ latest_keys ++ union_keys ++ [lit "environment"; lit "detail_index"] →
       dict_get M k = dict_get (normalize_index S0) k) ∧
    dict_get M (lit "context_version") = dict_get (normalize_index S0) (lit "context_version").
Proof.
  intros HD. rewrite final_index_persisted.
  destruct (normalize_index_shape S0) as (di & itemsS & HS & Hdi).
  destruct HD as (diD & itemsD & HD & HdiD).
  rewrite (merge_index_result _ _ _ _ _ _ HS Hdi HD HdiD).
  eexists. split; [done|].
  assert (∀ k, k ∉ latest_keys ++ union_keys ++ [lit "environment"; lit "detail_index"] →
    dict_get (dict_set (merged_fields (normalize_index S0) D) (lit "detail_index")
       (PDict (dict_set di (lit "resolutions") (PList (fresh entry_id ∅ (itemsS ++ itemsD))))))
      k = dict_get (normalize_index S0) k) as Hother.
  { intros k Hk. rewrite dict_get_set_ne by set_solver.
    apply merged_fields_other. set_solver. }
  split; [|split; [done|]].
  - rewrite dict_set_keys.
    + apply merged_fields_keys. apply normalize_index_present.
    + apply merged_fields_is_Some. by rewrite HS.
  - apply Hother. apply (bool_decide_unpack _). vm_compute. exact I.
Qed.

End merged_index.

Section more_runs.
Context `{Builtins}.

(** X12: with a previous index, a field among [project], [current_state]
    and [next_actions] that the reply leaves out ends up with the default of
    [normalize_index] ([unknown], the empty string, the empty list), not
    with the persisted value; and when the reply leaves [environment] out,
    the merged [os] and [runtime] are [None]. *)
Theorem omitted_fields_reset out_text st S0 M st' index_text ndjson_text doc :
  index_file st = Holds S0 →
  parse_model_output_to_context out_text st = (Ok M, st') →
  FILE_BLOCK_RE_search out_text = Some (index_text, ndjson_text) →
  json_loads (strip index_text) = Some doc →
  (∀ k, k ∈ latest_keys → dict_get (dict_or_empty doc) k = None →
        dict_get M k = dict_get index_defaults k) ∧
  (dict_get (dict_or_empty doc) (lit "environment") = None →
   ∃ env, dict_get M (lit "environment") = Some (PDict env) ∧
          dict_get env (lit "os") = Some PNone ∧
          dict_get env (lit "runtime") = Some PNone).
Proof.
  intros Hst (it & nt & doc' & run & D & Hs & Hdoc & _ & HD & HM & _)%parse_model_output_to_context_Ok
         Hs' Hdoc'.
  rewrite Hs' in Hs. injection Hs as <- <-. rewrite Hdoc' in Hdoc. injection Hdoc as <-.
  destruct (fix_directory_normalized (id_remap run) (written_ids run) doc)
    as (di & items & _ & _ & _ & HD').
  rewrite HD' in HD. injection HD as <-. rewrite Hst in HM.
  destruct (final_index_fields S0 _ (with_resolutions_shape (normalize_index doc) di
     (fixed_items (id_remap run) (written_ids run) items))) as (M' & HM' & Hl & _ & He).
  rewrite HM' in HM. injection HM as <-. split.
  - intros k Hk Hnone. rewrite (Hl k Hk).
    assert (k ≠ lit "detail_index") as Hne.
    { revert Hk. unfold latest_keys. rewrite !elem_of_cons, elem_of_nil.
      intros [->|[->|[->|[]]]]; lit_neq. }
    unfold dict_get_default. rewrite with_resolutions_get, normalize_index_get_other by done.
    rewrite Hnone. revert Hk. unfold latest_keys. rewrite !elem_of_cons, elem_of_nil.
    by intros [->|[->|[->|[]]]].
  - intros Hnone. eexists. split; [exact He|].
    assert (dict_or_empty (dict_get_none (with_resolutions (normalize_index doc) di
              (fixed_items (id_remap run) (written_ids run) items)) (lit "environment"))
            = dict_or_empty empty_environment) as ->.
    { unfold dict_get_none, dict_get_default.
      rewrite with_resolutions_get, normalize_index_get_other by lit_neq.
      by rewrite Hnone. }
    unfold merge_environment. split; by dget.
Qed.

(** X13: the record stored for an accepted line is the decoded line with
    its [id] set to the id it is stored under: the same keys in the same
    order, and every other field unchanged. *)
Theorem written_record_keeps_fields st ln st' :
  write_line st ln = (st', None) →
  ∃ fields rid rec,
    json_loads ln = Some (PDict fields) ∧
    written_ids st' = written_ids st ++ [rid] ∧
    files st' !! res_file_name rid = Some (Document (PDict rec)) ∧
    dict_get rec (lit "id") = Some (PStr rid) ∧
    rec.*1 = fields.*1 ∧
    (∀ k, k ≠ lit "id" → dict_get rec k = dict_get fields k).
Proof.
  intros (obj & Hobj & (r & rid & Hd & _ & _ & -> & _)%write_record_Ok)%write_line_Ok.
  apply declared_id_Some in Hd as (d & -> & Hid & _).
  exists d, rid, (dict_set d (lit "id") (PStr rid)). split; [done|]. split; [done|].
  unfold written_as, with_id. simpl. split; [by rewrite lookup_insert_eq|].
  split; [apply dict_get_set_eq|]. split.
  - apply dict_set_keys. by rewrite Hid.
  - intros k Hk. by apply dict_get_set_ne.
Qed.

End more_runs.

(** X14: the arguments of [merge_resolution_index_items].  Two lists give
    the first entry of every id, the existing entries first; [None] or
    another falsy value counts as no entry, and so does a string; a number
    other than zero raises [TypeError]; the result has no id twice, holds
    only entries with a string id taken from the arguments, and every id of
    the arguments is in it. *)
Theorem merge_resolution_index_items_arguments :
  (∀ ex inc, merge_resolution_index_items (PList ex) (PList inc)
             = Ok (fresh entry_id ∅ (ex ++ inc))) ∧
  (∀ a inc, truthy a = false →
     merge_resolution_index_items a (PList inc) = Ok (fresh entry_id ∅ inc)) ∧
  (∀ ex b, truthy b = false →
     merge_resolution_index_items (PList ex) b = Ok (fresh entry_id ∅ ex)) ∧
  (∀ s inc, merge_resolution_index_items (PStr s) (PList inc) = Ok (fresh entry_id ∅ inc)) ∧
  (∀ z b, z ≠ 0%Z → merge_resolution_index_items (PInt z) b = Raise TypeError) ∧
  (∀ ex z, z ≠ 0%Z → merge_resolution_index_items (PList ex) (PInt z) = Raise TypeError) ∧
  (∀ ex inc items,
     merge_resolution_index_items (PList ex) (PList inc) = Ok items →
     NoDup (omap entry_id items) ∧
     (∀ it, it ∈ items → is_Some (entry_id it) ∧ (it ∈ ex ∨ it ∈ inc)) ∧
     (∀ it rid, (it ∈ ex ∨ it ∈ inc) → entry_id it = Some rid → rid ∈ omap entry_id items)).
Proof.
  assert (Hfalsy : ∀ a, truthy a = false → iter_or_empty a = Ok []).
  { intros a Ha. unfold iter_or_empty. by rewrite Ha. }
  assert (Hstr : ∀ s, ∃ chars, iter_or_empty (PStr s) = Ok chars ∧ omap entry_id chars = []).
  { intros s. unfold iter_or_empty. destruct (truthy (PStr s)); [|by exists []].
    eexists. split; [done|]. induction s as [|c s IH]; [done|]. exact IH. }
  assert (Hnone : ∀ l seen, omap entry_id l = [] → fresh entry_id seen l = []).
  { intros l seen Hl. apply fresh_known. unfold keys_of. rewrite Hl. set_solver. }
  split; [apply merge_resolution_index_items_lists|].
  split; [|split; [|split; [|split; [|split]]]].
  - intros a inc Ha. unfold merge_resolution_index_items.
    rewrite (Hfalsy a Ha), iter_or_empty_list. cbn.
    change merge_entry with (keep_step entry_id). by rewrite fold_keep_step.
  - intros ex b Hb. unfold merge_resolution_index_items.
    rewrite (Hfalsy b Hb), iter_or_empty_list. cbn.
    change merge_entry with (keep_step entry_id). by rewrite fold_keep_step.
  - intros s inc. unfold merge_resolution_index_items.
    destruct (Hstr s) as (chars & -> & Hchars). rewrite iter_or_empty_list. cbn.
    change merge_entry with (keep_step entry_id). rewrite !fold_keep_step. simpl.
    rewrite (Hnone chars ∅ Hchars). simpl. do 2 f_equal.
    unfold keys_of. rewrite Hchars. set_solver.
  - intros z b Hz. unfold merge_resolution_index_items, iter_or_empty. simpl.
    by rewrite (proj2 (Z.eqb_neq z 0) Hz).
  - intros ex z Hz. unfold merge_resolution_index_items, iter_or_empty. simpl.
    rewrite (proj2 (Z.eqb_neq z 0) Hz). simpl. by destruct (negb _).
  - intros ex inc items. rewrite merge_resolution_index_items_lists. intros [= <-].
    split; [apply fresh_NoDup|]. split.
    + intros it (Hin & k & Hk & _)%elem_of_fresh. split; [by rewrite Hk|].
      by apply elem_of_app.
    + intros it rid Hin%elem_of_app Hid.
      destruct (fresh_covers entry_id ∅ _ it rid Hin Hid) as [?|(y & Hy & Hky)]; [set_solver|].
      apply list_elem_of_omap. by exists y.
Qed.

(** ** The next free id *)

Lemma next_free_id_bound fuel n ex rs rid :
  next_free_id fuel n ex rs = Some rid →
  ∃ m, (n ≤ m < n + N.of_nat fuel)%N ∧ rid = res_id m.
Proof.
  revert n. induction fuel as [|fuel IH]; intros n; simpl; [done|].
  destruct (decide _) as [?|?].
  - intros [= <-]. exists n. split; [lia|done].
  - intros (m & Hm & ->)%IH. exists m. split; [lia|done].
Qed.

Lemma res_id_existing fs n :
  res_id n ∈ existing_ids fs ↔ res_file_name (res_id n) ∈ dom fs.
Proof.
  rewrite elem_of_existing_ids. split; [by intros [_ ?]|]. intros ?. split; [|done].
  apply starts_with_res_file_name, res_id_prefix.
Qed.

(** X15: [allocate_next_res_id] always returns: the id is [res-NNN] for
    the least number from 1 whose id has no file and is not reserved, a
    number that is at most one more than the ids in use; the id is added to
    the reserved ones, so that a second call, with no file written in
    between, returns the id of a greater number. *)
Theorem allocate_next_res_id_fresh (fs : gmap pystr content) (rs : gset pystr) :
  ∃ n,
    (1 ≤ n ≤ N.of_nat (size (existing_ids fs) + size rs) + 1)%N ∧
    allocate_next_res_id fs rs = Some (res_id n, {[res_id n]} ∪ rs) ∧
    is_res_nnn (res_id n) = true ∧
    (res_file_name (res_id n) ∉ dom fs) ∧ (res_id n ∉ rs) ∧
    (∀ j, (1 ≤ j < n)%N → res_file_name (res_id j) ∈ dom fs ∨ res_id j ∈ rs) ∧
    ∃ n' rs', (n < n')%N ∧
      allocate_next_res_id fs ({[res_id n]} ∪ rs) = Some (res_id n', rs').
Proof.
  destruct (allocate_next_res_id_total fs rs) as (rid & Ha & (n & Hn & -> & Hex & Hrs & Hmin)).
  exists n. split.
  { split; [done|]. unfold allocate_next_res_id in Ha.
    destruct (next_free_id _ 1 _ rs) as [rid'|] eqn:Hnext; [|done].
    injection Ha as Ha. apply next_free_id_bound in Hnext as (m & Hm & ->).
    apply res_id_inj in Ha. lia. }
  split; [done|]. split; [apply res_id_is_res_nnn|].
  split; [by rewrite <- res_id_existing|]. split; [done|]. split.
  { intros j Hj. rewrite <- res_id_existing. by apply Hmin. }
  destruct (allocate_next_res_id_total fs ({[res_id n]} ∪ rs))
    as (rid' & Ha' & (n' & Hn' & -> & Hex' & Hrs' & Hmin')).
  exists n', ({[res_id n']} ∪ ({[res_id n]} ∪ rs)). split; [|done].
  destruct (decide (n' = n)) as [->|Hne]; [set_solver|].
  destruct (decide (n' < n)%N) as [Hlt|?]; [|lia].
  destruct (Hmin n') as [?|?]; [lia|done|set_solver].
Qed.

(** ** Canonical keys *)

Section canonical_keys.
Context `{Builtins}.

(** X17: two objects with the same fields in a different order have the
    same canonical text, hence the same deduplication key: an incoming
    object equal to a previous one up to the order of its keys is not
    added. *)
Theorem object_key_order_ignored (d1 d2 : pydict) :
  d1 ≡ₚ d2 → NoDup d1.*1 →
  json_dumps (PDict d1) = json_dumps (PDict d2) ∧
  (json_value (PDict d1) = true →
   item_key (PDict d1) = item_key (PDict d2) ∧
   ∀ prev, PDict d1 ∈ prev →
     unique_list_merge (PList prev) (PList [PDict d2]) = unique_list_merge (PList prev) (PList [])).
Proof.
  intros Hp Hnd.
  assert (json_dumps (PDict d1) = json_dumps (PDict d2)) as Heq.
  { rewrite !json_dumps_dict. pose proof (sorted_items_permutation d1 d2 Hp Hnd) as Hs.
    destruct (dumps_items d1), (dumps_items d2); cbn in *; try done. by injection Hs as ->. }
  split; [done|]. intros [k Hk]%json_dumps_json_value.
  assert (item_key (PDict d1) = item_key (PDict d2)) as Hkey.
  { unfold item_key. by rewrite <- Heq, Hk. }
  split; [done|]. intros prev Hin.
  rewrite !unique_list_merge_spec. f_equal. simpl. rewrite new_entries_cons.
  rewrite decide_True; [done|]. rewrite <- Hkey. apply list_elem_of_fmap. by exists (PDict d1).
Qed.

Lemma fresh_cons {A K} `{Countable K} (key : A → option K) seen x l :
  fresh key seen (x :: l) =
  match key x with
  | Some k => if decide (k ∈ seen) then fresh key seen l else x :: fresh key ({[k]} ∪ seen) l
  | None => fresh key seen l
  end.
Proof. done. Qed.

Lemma omap_Some_id {A} (l : list A) : omap Some l = l.
Proof. induction l as [|x l IH]; [done|]. cbn. by rewrite IH. Qed.

Lemma fresh_strings (seen : gset pystr) (l : list pystr) :
  fresh some_key (set_map encode_str seen) (PStr <$> l) = PStr <$> fresh Some seen l.
Proof.
  revert seen. induction l as [|s l IH]; intros seen; [done|].
  rewrite fmap_cons, !fresh_cons. unfold some_key at 1.
  assert (item_key (PStr s) = encode_str s) as -> by done.
  destruct (decide (s ∈ seen)) as [Hin|Hin].
  - rewrite decide_True; [apply IH|]. apply elem_of_map. by exists s.
  - rewrite decide_False.
    + rewrite fmap_cons. f_equal. rewrite <- IH. f_equal.
      by rewrite set_map_union_L, set_map_singleton_L.
    + intros (s' & ->%encode_str_inj & Hs')%elem_of_map. done.
Qed.

(** X18: two strings have the same deduplication key exactly when they
    are equal, so [unique_list_merge] on lists of strings keeps the first
    occurrence of every string: no string twice, and every string of either
    list once. *)
Theorem strings_merge_by_equality :
  (∀ s t, item_key (PStr s) = item_key (PStr t) ↔ s = t) ∧
  (∀ l1 l2 : list pystr,
     unique_list_merge (PList (PStr <$> l1)) (PList (PStr <$> l2))
     = PStr <$> fresh Some ∅ (l1 ++ l2)) ∧
  (∀ l1 l2 : list pystr, NoDup (fresh Some ∅ (l1 ++ l2)) ∧
            ∀ s, s ∈ fresh Some ∅ (l1 ++ l2) ↔ s ∈ l1 ∨ s ∈ l2).
Proof.
  split; [|split].
  - intros s t. split; [|by intros ->]. apply encode_str_inj.
  - intros l1 l2. rewrite unique_list_merge_fresh. simpl. rewrite <- fmap_app.
    rewrite <- fresh_strings. by rewrite set_map_empty.
  - intros l1 l2. split.
    + pose proof (fresh_NoDup (@Some (pystr)) ∅ (l1 ++ l2)) as Hnd.
      by rewrite omap_Some_id in Hnd.
    + intros s. rewrite <- elem_of_app. split.
      * by intros [? _]%elem_of_fresh.
      * intros Hin. destruct (fresh_covers Some ∅ _ s s Hin eq_refl) as [?|(y & Hy & [= ->])];
          [set_solver|done].
Qed.

End canonical_keys.

(** ** The texts of a message *)

Lemma collect_text_from_any_list l :
  collect_text_from_any (PList l) = concat (collect_text_from_any <$> l).
Proof. induction l as [|x l IH]; [done|]. cbn in *. by rewrite IH. Qed.

Lemma collect_text_from_any_dict d :
  collect_text_from_any (PDict d) =
  (if has_type d (lit "text") then
     match dict_get d (lit "text") with
     | Some (PStr s) => text_piece s
     | _ => []
     end
   else []) ++
  texts_under d (lit "content") ++ texts_under d (lit "message") ++ texts_under d (lit "input").
Proof.
  assert (Hfind : ∀ k (d' : pydict),
    (fix find (d : pydict) : list pystr :=
       match d with
       | [] => []
       | (k', v) :: d' => if decide (k' = k) then collect_text_from_any v else find d'
       end) d' = texts_under d' k).
  { intros k d'. unfold texts_under. induction d' as [|[k' v] d' IH]; [done|].
    simpl. by destruct (decide (k' = k)). }
  cbn [collect_text_from_any]. by rewrite !Hfind.
Qed.

Lemma text_piece_trimmed s : Forall (λ t, t ≠ [] ∧ strip t = t) (text_piece s).
Proof.
  unfold text_piece. destruct (decide (strip s = [])); constructor; [|done].
  split; [done|apply strip_strip].
Qed.

Lemma dict_get_elem (d : pydict) k v : dict_get d k = Some v → (k, v) ∈ d.
Proof.
  induction d as [|[k' v'] d IH]; simpl; [done|].
  destruct (decide (k' = k)) as [->|]; [intros [= ->]; by left|]. intros ?. right. by apply IH.
Qed.

Lemma collect_text_from_any_trimmed node :
  Forall (λ t, t ≠ [] ∧ strip t = t) (collect_text_from_any node).
Proof.
  induction node as [| | | |s|l IH|d IH|] using pyval_nested_ind; try by constructor.
  - apply text_piece_trimmed.
  - rewrite collect_text_from_any_list. apply Forall_concat, Forall_fmap.
    eapply Forall_impl; [exact IH|]. done.
  - rewrite collect_text_from_any_dict.
    assert (∀ k, Forall (λ t, t ≠ [] ∧ strip t = t) (texts_under d k)) as Hunder.
    { intros k. unfold texts_under. destruct (dict_get d k) as [v|] eqn:Hv; [|done].
      apply dict_get_elem in Hv. by apply (proj1 (Forall_forall _ _) IH (k, v)). }
    repeat apply Forall_app_2; try apply Hunder.
    destruct (has_type d (lit "text")); [|done].
    destruct (dict_get d (lit "text")) as [[]|]; try done. apply text_piece_trimmed.
Qed.

Lemma collect_text_from_any_nonblank node :
  filter (λ x, x ≠ []) (collect_text_from_any node) = collect_text_from_any node.
Proof.
  pose proof (collect_text_from_any_trimmed node) as Hall.
  induction Hall as [|t l [Hne _] _ IH]; [done|]. rewrite filter_cons_True by done.
  by f_equal.
Qed.

Lemma collected_block_joined node :
  collected_block node = join NEWLINE (collect_text_from_any node).
Proof.
  unfold collected_block. rewrite collect_text_from_any_nonblank.
  apply strip_join_lines, collect_text_from_any_trimmed.
Qed.

(** X19: every text [collect_text_from_any] appends is trimmed and not
    empty, so the filter and the [strip()] applied to the collected texts
    change nothing: the block is the texts joined by line feeds, and it is
    empty exactly when nothing was collected. *)
Theorem collected_texts_are_trimmed (node : pyval) :
  Forall (λ t, t ≠ [] ∧ strip t = t) (collect_text_from_any node) ∧
  filter (λ x, x ≠ []) (collect_text_from_any node) = collect_text_from_any node ∧
  collected_block node = join NEWLINE (collect_text_from_any node) ∧
  (collected_block node = [] ↔ collect_text_from_any node = []).
Proof.
  split; [apply collect_text_from_any_trimmed|].
  split; [apply collect_text_from_any_nonblank|].
  split; [apply collected_block_joined|]. rewrite collected_block_joined. split.
  - apply join_nil_inv. eapply Forall_impl; [apply collect_text_from_any_trimmed|].
    by intros t [? _].
  - by intros ->.
Qed.

(** X20: [extract_text_from_message_obj] is empty for what is not a dict;
    for a message it is the texts collected under [content], one per line:
    a string content trimmed, the texts of the items of a list content; the
    result is trimmed. *)
Theorem message_text_is_joined_pieces (msg_obj : pyval) :
  (is_dict msg_obj = false → extract_text_from_message_obj msg_obj = []) ∧
  (∀ d, msg_obj = PDict d →
     extract_text_from_message_obj msg_obj =
     join NEWLINE (collect_text_from_any (dict_get_none d (lit "content")))) ∧
  (∀ d s, msg_obj = PDict d → dict_get d (lit "content") = Some (PStr s) →
     extract_text_from_message_obj msg_obj = strip s) ∧
  (∀ d items, msg_obj = PDict d → dict_get d (lit "content") = Some (PList items) →
     extract_text_from_message_obj msg_obj =
     join NEWLINE (concat (collect_text_from_any <$> items))) ∧
  strip (extract_text_from_message_obj msg_obj) = extract_text_from_message_obj msg_obj.
Proof.
  assert (Hd : ∀ d, extract_text_from_message_obj (PDict d) =
                    join NEWLINE (collect_text_from_any (dict_get_none d (lit "content")))).
  { intros d. unfold extract_text_from_message_obj. apply collected_block_joined. }
  split; [by destruct msg_obj|]. split; [by intros d ->|]. split; [|split].
  - intros d s -> Hs. rewrite Hd. unfold dict_get_none, dict_get_default. rewrite Hs. simpl.
    by destruct (decide (strip s = [])) as [->|].
  - intros d items -> Hs. rewrite Hd. unfold dict_get_none, dict_get_default. rewrite Hs.
    simpl default. by rewrite collect_text_from_any_list.
  - destruct msg_obj as [| | | | | |d|]; try done. rewrite Hd. apply strip_join_lines.
    apply collect_text_from_any_trimmed.
Qed.

(** ** The events of the digest *)

Section digest_events.
Context `{Builtins}.

Lemma classify_event_unclassified ch e : unclassified e = true → classify_event ch e = ch.
Proof.
  destruct e as [| | | | | |d|]; try done. unfold unclassified, classify_event.
  rewrite !andb_true_iff, !negb_true_iff. intros [[[Hs Ha] Hu] Ht]. rewrite Ha, Hu.
  destruct ch as [s dl tu tr ts]. simpl.
  destruct (has_type d (lit "summary")), (dict_get_none d (lit "summary"));
    destruct (dict_get_none d (lit "toolUseResult")); try done;
    simpl; by rewrite !app_nil_r.
Qed.

Lemma channels_app_nil_r ch : channels_app ch (mkChannels [] [] [] [] []) = ch.
Proof. destruct ch. unfold channels_app. simpl. by rewrite !app_nil_r. Qed.

Lemma collect_channels_cons e events :
  collect_channels (e :: events) =
  channels_app (classify_event (mkChannels [] [] [] [] []) e) (collect_channels events).
Proof.
  change (e :: events) with ([e] ++ events). by rewrite collect_channels_app.
Qed.

Lemma collect_channels_unclassified events :
  collect_channels (filter (λ e, unclassified e = false) events) = collect_channels events.
Proof.
  induction events as [|e events IH]; [done|].
  destruct (unclassified e) eqn:He.
  - rewrite filter_cons_False by congruence. rewrite IH, (collect_channels_cons e).
    rewrite classify_event_unclassified by done.
    destruct (collect_channels events). done.
  - rewrite filter_cons_True by done. by rewrite !collect_channels_cons, IH.
Qed.

(** X21: an event that is not an object, or that is no summary, assistant
    or user event and carries no [toolUseResult] object, leaves the digest
    as it is; a transcript of such events has an empty digest; and a summary
    event adds its trimmed summary and nothing else, whatever else it
    carries. *)
Theorem unclassified_events_are_ignored (events : list pyval) (max_chars : Z) :
  build_session_material (filter (λ e, unclassified e = false) events) max_chars
  = build_session_material events max_chars ∧
  (forallb unclassified events = true → build_session_material events max_chars = []) ∧
  (∀ d s ch,
     has_type d (lit "summary") = true → dict_get d (lit "summary") = Some (PStr s) →
     classify_event ch (PDict d) =
     mkChannels (summaries ch ++ [strip s]) (dialogue ch) (tool_uses ch)
       (tool_results ch) (tool_stats ch)).
Proof.
  split; [|split].
  - unfold build_session_material. by rewrite collect_channels_unclassified.
  - intros Hall. unfold build_session_material.
    rewrite <- collect_channels_unclassified.
    assert (filter (λ e, unclassified e = false) events = []) as ->.
    2:{ change (strip (join NEWLINE (material_of (collect_channels [])))) with (@nil N).
        unfold slice_from. apply drop_nil. }
    induction events as [|e events IH]; [done|]. simpl in Hall.
    apply andb_true_iff in Hall as [He Hall]. rewrite filter_cons_False by congruence.
    by apply IH.
  - intros d s ch Ht Hs. unfold classify_event, dict_get_none, dict_get_default.
    by rewrite Ht, Hs.
Qed.

(** X22: when [max_chars] is not positive the digest is the sectioned
    text without its first [- max_chars] characters: the whole text for 0,
    the text cut at its front for a negative budget. *)
Theorem digest_budget_not_positive (events : list pyval) (max_chars : Z) :
  (max_chars ≤ 0)%Z →
  build_session_material events max_chars
  = drop (Z.to_nat (- max_chars)) (sectioned_text (collect_channels events)).
Proof.
  intros Hn. unfold build_session_material. rewrite material_of_sections.
  unfold slice_from. destruct (Z.ltb_spec (- max_chars) 0); [lia|].
  destruct (decide (- max_chars ≤ Z.of_nat (length (sectioned_text (collect_channels events))))%Z).
  - f_equal. lia.
  - rewrite !drop_ge; [done|lia..].
Qed.

End digest_events.

(** ** The transcript *)

Lemma readlines_from_concat cur t : concat (readlines_from cur t) = rev cur ++ t.
Proof.
  revert cur. induction t as [|c t IH]; intros cur; simpl.
  - destruct cur; simpl; by rewrite ?app_nil_r.
  - destruct (c =? 10)%N; simpl; rewrite IH; simpl; by rewrite <- ?app_assoc.
Qed.

Lemma readlines_from_one_line cur t :
  forallb (λ c, negb (c =? 10)%N) cur = true →
  Forall (λ ln, one_line ln = true) (readlines_from cur t).
Proof.
  revert cur. induction t as [|c t IH]; intros cur Hcur; simpl.
  - destruct cur as [|x before]; [done|]. constructor; [|done].
    unfold one_line. rewrite rev_involutive. simpl in Hcur.
    by apply andb_true_iff in Hcur as [_ ?].
  - destruct (c =? 10)%N eqn:Hc.
    + constructor; [|by apply IH]. unfold one_line.
      change (rev (c :: cur)) with (rev cur ++ [c]). rewrite rev_app_distr, rev_involutive. done.
    + apply IH. simpl. by rewrite Hc.
Qed.

(** X23: [tail_lines] gives no line for a file that is not there and,
    for a positive [max_lines], the last [max_lines] lines of the file at
    most: the lines dropped and the lines returned are the text of the file
    (under universal newlines), lines are dropped only when [max_lines]
    lines are returned, and a line holds no line feed before its last
    character.  With [max_lines = 0] every line is returned. *)
Theorem tail_lines_keeps_the_end (max_lines : Z) :
  tail_lines NoFile max_lines = Some [] ∧
  (∀ content, tail_lines (Chars content) 0 = Some (readlines (universal_newlines content))) ∧
  (∀ content, (0 < max_lines)%Z →
     ∃ lines dropped,
       tail_lines (Chars content) max_lines = Some lines ∧
       (length lines ≤ Z.to_nat max_lines)%nat ∧
       dropped ++ lines = readlines (universal_newlines content) ∧
       universal_newlines content = concat dropped ++ concat lines ∧
       (dropped ≠ [] → length lines = Z.to_nat max_lines) ∧
       Forall (λ ln, one_line ln = true) lines).
Proof.
  split; [done|]. split.
  { intros content. unfold tail_lines, slice_from. f_equal.
    change (- 0 <? 0)%Z with false. cbv iota. by rewrite Z.min_l by lia. }
  intros content Hpos. unfold tail_lines. rewrite slice_from_last by done.
  set (all := readlines (universal_newlines content)).
  destruct (last_n_suffix (Z.to_nat max_lines) all) as [Hsplit Hlen].
  exists (last_n (Z.to_nat max_lines) all), (take (length all - Z.to_nat max_lines) all).
  split; [done|]. split; [lia|]. split; [done|]. split.
  - rewrite <- concat_app, <- Hsplit. unfold all, readlines.
    by rewrite readlines_from_concat.
  - split.
    + intros Hd. rewrite Hlen. apply Nat.min_l.
      destruct (decide (Z.to_nat max_lines ≤ length all)%nat); [done|].
      destruct Hd. by replace (length all - Z.to_nat max_lines)%nat with 0%nat by lia.
    + assert (Forall (λ ln, one_line ln = true) all) as Hall
        by by apply readlines_from_one_line.
      rewrite Hsplit in Hall. by apply Forall_app in Hall as [_ ?].
Qed.

Section transcript.
Context `{Builtins}.

Lemma parse_jsonl_lines_omap lines :
  parse_jsonl_lines lines = omap json_loads (filter (λ ln, ln ≠ []) (strip <$> lines)).
Proof.
  induction lines as [|ln lines IH]; [done|]. cbn [parse_jsonl_lines]. rewrite fmap_cons.
  destruct (decide (strip ln = [])) as [Hb|Hb].
  - by rewrite filter_cons_False by (by intros ?).
  - rewrite filter_cons_True by done. cbn. rewrite <- IH. by destruct (json_loads (strip ln)).
Qed.

Lemma parse_jsonl_lines_app l1 l2 :
  parse_jsonl_lines (l1 ++ l2) = parse_jsonl_lines l1 ++ parse_jsonl_lines l2.
Proof.
  rewrite !parse_jsonl_lines_omap, fmap_app, filter_app. apply omap_app.
Qed.

(** X24: [parse_jsonl_lines] decodes the lines that are not blank, in
    their order, and passes over a blank line and a line that is no JSON
    without an effect on the others; every event comes from a line; on the
    lines of a text it decodes the lines the writer loop of
    [parse_model_output_to_context] would go through, which raises where
    this function skips. *)
Theorem parse_jsonl_lines_skips :
  (∀ lines,
     parse_jsonl_lines lines = omap json_loads (filter (λ ln, ln ≠ []) (strip <$> lines))) ∧
  (∀ l1 l2, parse_jsonl_lines (l1 ++ l2) = parse_jsonl_lines l1 ++ parse_jsonl_lines l2) ∧
  (∀ l1 ln l2, strip ln = [] ∨ json_loads (strip ln) = None →
     parse_jsonl_lines (l1 ++ ln :: l2) = parse_jsonl_lines (l1 ++ l2)) ∧
  (∀ lines obj, obj ∈ parse_jsonl_lines lines →
     ∃ ln, ln ∈ lines ∧ strip ln ≠ [] ∧ json_loads (strip ln) = Some obj) ∧
  (∀ t, parse_jsonl_lines (splitlines t) = omap json_loads (nonblank_lines t)).
Proof.
  split; [apply parse_jsonl_lines_omap|]. split; [apply parse_jsonl_lines_app|].
  split; [|split].
  - intros l1 ln l2 Hskip. rewrite !parse_jsonl_lines_app. f_equal.
    cbn [parse_jsonl_lines]. destruct (decide (strip ln = [])) as [|Hne]; [done|].
    destruct Hskip as [?| ->]; done.
  - intros lines obj. rewrite parse_jsonl_lines_omap.
    intros (s & (Hne & (ln & -> & Hln)%list_elem_of_fmap)%list_elem_of_filter & Hs)%list_elem_of_omap.
    by exists ln.
  - intros t. by rewrite parse_jsonl_lines_omap.
Qed.

End transcript.

(** ** The files of a run *)

Section writer_counts.
Context `{Builtins}.

Lemma write_lines_written st lines run e :
  write_lines st lines = (run, e) →
  ∃ new, written_ids run = written_ids st ++ new ∧
         (length new ≤ length lines)%nat ∧
         (e = None ↔ length new = length lines).
Proof.
  revert st. induction lines as [|ln lines IH]; intros st; simpl.
  - intros [= <- <-]. exists []. by rewrite app_nil_r.
  - destruct (write_line st ln) as [st1 [err|]] eqn:Hl.
    + intros [= <- <-]. exists []. apply write_line_raised in Hl as [-> _].
      rewrite app_nil_r. split; [done|]. simpl. split; [lia|]. split; [done|lia].
    + apply write_line_Ok in Hl as (obj & _ & (r & rid & _ & _ & _ & -> & _)%write_record_Ok).
      intros (new & Hnew & Hlen & Hiff)%IH. exists (rid :: new). simpl in Hnew.
      rewrite <- app_assoc in Hnew. split; [done|]. simpl. split; [lia|].
      rewrite Hiff. lia.
Qed.

Global Instance res_file_name_Inj : Inj (=) (=) res_file_name.
Proof. intros r1 r2. apply res_file_name_inj. Qed.

(** X25: the writer loop creates one file for every line it writes.  It
    writes as many records as it went through lines, all the lines exactly
    when it raises nothing, and the directory then has that many files
    more.  When it raises, the directory has one file more for every record
    written and at most one besides, the start of the record that
    [json.dump] raised on; apart from that file, every file is one that was
    there or the file of a written id.  The files that were there are still
    there with their content. *)
Theorem one_file_per_line (files0 : gmap pystr content) (lines : list pystr) :
  let result := write_lines (mkRun files0 ∅ [] ∅) lines in
  let run := result.1 in
  (length (written_ids run) ≤ length lines)%nat ∧
  (result.2 = None ↔ length (written_ids run) = length lines) ∧
  (result.2 = None →
     dom (files run) = dom files0 ∪ list_to_set (res_file_name <$> written_ids run) ∧
     size (dom (files run)) = (size (dom files0) + length lines)%nat) ∧
  (size (dom files0) + length (written_ids run) ≤ size (dom (files run))
     ≤ size (dom files0) + length (written_ids run) + 1)%nat ∧
  (∀ name, name ∈ dom (files run) →
     name ∈ dom files0 ∨ name ∈ res_file_name <$> written_ids run ∨
     (is_Some result.2 ∧ files run !! name = Some Partial)) ∧
  (files0 ⊆ files run).
Proof.
  intros result run. destruct result as [run' e] eqn:Hrun. subst run. simpl.
  destruct (write_lines_written _ _ _ _ Hrun) as (new & Hnew & Hlen & Hiff).
  simpl in Hnew. rewrite Hnew.
  destruct (write_lines_outcome files0 lines _ run' e (run_inv_start files0) Hrun)
    as (st1 & (Hnd & _ & Hold & Hw & Hdom & _) & Hleft).
  assert (Hsize : size (dom (files st1))
                  = (size (dom files0) + length (written_ids st1))%nat).
  { rewrite Hdom, size_union.
    - rewrite size_list_to_set; [by rewrite length_fmap|].
      apply NoDup_fmap_2; [apply _|done].
    - intros name Hin (rid & -> & Hrid)%elem_of_list_to_set%list_elem_of_fmap.
      by destruct (Hw rid Hrid) as [? _]. }
  assert (Hsub : files0 ⊆ files st1).
  { apply map_subseteq_spec. intros name doc Hdoc.
    rewrite Hold; [done|]. apply elem_of_dom. by eexists. }
  split; [done|]. split; [done|].
  destruct e as [e|].
  - destruct Hleft as [Hwr [Hf|(rid & Hpre & Hfree & Hf)]]; rewrite Hf; rewrite Hnew in Hwr.
    + split; [done|]. rewrite Hsize, <- Hwr. split; [lia|]. split; [|done].
      intros name. rewrite Hdom, elem_of_union, elem_of_list_to_set, Hwr. tauto.
    + split; [done|]. rewrite dom_insert_L, size_union, size_singleton, Hsize, <- Hwr
        by set_solver.
      split; [lia|]. split.
      * intros name [->%elem_of_singleton|Hin]%elem_of_union.
        -- right. right. split; [by eexists|]. by rewrite lookup_insert_eq.
        -- revert Hin. rewrite Hdom, elem_of_union, elem_of_list_to_set, Hwr. tauto.
      * etrans; [exact Hsub|]. apply insert_subseteq. by apply not_elem_of_dom.
  - subst st1. rewrite Hnew in Hsize, Hdom. split.
    + intros _. split; [done|]. rewrite Hsize. f_equal. by apply Hiff.
    + rewrite Hsize. split; [lia|]. split; [|done].
      intros name. rewrite Hdom, elem_of_union, elem_of_list_to_set. tauto.
Qed.

(** X26: the ids a run wrote are ids the scan of the directory finds, as
    are the ids it found before; so an allocation after the run, whatever is
    reserved, returns an id that the run did not write and that has no
    file. *)
Theorem written_ids_stay_taken (files0 : gmap pystr content) (lines : list pystr)
    (reserved : gset pystr) :
  let run := (write_lines (mkRun files0 ∅ [] ∅) lines).1 in
  (∀ rid, rid ∈ written_ids run → rid ∈ existing_ids (files run)) ∧
  (existing_ids files0 ⊆ existing_ids (files run)) ∧
  ∃ rid, allocate_next_res_id (files run) reserved = Some (rid, {[rid]} ∪ reserved) ∧
         (rid ∉ written_ids run) ∧ (rid ∉ existing_ids files0) ∧
         (res_file_name rid ∉ dom (files run)).
Proof.
  intros run. unfold run. destruct (write_lines _ lines) as [run' e] eqn:Hrun. simpl.
  destruct (write_lines_directory files0 lines run' e Hrun) as (_ & Hold & Hw & Hdom).
  assert (∀ rid, rid ∈ written_ids run' → rid ∈ existing_ids (files run')) as Hwritten.
  { intros rid Hrid. destruct (Hw rid Hrid) as (_ & Hpre & doc & Hdoc & _).
    apply elem_of_existing_ids. split; [by apply starts_with_res_file_name|].
    apply elem_of_dom. by eexists. }
  assert (existing_ids files0 ⊆ existing_ids (files run')) as Hsub.
  { intros rid [Hpre Hin]%elem_of_existing_ids. apply elem_of_existing_ids.
    split; [done|]. set_solver. }
  split; [done|]. split; [done|].
  destruct (allocate_next_res_id_total (files run') reserved)
    as (rid & Ha & (n & _ & -> & Hex & _ & _)).
  exists (res_id n). split; [done|]. split; [|split].
  - intros Hin. by apply Hex, Hwritten.
  - intros Hin. by apply Hex, Hsub.
  - by rewrite <- res_id_existing.
Qed.

Lemma tool_use_line_of d (desc : pystr) :
  has_type d (lit "tool_use") = true →
  match dict_get_none d (lit "input") with
  | PDict inp =>
      match dict_get_none inp (lit "description") with
      | PStr s => s
      | _ =>
          match dict_get_none inp (lit "prompt") with
          | PStr s => s
          | _ => []
          end
      end
  | _ => []
  end = desc →
  tool_use_line (PDict d) = Some (tool_use_head d ++ short_description desc).
Proof.
  intros Ht <-. unfold tool_use_line, tool_use_head, short_description. rewrite Ht.
  rewrite slice_to_take by lia. change (Z.to_nat 600) with 600%nat.
  by rewrite <- !app_assoc.
Qed.

(** X27: the line of a [tool_use] item is its name and id followed by
    the description of its input when that is a string, or else by its
    prompt when that is a string, or else by nothing; the text is shown
    trimmed, without carriage returns and cut to its first 600 characters,
    so it starts with no blank, and a text that is already so is shown as it
    is; an item of another type gives no line. *)
Theorem tool_use_line_is_capped :
  (∀ d inp s,
     has_type d (lit "tool_use") = true →
     dict_get d (lit "input") = Some (PDict inp) →
     dict_get inp (lit "description") = Some (PStr s) →
     tool_use_line (PDict d) = Some (tool_use_head d ++ short_description s)) ∧
  (∀ d inp s,
     has_type d (lit "tool_use") = true →
     dict_get d (lit "input") = Some (PDict inp) →
     (∀ s', dict_get inp (lit "description") ≠ Some (PStr s')) →
     dict_get inp (lit "prompt") = Some (PStr s) →
     tool_use_line (PDict d) = Some (tool_use_head d ++ short_description s)) ∧
  (∀ d,
     has_type d (lit "tool_use") = true →
     (∀ inp, dict_get d (lit "input") = Some (PDict inp) →
        (∀ s, dict_get inp (lit "description") ≠ Some (PStr s)) ∧
        (∀ s, dict_get inp (lit "prompt") ≠ Some (PStr s))) →
     tool_use_line (PDict d) = Some (tool_use_head d)) ∧
  (∀ item,
     (∀ d, item = PDict d → has_type d (lit "tool_use") = false) →
     tool_use_line item = None) ∧
  (∀ s,
     (length (short_description s) ≤ 600)%nat ∧ (13%N ∉ short_description s) ∧
     (∀ c rest, short_description s = c :: rest → is_space c = false) ∧
     (strip s = s → 13%N ∉ s → (length s ≤ 600)%nat → short_description s = s)).
Proof.
  split; [|split; [|split; [|split]]].
  - intros d inp s Ht Hinp Hs. apply tool_use_line_of; [done|].
    unfold dict_get_none, dict_get_default. by rewrite Hinp; simpl; rewrite Hs.
  - intros d inp s Ht Hinp Hno Hs. apply tool_use_line_of; [done|].
    unfold dict_get_none, dict_get_default. rewrite Hinp; simpl; rewrite Hs. simpl.
    destruct (dict_get inp (lit "description")) as [[]|] eqn:Hd; try done.
    by destruct (Hno s0).
  - intros d Ht Hno. rewrite (tool_use_line_of d [] Ht).
    + unfold short_description. by rewrite strip_nil, app_nil_r.
    + unfold dict_get_none, dict_get_default.
      destruct (dict_get d (lit "input")) as [[| | | | | |inp|]|] eqn:Hinp; try done.
      destruct (Hno inp eq_refl) as [Hd Hp]. simpl.
      destruct (dict_get inp (lit "description")) as [[]|] eqn:Hd'; try done;
        try (by destruct (Hd s));
        (destruct (dict_get inp (lit "prompt")) as [[]|] eqn:Hp'; try done;
         by destruct (Hp s)).
  - intros item Hno. destruct item as [| | | | | |d|]; try done.
    unfold tool_use_line. by rewrite (Hno d eq_refl).
  - intros s. unfold short_description. split; [|split; [|split]].
    + rewrite length_take. lia.
    + intros (i & Hi%list_elem_of_lookup_2 & _)%elem_of_take.
      apply list_elem_of_filter in Hi as [? _]. done.
    + intros c rest Hc.
      assert (c ∈ filter (λ c, c ≠ 13%N) (strip s)) as Hin.
      { destruct (filter _ (strip s)) as [|c' f] eqn:Hf; [done|].
        simpl in Hc. injection Hc as -> _. set_solver. }
      destruct (strip s) as [|c1 r1] eqn:Hstrip; [by rewrite filter_nil in Hin|].
      assert (is_space c1 = false) as Hc1.
      { pose proof (strip_strip s) as Hss. rewrite Hstrip in Hss.
        apply strip_same_ends in Hss as [?|(a & b & r & r' & [= <- <-] & _ & Ha & _)]; done. }
      rewrite filter_cons in Hc. destruct (decide (c1 ≠ 13%N)) as [_|Heq].
      * simpl in Hc. by injection Hc as <- _.
      * apply dec_stable in Heq. by subst c1.
    + intros Hs Hcr Hlen. rewrite Hs.
      assert (filter (λ c, c ≠ 13%N) s = s) as ->.
      { clear -Hcr. induction s as [|c s IH]; [done|]. rewrite filter_cons.
        rewrite decide_True by set_solver. f_equal. apply IH. set_solver. }
      by apply take_ge.
Qed.

(** X28: a record whose declared id is taken, by a file of the directory
    or by an earlier line of the run, is stored under [res-NNN] for the
    least number from 1 whose id is not taken, which is not the declared
    id.  With the new id in its [id] field, the record is one [json.dump]
    takes when it takes the record as it came.  When the record can be
    written, its file holds it with the new id, [id_remap] maps the declared
    id to the new one, and no other file changes. *)
Theorem taken_id_gets_next_free_id st obj r :
  declared_id obj = Some r → collides st r →
  ∃ n, (1 ≤ n)%N ∧ stored_id st r = res_id n ∧
    ¬ collides st (res_id n) ∧
    (∀ j, (1 ≤ j < n)%N → collides st (res_id j)) ∧
    res_id n ≠ r ∧
    entry_id (with_id obj (res_id n)) = Some (res_id n) ∧
    (dump_error obj = None → dump_error (with_id obj (res_id n)) = None) ∧
    (writable obj (res_id n) →
       write_record st obj = (written_as st obj r (res_id n), None) ∧
       files (written_as st obj r (res_id n)) !! res_file_name (res_id n)
         = Some (Document (with_id obj (res_id n))) ∧
       id_remap (written_as st obj r (res_id n)) !! r = Some (res_id n) ∧
       (∀ name, name ≠ res_file_name (res_id n) →
          files (written_as st obj r (res_id n)) !! name = files st !! name)).
Proof.
  intros Hd Hc.
  destruct (write_record_declared st obj r Hd) as (_ & _ & _ & _ & Hcase).
  rewrite decide_True in Hcase by done.
  destruct Hcase as [(n & Hn & Hs & Hex & Hrs & Hmin) Hne].
  exists n. split; [done|]. split; [done|]. rewrite Hs in Hne, Hex, Hrs.
  split. { rewrite collides_res_id. tauto. }
  split. { intros j Hj. rewrite collides_res_id. by apply Hmin. }
  split; [done|]. split; [apply entry_id_with_id|]. split.
  - intros Hdump. apply declared_id_Some in Hd as (d & -> & _ & _).
    unfold with_id. simpl. apply dump_error_dict_set; [done|reflexivity|apply encodable_res_id].
  - intros Hw. rewrite <- Hs in Hw. rewrite (write_record_written st obj r Hd Hw), Hs.
    split; [done|]. unfold written_as. simpl. split; [by rewrite lookup_insert_eq|].
    split. { rewrite decide_False by done. by rewrite lookup_insert_eq. }
    intros name Hname. by rewrite lookup_insert_ne.
Qed.

End writer_counts.

(** ** The properties on the sample data *)

(** The groups of the chatty reply are trimmed. *)
Lemma file_blocks_between_markers_witness :
  strip (text_of (PDict [])) = text_of (PDict []) ∧
  strip (text_of twin_a ++ NEWLINE ++ text_of twin_b)
  = text_of twin_a ++ NEWLINE ++ text_of twin_b.
Proof.
  destruct (file_blocks_between_markers chatty_reply (text_of (PDict []))
              (text_of twin_a ++ NEWLINE ++ text_of twin_b)) as (Hi & Hn & _).
  - vm_compute. reflexivity.
  - split; [exact Hi|exact Hn].
Defined.

(** The blocks of the chatty reply start at its first index marker. *)
Lemma file_blocks_first_markers_witness :
  ∃ pre rest,
    chatty_reply = pre ++ INDEX_MARKER ++ rest ∧ closes_first INDEX_MARKER pre = true.
Proof.
  destruct (file_blocks_first_markers chatty_reply (text_of (PDict []))
              (text_of twin_a ++ NEWLINE ++ text_of twin_b))
    as [(pre & rest & Hsplit & Hfirst & _) _].
  - vm_compute. reflexivity.
  - exists pre, rest. split; [exact Hsplit|exact Hfirst].
Defined.

(** A reply with two records, read back. *)
Lemma well_formed_reply_read_back_witness :
  FILE_BLOCK_RE_search
    (lit "Here: " ++ INDEX_MARKER ++ NEWLINE ++ text_of (PDict []) ++ NEWLINE ++ END_MARKER ++
     NEWLINE ++ NDJSON_MARKER ++ NEWLINE ++ (text_of twin_a ++ NEWLINE ++ text_of twin_b) ++
     NEWLINE ++ END_MARKER ++ lit " bye")
  = Some (text_of (PDict []), text_of twin_a ++ NEWLINE ++ text_of twin_b).
Proof.
  apply (well_formed_reply_read_back (lit "Here: ") NEWLINE (text_of (PDict [])) NEWLINE NEWLINE
           NEWLINE (text_of twin_a ++ NEWLINE ++ text_of twin_b) NEWLINE (lit " bye"));
    vm_compute; reflexivity.
Defined.

(** Two records on two lines. *)
Lemma resolution_lines_read_back_witness :
  nonblank_lines (strip (join NEWLINE [text_of twin_a; text_of twin_b]))
  = [text_of twin_a; text_of twin_b].
Proof.
  apply (resolution_lines_read_back [text_of twin_a; text_of twin_b]).
  vm_compute. reflexivity.
Defined.

(** The index of the sample run is normalised. *)
Lemma returned_index_is_normal_witness :
  normalize_index (PDict (run_index sample_run)) = run_index sample_run.
Proof.
  apply (returned_index_is_normal (H := sample_builtins [sample_reply])
           (reply_of sample_reply []) sample_store (run_index sample_run) sample_run.2).
  vm_compute. reflexivity.
Defined.

(** The directory of the sample index, merged with that of the twin reply. *)
Lemma directory_entries_stay_witness :
  index_shape (normalize_index twin_index) ∧
  ∃ M added,
    final_index (H := sample_builtins []) (read_existing_index (Holds sample_persisted))
      (normalize_index twin_index) = Ok M ∧
    directory M = fresh entry_id ∅ (directory (normalize_index sample_persisted)) ++ added.
Proof.
  assert (Hshape : index_shape (normalize_index twin_index)).
  { do 2 eexists. split; vm_compute; reflexivity. }
  split; [exact Hshape|].
  destruct (directory_entries_stay (H := sample_builtins []) sample_persisted
              (normalize_index twin_index) Hshape) as (M & added & HM & Hdir & _).
  exists M, added. split; [exact HM|exact Hdir].
Defined.

(** The environment of the sample index, merged with that of the sample reply. *)
Lemma environment_merge_witness :
  index_shape (normalize_index sample_reply) ∧
  ∃ M env,
    final_index (H := sample_builtins []) (read_existing_index (Holds sample_persisted))
      (normalize_index sample_reply) = Ok M ∧
    dict_get M (lit "environment") = Some (PDict env) ∧
    env.*1 = [lit "os"; lit "runtime"; lit "tools"; lit "paths"].
Proof.
  assert (Hshape : index_shape (normalize_index sample_reply)).
  { do 2 eexists. split; vm_compute; reflexivity. }
  split; [exact Hshape|].
  destruct (environment_merge (H := sample_builtins []) sample_persisted
              (normalize_index sample_reply) Hshape) as (M & env & HM & He & Hk & _).
  exists M, env. split; [exact HM|]. split; [exact He|exact Hk].
Defined.

(** The keys of the sample index after the merge. *)
Lemma unmerged_fields_stay_witness :
  index_shape (normalize_index sample_reply) ∧
  ∃ M,
    final_index (H := sample_builtins []) (read_existing_index (Holds sample_persisted))
      (normalize_index sample_reply) = Ok M ∧
    M.*1 = (normalize_index sample_persisted).*1.
Proof.
  assert (Hshape : index_shape (normalize_index sample_reply)).
  { do 2 eexists. split; vm_compute; reflexivity. }
  split; [exact Hshape|].
  destruct (unmerged_fields_stay (H := sample_builtins []) sample_persisted
              (normalize_index sample_reply) Hshape) as (M & HM & Hk & _).
  exists M. split; [exact HM|exact Hk].
Defined.

(** The sample reply leaves [project] out: the run resets it. *)
Lemma omitted_fields_reset_witness :
  dict_get (run_index sample_run) (lit "project") = Some (str "unknown").
Proof.
  destruct (omitted_fields_reset (H := sample_builtins [sample_reply])
           (reply_of sample_reply []) sample_store sample_persisted
           (run_index sample_run) sample_run.2
           (text_of sample_reply) [] sample_reply) as [Hl _].
  - reflexivity.
  - vm_compute. reflexivity.
  - vm_compute. reflexivity.
  - vm_compute. reflexivity.
  - apply (Hl (lit "project")).
    + apply (bool_decide_unpack _). vm_compute. exact I.
    + vm_compute. reflexivity.
Defined.

(** The record of the second run, stored as [res-002]. *)
Lemma written_record_keeps_fields_witness :
  ∃ (fields : pydict) (rid : pystr) (rec : pydict),
    json_loads (Builtins := sample_builtins [twin_a]) (text_of twin_a) = Some (PDict fields) ∧
    rid = lit "res-002" ∧
    rec.*1 = fields.*1.
Proof.
  destruct (written_record_keeps_fields (H := sample_builtins [twin_a])
              (mkRun (res_files sample_store) ∅ [] ∅) (text_of twin_a)
              (written_as (mkRun (res_files sample_store) ∅ [] ∅) twin_a
                 (lit "res-001") (lit "res-002")))
    as (fields & rid & rec & Hl & Hw & _ & _ & Hk & _).
  - vm_compute. reflexivity.
  - exists fields, rid, rec. split; [exact Hl|]. split; [|exact Hk].
    simpl in Hw. by injection Hw as <-.
Defined.

(** The two orders of the sample fields have one canonical text. *)
Lemma object_key_order_ignored_witness :
  json_dumps (PDict fields_ab) = json_dumps (PDict fields_ba).
Proof.
  apply (object_key_order_ignored (H := sample_builtins []) fields_ab fields_ba).
  - apply perm_swap.
  - apply (bool_decide_unpack _). vm_compute. exact I.
Defined.

(** A budget of -5 characters drops the first five. *)
Lemma digest_budget_not_positive_witness :
  build_session_material (H := sample_builtins []) sample_events (-5)
  = drop 5 (sectioned_text (collect_channels (H := sample_builtins []) sample_events)).
Proof.
  apply (digest_budget_not_positive (H := sample_builtins []) sample_events (-5)).
  vm_compute. discriminate.
Defined.

(** The record [res-001] on the sample store, where [res-001] is taken. *)
Lemma taken_id_gets_next_free_id_witness :
  ∃ n,
    stored_id (mkRun (res_files sample_store) ∅ [] ∅) (lit "res-001") = res_id n ∧
    entry_id (with_id twin_a (res_id n)) = Some (res_id n).
Proof.
  destruct (taken_id_gets_next_free_id (H := sample_builtins [])
              (mkRun (res_files sample_store) ∅ [] ∅) twin_a (lit "res-001"))
    as (n & _ & Hs & _ & _ & _ & Hid & _).
  - reflexivity.
  - left. apply (bool_decide_unpack _). vm_compute. exact I.
  - exists n. split; [exact Hs|exact Hid].
Defined.
